(** * Replay-driven training loops of the DDPG (Pendulum) and DQN (Breakout)
      notebooks: a shallow embedding and the properties of its replay logic.

    Sources embedded here:
    - [src/pendulum/ddpg_pendulum.ipynb]: [OUActionNoise], [Buffer],
      [update_target], [policy] and the episode loop;
    - [src/Breakout/Untitled.ipynb]: class [DQN] and its episode loop.

    Conventions.  Python exceptions are values of [exn] carried by the
    error monad [res].  Neural networks, the simulator and the random
    number generator are parameters of the sections that use them.
    Floating-point numbers are an abstract carrier [num] with the
    operations the code applies to them.  The convergence of the soft
    target update is stated with the carrier instantiated by the real
    numbers; the worked examples use the integers. *)

From Stdlib Require Import Reals Lra.
From stdpp Require Import base list.

Set Default Proof Using "Type".

(** ** Python runtime: exceptions and the error monad *)

Inductive exn : Type :=
  | ZeroDivisionError
  | ValueError
  | IndexError.

Inductive res (A : Type) : Type :=
  | Ok (a : A)
  | Raise (e : exn).
Arguments Ok {A} a.
Arguments Raise {A} e.

#[global] Instance res_ret : MRet res := fun A a => Ok a.
#[global] Instance res_bind : MBind res := fun A B k m =>
  match m with
  | Ok a => k a
  | Raise e => Raise e
  end.

Definition is_Ok {A : Type} (m : res A) : Prop := ∃ a, m = Ok a.

(** Outcome of a call that contains a loop without a static bound, when
    the loop is followed for a bounded number of iterations: a result, an
    exception, or a loop that was still running when the budget was used
    up. *)
Inductive run (A : Type) : Type :=
  | Done (a : A)
  | Failed (e : exn)
  | Unfinished.
Arguments Done {A} a.
Arguments Failed {A} e.
Arguments Unfinished {A}.

#[global] Instance run_ret : MRet run := fun A a => Done a.
#[global] Instance run_bind : MBind run := fun A B k m =>
  match m with
  | Done a => k a
  | Failed e => Failed e
  | Unfinished => Unfinished
  end.

Definition of_res {A : Type} (r : res A) : run A :=
  match r with
  | Ok a => Done a
  | Raise e => Failed e
  end.

Definition of_option {A : Type} (o : option A) : run A :=
  match o with
  | Some a => Done a
  | None => Unfinished
  end.

(** [a % b] on non-negative Python integers. *)
Definition py_mod (a b : nat) : res nat :=
  if decide (b = 0) then Raise ZeroDivisionError else Ok (a mod b).

(** [arr[i] = x] on the first axis of an array: in range it overwrites
    row [i], out of range numpy raises [IndexError]. *)
Definition set_row {A : Type} (arr : list A) (i : nat) (x : A) : res (list A) :=
  if decide (i < length arr) then Ok (<[i:=x]> arr) else Raise IndexError.

(** [arr[i]] for a non-negative index. *)
Definition get_row {A : Type} (arr : list A) (i : nat) : res A :=
  match arr !! i with
  | Some x => Ok x
  | None => Raise IndexError
  end.

(** [arr[batch_indices]]: integer-array indexing on the first axis. *)
Fixpoint gather {A : Type} (arr : list A) (batch_indices : list nat) : res (list A) :=
  match batch_indices with
  | [] => Ok []
  | i :: rest =>
      x ← get_row arr i;
      xs ← gather arr rest;
      Ok (x :: xs)
  end.

(** ** Numbers and numpy arrays *)

(** The operations the notebooks apply to floating-point scalars. *)
Class NumOps (num : Type) : Type := {
  n0 : num;
  n1 : num;
  nadd : num → num → num;
  nsub : num → num → num;
  nmul : num → num → num;
  ndiv : num → num → num;
  nsqrt : num → num;
  (** [a <= b] and [a < b] *)
  nleb : num → num → bool;
  nltb : num → num → bool;
  (** [cast(_, dtype="float32")] *)
  cast32 : num → num;
  (** conversion of a Python [int] *)
  nofnat : nat → num
}.

Declare Scope num_scope.
Delimit Scope num_scope with num.
Infix "⊕" := nadd (at level 50, left associativity) : num_scope.
Infix "⊖" := nsub (at level 50, left associativity) : num_scope.
Infix "⊗" := nmul (at level 40, left associativity) : num_scope.
Local Open Scope num_scope.

Section Arrays.
Context {num : Type} `{NumOps num}.

(** [np.maximum] and [np.minimum] on scalars. *)
Definition nmax (a b : num) : num := if nleb a b then b else a.
Definition nmin (a b : num) : num := if nleb a b then a else b.

(** [np.clip(x, lo, hi)], that is [minimum(maximum(x, lo), hi)]. *)
Definition clip (x lo hi : num) : num := nmin (nmax x lo) hi.

(** A binary operator on two one-dimensional arrays, with numpy's
    broadcasting: equal shapes combine element-wise, a one-element
    array is stretched, any other pair of shapes raises. *)
Definition vv (f : num → num → num) (u v : list num) : res (list num) :=
  if decide (length u = length v) then Ok (zip_with f u v)
  else match u, v with
       | [a], _ => Ok (map (f a) v)
       | _, [b] => Ok (map (fun x => f x b) u)
       | _, _ => Raise ValueError
       end.

(** [np.zeros_like(v)] *)
Definition zeros_like (v : list num) : list num := replicate (length v) n0.

(** [np.mean] of a one-dimensional array. *)
Definition mean_of (l : list num) : num :=
  ndiv (foldl nadd n0 l) (nofnat (length l)).

(** [np.amax]: the maximum of a non-empty array. *)
Definition amax (l : list num) : res num :=
  match l with
  | [] => Raise ValueError
  | x :: xs => Ok (foldl nmax x xs)
  end.

(** [np.argmax]: the first index holding the maximum. *)
Fixpoint argmax_from (best : num) (besti i : nat) (l : list num) : nat :=
  match l with
  | [] => besti
  | x :: xs =>
      if nltb best x then argmax_from x i (S i) xs
      else argmax_from best besti (S i) xs
  end.
Definition argmax (l : list num) : res nat :=
  match l with
  | [] => Raise ValueError
  | x :: xs => Ok (argmax_from x 0 1 xs)
  end.
End Arrays.

(** ** The transition store of the continuous variant: class [Buffer] *)

Section BufferStore.
Context {State Action Reward : Type}.
(** The rows [np.zeros] preallocates. *)
Variable zero_state : State.
Variable zero_action : Action.
Variable zero_reward : Reward.

(** [obs_tuple = (prev_state, action, reward, state)]. *)
Definition Transition : Type := State * Action * Reward * State.

Record Buffer : Type := mkBuffer {
  buffer_capacity : nat;
  batch_size : nat;
  buffer_counter : nat;
  state_buffer : list State;
  action_buffer : list Action;
  reward_buffer : list Reward;
  next_state_buffer : list State
}.

(** [Buffer.__init__] *)
Definition Buffer_init (capacity bsize : nat) : Buffer :=
  {| buffer_capacity := capacity;
     batch_size := bsize;
     buffer_counter := 0;
     state_buffer := replicate capacity zero_state;
     action_buffer := replicate capacity zero_action;
     reward_buffer := replicate capacity zero_reward;
     next_state_buffer := replicate capacity zero_state |}.

(** [Buffer.record] *)
Definition record (self : Buffer) (obs_tuple : Transition) : res Buffer :=
  let '(o0, o1, o2, o3) := obs_tuple in
  index ← py_mod (buffer_counter self) (buffer_capacity self);
  sb ← set_row (state_buffer self) index o0;
  ab ← set_row (action_buffer self) index o1;
  rb ← set_row (reward_buffer self) index o2;
  nb ← set_row (next_state_buffer self) index o3;
  Ok {| buffer_capacity := buffer_capacity self;
        batch_size := batch_size self;
        buffer_counter := buffer_counter self + 1;
        state_buffer := sb;
        action_buffer := ab;
        reward_buffer := rb;
        next_state_buffer := nb |}.

(** A sequence of [record] calls, stopping at the first exception. *)
Fixpoint record_all (self : Buffer) (ts : list Transition) : res Buffer :=
  match ts with
  | [] => Ok self
  | t :: rest => b ← record self t; record_all b rest
  end.

(** [record_range] of [Buffer.learn]: the number of valid entries. *)
Definition record_range (self : Buffer) : nat :=
  Nat.min (buffer_counter self) (buffer_capacity self).

(** The transition held by ring slot [j], read across the four arrays. *)
Definition slot (self : Buffer) (j : nat) : option Transition :=
  match state_buffer self !! j, action_buffer self !! j,
        reward_buffer self !! j, next_state_buffer self !! j with
  | Some s, Some a, Some r, Some s' => Some (s, a, r, s')
  | _, _, _, _ => None
  end.

Definition zero_transition : Transition :=
  (zero_state, zero_action, zero_reward, zero_state).

(** The sampled batch of [Buffer.learn] for drawn [batch_indices]. *)
Definition learn_batch (self : Buffer) (batch_indices : list nat)
  : res (list State * list Action * list Reward * list State) :=
  state_batch ← gather (state_buffer self) batch_indices;
  action_batch ← gather (action_buffer self) batch_indices;
  reward_batch ← gather (reward_buffer self) batch_indices;
  next_state_batch ← gather (next_state_buffer self) batch_indices;
  Ok (state_batch, action_batch, reward_batch, next_state_batch).

(** Representation invariant after the transitions [ts] were recorded
    into a store of capacity [C]. *)
Record ring_inv (C : nat) (ts : list Transition) (b : Buffer) : Prop := {
  ri_capacity : buffer_capacity b = C;
  ri_counter : buffer_counter b = length ts;
  ri_len_s : length (state_buffer b) = C;
  ri_len_a : length (action_buffer b) = C;
  ri_len_r : length (reward_buffer b) = C;
  ri_len_n : length (next_state_buffer b) = C;
  ri_recent : ∀ i, i < length ts → length ts ≤ i + C →
                   slot b (i mod C) = ts !! i;
  ri_fresh : ∀ j, length ts ≤ j → j < C → slot b j = Some zero_transition
}.

End BufferStore.

Arguments Buffer : clear implicits.
Arguments Transition : clear implicits.

(** ** The transition store of the discrete variant: [deque(maxlen=...)] *)

Section Deque.
Context {T : Type}.

(** [collections.deque.append] on a deque created with [maxlen]: the item
    is appended on the right and, when the bound is exceeded, one item
    is dropped from the left. *)
Definition deque_append (maxlen : nat) (d : list T) (x : T) : list T :=
  let d' := d ++ [x] in
  if decide (maxlen < length d') then drop 1 d' else d'.

Definition deque_append_all (maxlen : nat) (d : list T) (xs : list T) : list T :=
  foldl (deque_append maxlen) d xs.
End Deque.

(** ** Control flow of the episode loops *)

(** Outcome of a statement inside a loop body: fall through, [break],
    an exception, or a loop without a static bound that has not finished
    within the allotted number of iterations.  Each outcome carries a state; for
    an exception it is the state in which the failing statement began. *)
Inductive ctl (St : Type) : Type :=
  | Next (s : St)
  | Break (s : St)
  | Throw (e : exn) (s : St)
  | Diverge (s : St).
Arguments Next {St} s.
Arguments Break {St} s.
Arguments Throw {St} e s.
Arguments Diverge {St} s.

Definition stmt (St : Type) : Type := St → ctl St.

Definition ctl_state {St : Type} (c : ctl St) : St :=
  match c with
  | Next s | Break s | Throw _ s | Diverge s => s
  end.

(** Statements in sequence: whatever follows a [break] or an exception
    is not executed. *)
Fixpoint block {St : Type} (body : list (stmt St)) : stmt St :=
  fun s =>
    match body with
    | [] => Next s
    | c :: rest =>
        match c s with
        | Next s' => block rest s'
        | other => other
        end
    end.

(** [if cond: body] *)
Definition if_then {St : Type} (cond : St → bool) (body : stmt St) : stmt St :=
  fun s => if cond s then body s else Next s.

(** [break] *)
Definition break_stmt {St : Type} : stmt St := fun s => Break s.

(** A statement that updates the state and cannot fail. *)
Definition exec {St : Type} (f : St → St) : stmt St := fun s => Next (f s).

(** A statement that may raise. *)
Definition try {St : Type} (f : St → res St) : stmt St :=
  fun s => match f s with Ok s' => Next s' | Raise e => Throw e s end.

(** A statement that may raise, or contain a loop that is still running
    when its budget is used up. *)
Definition attempt {St : Type} (f : St → run St) : stmt St :=
  fun s =>
    match f s with
    | Done s' => Next s'
    | Failed e => Throw e s
    | Unfinished => Diverge s
    end.

(** [for t in range(start, start + n): body t] *)
Fixpoint for_range {St : Type} (start n : nat) (body : nat → stmt St) : stmt St :=
  fun s =>
    match n with
    | 0 => Next s
    | S n' =>
        match body start s with
        | Next s' => for_range (S start) n' body s'
        | Break s' => Next s'
        | other => other
        end
    end.

(** [while True: body], run for at most [fuel] iterations. *)
Fixpoint while_true {St : Type} (fuel : nat) (body : stmt St) : stmt St :=
  fun s =>
    match fuel with
    | 0 => Diverge s
    | S fuel' =>
        match body s with
        | Next s' => while_true fuel' body s'
        | Break s' => Next s'
        | other => other
        end
    end.

(** A statement preserves [P] when [P] holds in the state it ends in,
    however it ends. *)
Definition preserves {St : Type} (P : St → Prop) (c : stmt St) : Prop :=
  ∀ s, P s → P (ctl_state (c s)).

(** ** [random.sample] of the Python standard library *)

(** [setsize]: [21], plus [4 ** _ceil(_log(k * 3, 4))] when [k > 5];
    the exponent is the least [e] with [k * 3 <= 4 ** e]. *)
Definition ceil_log4 (x : nat) : nat := (Nat.log2_up x + 1) / 2.

Definition setsize (k : nat) : nat :=
  if decide (5 < k) then 21 + 4 ^ ceil_log4 (k * 3) else 21.

Section RandomSample.
(** The generator: [randbelow n g] is the value [_randbelow(n)] returns
    and the generator afterwards; a source of draws that is used up
    returns nothing. *)
Context {G : Type} (randbelow : nat → G → option (nat * G)).
Context {T : Type}.

(** The loop of the branch [n <= setsize], from iteration [i] on, with
    [m = n - i]:
    [j = randbelow(n - i); result[i] = pool[j]; pool[j] = pool[n - i - 1]]. *)
Fixpoint sample_pool (k m : nat) (pool : list T) (g : G) : run (list T * G) :=
  match k with
  | 0 => Done ([], g)
  | S k' =>
      '(j, g1) ← of_option (randbelow m g);
      x ← of_res (get_row pool j);
      moved ← of_res (get_row pool (m - 1));
      pool' ← of_res (set_row pool j moved);
      '(result, g2) ← sample_pool k' (m - 1) pool' g1;
      Done (x :: result, g2)
  end.

(** [j = randbelow(n)] followed by [while j in selected: j = randbelow(n)],
    cut off after [fuel] draws. *)
Fixpoint draw_unselected (fuel n : nat) (selected : list nat) (g : G)
  : run (nat * G) :=
  match fuel with
  | 0 => Unfinished
  | S fuel' =>
      '(j, g1) ← of_option (randbelow n g);
      if decide (j ∈ selected) then draw_unselected fuel' n selected g1
      else Done (j, g1)
  end.

(** The loop of the other branch:
    [selected_add(j); result[i] = population[j]] for each [j] drawn. *)
Fixpoint sample_set (fuel k n : nat) (selected : list nat)
    (population : list T) (g : G) : run (list T * G) :=
  match k with
  | 0 => Done ([], g)
  | S k' =>
      '(j, g1) ← draw_unselected fuel n selected g;
      x ← of_res (get_row population j);
      '(result, g2) ← sample_set fuel k' n (j :: selected) population g1;
      Done (x :: result, g2)
  end.

(** [random.sample(population, k)] *)
Definition sample (fuel : nat) (population : list T) (k : nat) (g : G)
  : run (list T * G) :=
  let n := length population in
  if decide (n < k) then Failed ValueError
  else if decide (n ≤ setsize k) then sample_pool k n population g
  else sample_set fuel k n [] population g.
End RandomSample.

(** The redraw loops of a generator end: from any of its states, while
    fewer than [n] positions are selected, [while j in selected] reaches
    a draw below [n] that is not selected. *)
Definition redraws_end {G : Type} (randbelow : nat → G → option (nat * G))
  : Prop :=
  ∀ (n : nat) (selected : list nat) (g : G),
    length selected < n →
    ∃ fuel j g', draw_unselected randbelow fuel n selected g = Done (j, g').

(** ** Equally likely runs of the generator *)

(** A generator that returns a given list of draws, one after the other;
    a draw outside the range asked for is not a draw of [_randbelow]. *)
Definition next_draw (n : nat) (ds : list nat) : option (nat * list nat) :=
  match ds with
  | [] => None
  | d :: rest => if decide (d < n) then Some (d, rest) else None
  end.

(** All lists of draws in which draw [i] is below [bounds !! i]: with a
    uniform generator and independent draws they are equally likely. *)
Fixpoint all_draws (bounds : list nat) : list (list nat) :=
  match bounds with
  | [] => [[]]
  | b :: rest => d ← seq 0 b; (fun ds => d :: ds) <$> all_draws rest
  end.

(** The number of those lists on which [f] gives [v]. *)
Definition count_draws (bounds : list nat) (f : list nat → option (list nat))
    (v : list nat) : nat :=
  length (filter (fun ds => f ds = Some v) (all_draws bounds)).

(** The positions [random.sample] selects from a population of [n]
    items when the generator returns the draws [ds]. *)
Definition sample_positions (fuel n k : nat) (ds : list nat) : option (list nat) :=
  match sample next_draw fuel (seq 0 n) k ds with
  | Done (ps, _) => Some ps
  | _ => None
  end.

(** The bounds of the draws of the pool branch: [n - i] for [i < k]. *)
Definition pool_bounds (n k : nat) : list nat := (fun i => n - i) <$> seq 0 k.

(** [k] pairwise distinct positions below [n], in some order. *)
Definition arrangement (n k : nat) (ps : list nat) : Prop :=
  length ps = k ∧ NoDup ps ∧ Forall (fun p => p < n) ps.

(** The transposition of [a] and [b]. *)
Definition swap_values (a b x : nat) : nat :=
  if decide (x = a) then b else if decide (x = b) then a else x.

(** ** The continuous variant: exploration noise, policy, learning step *)

Section Continuous.
Context {num : Type} `{NumOps num}.

(** *** class [OUActionNoise] *)

Record OUActionNoise : Type := mkOU {
  theta : num;
  mean : list num;
  std_dev : list num;
  dt : num;
  x_initial : option (list num);
  x_prev : list num
}.

Definition set_x_prev (self : OUActionNoise) (x : list num) : OUActionNoise :=
  {| theta := theta self; mean := mean self; std_dev := std_dev self;
     dt := dt self; x_initial := x_initial self; x_prev := x |}.

(** [OUActionNoise.reset] *)
Definition OU_reset (self : OUActionNoise) : OUActionNoise :=
  match x_initial self with
  | Some x0 => set_x_prev self x0
  | None => set_x_prev self (zeros_like (mean self))
  end.

(** [OUActionNoise.__init__]; [x_prev] does not exist before [reset]. *)
Definition OU_init (mean_ std_deviation : list num) (theta_ dt_ : num)
    (x_initial_ : option (list num)) : OUActionNoise :=
  OU_reset {| theta := theta_; mean := mean_; std_dev := std_deviation;
              dt := dt_; x_initial := x_initial_; x_prev := [] |}.

(** The expression of [OUActionNoise.__call__] for the normal draw [z]:
    [x_prev + theta * (mean - x_prev) * dt + std_dev * sqrt(dt) * z]. *)
Definition OU_next (self : OUActionNoise) (z : list num) : res (list num) :=
  d ← vv nsub (mean self) (x_prev self);
  a ← vv nadd (x_prev self) (map (fun e => theta self ⊗ e ⊗ dt self) d);
  b ← vv nmul (map (fun s => s ⊗ nsqrt (dt self)) (std_dev self)) z;
  vv nadd a b.

(** [OUActionNoise.__call__], given the draw of
    [np.random.normal(size=self.mean.shape)]. *)
Definition OU_call (self : OUActionNoise) (z : list num)
  : res (list num * OUActionNoise) :=
  x ← OU_next self z;
  Ok (x, set_x_prev self x).

(** *** [update_target] *)

(** [original_weights[i] * tau + target_weights[i] * (1 - tau)] *)
Definition polyak (tau : num) (o t : num) : num :=
  (o ⊗ tau) ⊕ (t ⊗ (n1 ⊖ tau)).

(** One iteration of the loop over [i]. *)
Definition update_target_at (original_weights : list (list num)) (tau : num)
    (target_weights : list (list num)) (i : nat) : res (list (list num)) :=
  o ← get_row original_weights i;
  t ← get_row target_weights i;
  w ← vv nadd (map (fun x => x ⊗ tau) o) (map (fun x => x ⊗ (n1 ⊖ tau)) t);
  set_row target_weights i w.

Fixpoint update_target_loop (original_weights : list (list num)) (tau : num)
    (target_weights : list (list num)) (idxs : list nat) : res (list (list num)) :=
  match idxs with
  | [] => Ok target_weights
  | i :: rest =>
      tw ← update_target_at original_weights tau target_weights i;
      update_target_loop original_weights tau tw rest
  end.

(** [model.set_weights]: every array must have the shape of the
    model's own. *)
Definition set_weights (model new_weights : list (list num)) : res (list (list num)) :=
  if decide (map length new_weights = map length model)
  then Ok new_weights else Raise ValueError.

(** [update_target(target, original, tau)]; networks are identified
    with their lists of weight arrays. *)
Definition update_target (target original : list (list num)) (tau : num)
  : res (list (list num)) :=
  tw ← update_target_loop original tau target (seq 0 (length target));
  set_weights target tw.

(** Two networks of the same architecture: their weight arrays agree
    in number and shape. *)
Definition same_shapes (original target : list (list num)) : Prop :=
  Forall2 (fun o t => length o = length t) original target.

(** [n] training steps' worth of [update_target] against live
    parameters that stay fixed. *)
Fixpoint update_target_iter (n : nat) (target original : list (list num))
    (tau : num) : res (list (list num)) :=
  match n with
  | 0 => Ok target
  | S n' =>
      tw ← update_target target original tau;
      update_target_iter n' tw original tau
  end.

(** Component [j] of the [i]-th weight array. *)
Definition weight_at (ws : list (list num)) (i j : nat) : option num :=
  a ← ws !! i; a !! j.

(** *** Function approximators *)

(** The actor and critic are feed-forward stacks that act row by row;
    the actor ends in [Dense(1)].  Gradient steps are opaque. *)
Class ActorCritic (Opt : Type) : Type := {
  (** [actor(state)] for one row of the batch *)
  actor_fwd : list (list num) → list num → num;
  (** [critic([state, action])] for one row of the batch *)
  critic_fwd : list (list num) → list num → list num → num;
  (** [critic_optimizer.apply_gradients] on the loss
      [mean(square(y - critic([state_batch, action_batch])))] *)
  critic_step : Opt → list (list num) → list (list num) → list (list num)
                → list num → Opt * list (list num);
  (** [actor_optimizer.apply_gradients] on the loss
      [-mean(critic([state_batch, actor(state_batch)]))] *)
  actor_step : Opt → list (list num) → list (list num) → list (list num)
               → Opt * list (list num)
}.

Context {Opt : Type} `{ActorCritic Opt}.

Record Models : Type := mkModels {
  actor_model : list (list num);
  critic_model : list (list num);
  target_actor : list (list num);
  target_critic : list (list num);
  critic_optimizer : Opt;
  actor_optimizer : Opt
}.

(** The tensor [y] of [Buffer.update]. *)
Definition bootstrap_y (gamma : num) (m : Models)
    (reward_batch : list num) (next_state_batch : list (list num)) : list num :=
  let target_actions :=
    map (fun s => [actor_fwd (target_actor m) s]) next_state_batch in
  zip_with nadd reward_batch
    (map (nmul gamma)
       (zip_with (critic_fwd (target_critic m)) next_state_batch target_actions)).

(** [Buffer.update] *)
Definition update (gamma : num) (m : Models)
    (state_batch action_batch : list (list num)) (reward_batch : list num)
    (next_state_batch : list (list num)) : Models :=
  let y := bootstrap_y gamma m reward_batch next_state_batch in
  let '(copt, cw) :=
    critic_step (critic_optimizer m) (critic_model m) state_batch action_batch y in
  let '(aopt, aw) :=
    actor_step (actor_optimizer m) (actor_model m) cw state_batch in
  {| actor_model := aw; critic_model := cw;
     target_actor := target_actor m; target_critic := target_critic m;
     critic_optimizer := copt; actor_optimizer := aopt |}.

(** *** The simulator and the random number generator *)

Class World (W : Type) : Type := {
  (** [env.reset()] *)
  env_reset : W → list num * W;
  (** [env.step(action)]: observation, reward, [done], [truncated] *)
  env_step : W → list num → (list num * num * bool * bool) * W;
  (** one standard-normal variate *)
  random_normal : W → num * W;
  (** one bounded integer variate, before reduction to its range *)
  random_below : W → nat → nat * W
}.

Context {W : Type} `{World W}.

(** [np.random.normal(size=(n,))] *)
Fixpoint np_random_normal (n : nat) (w : W) : list num * W :=
  match n with
  | 0 => ([], w)
  | S n' =>
      let '(z, w1) := random_normal w in
      let '(zs, w2) := np_random_normal n' w1 in
      (z :: zs, w2)
  end.

(** The index array [np.random.choice(a, size)] builds from the raw
    draws [raws]: one independent draw per index. *)
Definition choice_of_draws (a : nat) (raws : list nat) : list nat :=
  map (fun r => r mod a) raws.

Fixpoint raw_draws (a size : nat) (w : W) : list nat * W :=
  match size with
  | 0 => ([], w)
  | S size' =>
      let '(r, w1) := random_below w a in
      let '(rs, w2) := raw_draws a size' w1 in
      (r :: rs, w2)
  end.

(** [np.random.choice(a, size)] for an integer [a]: an empty range is
    refused unless no sample is asked for. *)
Definition np_random_choice (a size : nat) (w : W) : res (list nat * W) :=
  if decide (a = 0 ∧ size ≠ 0) then Raise ValueError
  else let '(raws, w') := raw_draws a size w in
       Ok (choice_of_draws a raws, w').

(** *** [policy] *)

(** The action is returned as the clipped array [legal_action]; the
    notebook wraps it as [[np.squeeze(legal_action)]]. *)

Definition policy (actor : list (list num)) (lower_bound upper_bound : num)
    (state : list num) (noise_object : OUActionNoise) (w : W)
  : res (list num * OUActionNoise * W) :=
  let sampled_actions := actor_fwd actor state in
  let '(z, w') := np_random_normal (length (mean noise_object)) w in
  '(noise, noise_object') ← OU_call noise_object z;
  let sampled_actions := map (nadd sampled_actions) noise in
  let legal_action := map (fun x => clip x lower_bound upper_bound) sampled_actions in
  Ok (legal_action, noise_object', w').

(** *** [Buffer.learn] *)

Definition learn (gamma : num) (self : Buffer (list num) (list num) num)
    (m : Models) (w : W) : res (Models * W) :=
  let record_range := Nat.min (buffer_counter self) (buffer_capacity self) in
  '(batch_indices, w') ← np_random_choice record_range (batch_size self) w;
  '(state_batch, action_batch, reward_batch, next_state_batch) ←
    learn_batch self batch_indices;
  let reward_batch := map cast32 reward_batch in
  Ok (update gamma m state_batch action_batch reward_batch next_state_batch, w').

(** *** [Buffer.record] on the arrays of the notebook *)

(** The row numpy stores for [arr[index] = value] when the rows of [arr]
    have [width] components: [value] itself when it has that many, a
    one-component [value] stretched to the row, and [ValueError] for any
    other shape. *)
Definition broadcast_to (width : nat) (value : list num) : res (list num) :=
  if decide (length value = width) then Ok value
  else match value with
       | [x] => Ok (replicate width x)
       | _ => Raise ValueError
       end.

(** [arr[index] = value] on a two-dimensional array. *)
Definition assign_row (arr : list (list num)) (index : nat) (value : list num)
  : res (list (list num)) :=
  old ← get_row arr index;
  row ← broadcast_to (length old) value;
  set_row arr index row.

(** [Buffer.record] on the arrays [np.zeros((buffer_capacity, num_states))],
    [np.zeros((buffer_capacity, num_actions))] and
    [np.zeros((buffer_capacity, 1))]: the assignments of [record], each
    with the shape check of numpy.  The reward is a scalar, which fits
    its one-component row. *)
Definition record_rows (self : Buffer (list num) (list num) num)
    (obs_tuple : Transition (list num) (list num) num)
  : res (Buffer (list num) (list num) num) :=
  let '(o0, o1, o2, o3) := obs_tuple in
  index ← py_mod (buffer_counter self) (buffer_capacity self);
  sb ← assign_row (state_buffer self) index o0;
  ab ← assign_row (action_buffer self) index o1;
  rb ← set_row (reward_buffer self) index o2;
  nb ← assign_row (next_state_buffer self) index o3;
  Ok {| buffer_capacity := buffer_capacity self;
        batch_size := batch_size self;
        buffer_counter := buffer_counter self + 1;
        state_buffer := sb;
        action_buffer := ab;
        reward_buffer := rb;
        next_state_buffer := nb |}.

(** *** The training loop *)

Record Config : Type := mkConfig {
  lower_bound : num;
  upper_bound : num;
  gamma : num;
  tau : num;
  total_episodes : nat
}.

Record Trainer : Type := mkTrainer {
  world : W;
  ou_noise : OUActionNoise;
  buffer : Buffer (list num) (list num) num;
  models : Models;
  ep_reward_list : list num;
  avg_reward_list : list num;
  stdout : list (nat * num);
  prev_state : list num;
  episodic_reward : num
}.

(** [prev_state, _ = env.reset()] and [episodic_reward = 0] *)
Definition episode_reset (st : Trainer) : Trainer :=
  let '(obs, w') := env_reset (world st) in
  {| world := w'; ou_noise := ou_noise st; buffer := buffer st;
     models := models st; ep_reward_list := ep_reward_list st;
     avg_reward_list := avg_reward_list st; stdout := stdout st;
     prev_state := obs; episodic_reward := n0 |}.

(** The body of [while True] from [buffer.record] on, for the outcome
    [(state, reward, done, truncated)] of [env.step(action)].  The
    result carries the [break] flag. *)
Definition after_step (cfg : Config) (st : Trainer) (action : list num)
    (noise' : OUActionNoise) (state : list num) (reward : num)
    (done truncated : bool) (w : W) : res (Trainer * bool) :=
  buffer' ← record_rows (buffer st) (prev_state st, action, reward, state);
  let episodic_reward' := episodic_reward st ⊕ reward in
  '(m1, w') ← learn (gamma cfg) buffer' (models st) w;
  ta ← update_target (target_actor m1) (actor_model m1) (tau cfg);
  tc ← update_target (target_critic m1) (critic_model m1) (tau cfg);
  let m2 := {| actor_model := actor_model m1; critic_model := critic_model m1;
               target_actor := ta; target_critic := tc;
               critic_optimizer := critic_optimizer m1;
               actor_optimizer := actor_optimizer m1 |} in
  let brk := done || truncated in
  Ok ({| world := w'; ou_noise := noise'; buffer := buffer'; models := m2;
         ep_reward_list := ep_reward_list st;
         avg_reward_list := avg_reward_list st; stdout := stdout st;
         prev_state := if brk then prev_state st else state;
         episodic_reward := episodic_reward' |}, brk).

(** One iteration of [while True]. *)
Definition episode_step_res (cfg : Config) (st : Trainer) : res (Trainer * bool) :=
  '(action, noise', w1) ←
    policy (actor_model (models st)) (lower_bound cfg) (upper_bound cfg)
           (prev_state st) (ou_noise st) (world st);
  let '(state, reward, done, truncated, w2) := env_step w1 action in
  after_step cfg st action noise' state reward done truncated w2.

(** An exception leaves the loop with the state the iteration began in. *)
Definition episode_step (cfg : Config) : stmt Trainer :=
  fun st =>
    match episode_step_res cfg st with
    | Raise e => Throw e st
    | Ok (st', true) => Break st'
    | Ok (st', false) => Next st'
    end.

(** The statements after the [while] loop. *)
Definition episode_end (ep : nat) (st : Trainer) : Trainer :=
  let ep_reward_list' := ep_reward_list st ++ [episodic_reward st] in
  let avg_reward :=
    mean_of (drop (length ep_reward_list' - 40) ep_reward_list') in
  {| world := world st; ou_noise := ou_noise st; buffer := buffer st;
     models := models st; ep_reward_list := ep_reward_list';
     avg_reward_list := avg_reward_list st ++ [avg_reward];
     stdout := stdout st ++ [(ep, avg_reward)];
     prev_state := prev_state st; episodic_reward := episodic_reward st |}.

(** The body of [for ep in range(total_episodes)]. *)
Definition episode (cfg : Config) (fuel : nat) (ep : nat) : stmt Trainer :=
  block [ exec episode_reset;
          while_true fuel (episode_step cfg);
          exec (episode_end ep) ].

Definition training_loop (cfg : Config) (fuel : nat) : stmt Trainer :=
  for_range 0 (total_episodes cfg) (episode cfg fuel).

(** The state the hyperparameter cell sets up: a fresh noise process, an
    empty [Buffer], target networks seeded with the live weights. *)
Definition Trainer_init (w : W) (noise : OUActionNoise)
    (capacity bsize : nat) (num_states num_actions : nat)
    (actor critic : list (list num)) (copt aopt : Opt) : Trainer :=
  {| world := w;
     ou_noise := noise;
     buffer := Buffer_init (replicate num_states n0) (replicate num_actions n0) n0
                 capacity bsize;
     models := {| actor_model := actor; critic_model := critic;
                  target_actor := actor; target_critic := critic;
                  critic_optimizer := copt; actor_optimizer := aopt |};
     ep_reward_list := []; avg_reward_list := []; stdout := [];
     prev_state := []; episodic_reward := n0 |}.

End Continuous.

(** ** The discrete variant: class [DQN] and its episode loop *)

Module Breakout.
Section Discrete.
Context {num : Type} `{NumOps num}.
(** Raw game screens, preprocessed states, compiled keras models and
    their weight lists. *)
Context {Frame State Model Weights : Type}.

Class QNetwork : Type := {
  (** [model.predict(state)[0]]: one Q-value per action *)
  predict : Model → State → list num;
  (** [model.fit(state, Q_values, epochs=1, verbose=0)] *)
  fit : Model → State → list num → Model;
  get_weights : Model → Weights;
  set_weights : Model → Weights → Model;
  (** [preprocess_state], which raises when the screen does not have
      the size its [reshape] asks for *)
  preprocess_state : Frame → res State
}.

Class World (W : Type) : Type := {
  (** [env.reset()] *)
  env_reset : W → Frame * W;
  (** [env.step(action)]: screen, reward, [done] *)
  env_step : W → nat → (Frame * num * bool) * W;
  (** [env.render()] *)
  env_render : W → W;
  (** [random.uniform(0, 1)] *)
  random_uniform : W → num * W;
  (** one bounded integer variate, before reduction to its range *)
  random_below : W → nat → nat * W
}.

Context `{QNetwork} {W : Type} `{World W}.

(** [(state, action, reward, next_state, done)] *)
Definition Transition : Type := State * nat * num * State * bool.

Record DQN : Type := mkDQN {
  action_size : nat;
  replay_buffer : list Transition;
  gamma : num;
  epsilon : num;
  update_rate : nat;
  main_network : Model;
  target_network : Model
}.

(** [deque(maxlen=5000)] *)
Definition replay_maxlen : nat := 5000.

(** [DQN.__init__], given the two networks [build_network] returns. *)
Definition DQN_init (action_size_ : nat) (net1 net2 : Model) : DQN :=
  {| action_size := action_size_;
     replay_buffer := [];
     gamma := ndiv (nofnat 9) (nofnat 10);
     epsilon := ndiv (nofnat 8) (nofnat 10);
     update_rate := 1000;
     main_network := net1;
     target_network := set_weights net2 (get_weights net1) |}.

Definition set_replay_buffer (self : DQN) (rb : list Transition) : DQN :=
  {| action_size := action_size self; replay_buffer := rb;
     gamma := gamma self; epsilon := epsilon self;
     update_rate := update_rate self; main_network := main_network self;
     target_network := target_network self |}.

Definition set_main_network (self : DQN) (m : Model) : DQN :=
  {| action_size := action_size self; replay_buffer := replay_buffer self;
     gamma := gamma self; epsilon := epsilon self;
     update_rate := update_rate self; main_network := m;
     target_network := target_network self |}.

Definition set_target_network (self : DQN) (m : Model) : DQN :=
  {| action_size := action_size self; replay_buffer := replay_buffer self;
     gamma := gamma self; epsilon := epsilon self;
     update_rate := update_rate self; main_network := main_network self;
     target_network := m |}.

(** [DQN.store_transistion] *)
Definition store_transistion (self : DQN) (state : State) (action : nat)
    (reward : num) (next_state : State) (done : bool) : DQN :=
  set_replay_buffer self
    (deque_append replay_maxlen (replay_buffer self)
       (state, action, reward, next_state, done)).

(** [np.random.randint(high)] *)
Definition np_random_randint (high : nat) (w : W) : res (nat * W) :=
  if decide (high = 0) then Raise ValueError
  else let '(r, w') := random_below w high in Ok (r mod high, w').

(** [DQN.epsilon_greedy] *)
Definition epsilon_greedy (self : DQN) (state : State) (w : W) : res (nat * W) :=
  let '(u, w1) := random_uniform w in
  if nltb u (epsilon self) then np_random_randint (action_size self) w1
  else
    let Q_values := predict (main_network self) state in
    a ← argmax Q_values;
    Ok (a, w1).

(** *** [random.sample] *)

(** [_randbelow(n)] of the generator of module [random]. *)
Definition randbelow (n : nat) (w : W) : option (nat * W) :=
  let '(r, w') := random_below w n in Some (r mod n, w').

(** [random.sample(population, k)] with that generator; a redraw loop is
    followed for [fuel] draws. *)
Definition random_sample {T : Type} (fuel : nat) (population : list T) (k : nat)
    (w : W) : run (list T * W) :=
  sample randbelow fuel population k w.

(** *** [DQN.train] *)

(** [target_Q] for one transition of the minibatch. *)
Definition target_Q_of (self : DQN) (reward : num) (next_state : State)
    (done : bool) : res num :=
  if negb done then
    m ← amax (predict (target_network self) next_state);
    Ok (reward ⊕ gamma self ⊗ m)
  else Ok reward.

(** The vector [Q_values] handed to [fit] for one transition. *)
Definition fit_target (self : DQN) (tr : Transition) : res (list num) :=
  let '(state, action, reward, next_state, done) := tr in
  target_Q ← target_Q_of self reward next_state done;
  let Q_values := predict (main_network self) state in
  set_row Q_values action target_Q.

(** The body of the loop over the minibatch. *)
Definition train_one (self : DQN) (tr : Transition) : res DQN :=
  Q_values ← fit_target self tr;
  Ok (set_main_network self (fit (main_network self) (tr.1.1.1.1) Q_values)).

Fixpoint train_loop (self : DQN) (minibatch : list Transition) : res DQN :=
  match minibatch with
  | [] => Ok self
  | tr :: rest => self' ← train_one self tr; train_loop self' rest
  end.

Definition train (fuel : nat) (self : DQN) (batch_size : nat) (w : W)
  : run (DQN * W) :=
  '(minibatch, w') ← random_sample fuel (replay_buffer self) batch_size w;
  self' ← of_res (train_loop self minibatch);
  Done (self', w').

(** A sequence of [store_transistion] calls. *)
Definition store_all (self : DQN) (trs : list Transition) : DQN :=
  foldl (fun d '(state, action, reward, next_state, done) =>
           store_transistion d state action reward next_state done) self trs.

(** [DQN.update_target_network] *)
Definition update_target_network (self : DQN) : DQN :=
  set_target_network self
    (set_weights (target_network self) (get_weights (main_network self))).

(** *** The training loop *)

(** The variables of the training cell. *)
Record Run : Type := mkRun {
  world : W;
  dqn : DQN;
  done : bool;
  time_step : nat;
  episode_rewards : list num;
  stdout : list (nat * num);
  Return : num;
  state : State;
  action : nat;
  next_frame : Frame;
  next_state : State;
  reward : num
}.

Definition set_world (st : Run) (x : W) : Run :=
  let '(mkRun a b c d e f g h i j k l) := st in mkRun x b c d e f g h i j k l.
Definition set_dqn (st : Run) (x : DQN) : Run :=
  let '(mkRun a b c d e f g h i j k l) := st in mkRun a x c d e f g h i j k l.
Definition set_done (st : Run) (x : bool) : Run :=
  let '(mkRun a b c d e f g h i j k l) := st in mkRun a b x d e f g h i j k l.
Definition set_time_step (st : Run) (x : nat) : Run :=
  let '(mkRun a b c d e f g h i j k l) := st in mkRun a b c x e f g h i j k l.
Definition set_episode_rewards (st : Run) (x : list num) : Run :=
  let '(mkRun a b c d e f g h i j k l) := st in mkRun a b c d x f g h i j k l.
Definition set_stdout (st : Run) (x : list (nat * num)) : Run :=
  let '(mkRun a b c d e f g h i j k l) := st in mkRun a b c d e x g h i j k l.
Definition set_Return (st : Run) (x : num) : Run :=
  let '(mkRun a b c d e f g h i j k l) := st in mkRun a b c d e f x h i j k l.
Definition set_state (st : Run) (x : State) : Run :=
  let '(mkRun a b c d e f g h i j k l) := st in mkRun a b c d e f g x i j k l.
Definition set_action (st : Run) (x : nat) : Run :=
  let '(mkRun a b c d e f g h i j k l) := st in mkRun a b c d e f g h x j k l.
Definition set_next_frame (st : Run) (x : Frame) : Run :=
  let '(mkRun a b c d e f g h i j k l) := st in mkRun a b c d e f g h i x k l.
Definition set_next_state (st : Run) (x : State) : Run :=
  let '(mkRun a b c d e f g h i j k l) := st in mkRun a b c d e f g h i j x l.
Definition set_reward (st : Run) (x : num) : Run :=
  let '(mkRun a b c d e f g h i j k l) := st in mkRun a b c d e f g h i j k x.

(** [env.render()] *)
Definition do_render : stmt Run :=
  exec (fun st => set_world st (env_render (world st))).

(** [time_step += 1] *)
Definition incr_time_step : stmt Run :=
  exec (fun st => set_time_step st (time_step st + 1)).

(** [if time_step % dqn.update_rate == 0: dqn.update_target_network()] *)
Definition sync_target : stmt Run :=
  try (fun st =>
    m ← py_mod (time_step st) (update_rate (dqn st));
    Ok (if decide (m = 0) then set_dqn st (update_target_network (dqn st)) else st)).

(** [action = dqn.epsilon_greedy(state)] *)
Definition select_action : stmt Run :=
  try (fun st =>
    '(a, w') ← epsilon_greedy (dqn st) (state st) (world st);
    Ok (set_action (set_world st w') a)).

(** [next_state, reward, done, _ = env.step(action)] *)
Definition perform_action : stmt Run :=
  exec (fun st =>
    let '(frame, r, d, w') := env_step (world st) (action st) in
    set_done (set_reward (set_next_frame (set_world st w') frame) r) d).

(** [next_state = preprocess_state(next_state)] *)
Definition preprocess_next : stmt Run :=
  try (fun st =>
    s ← preprocess_state (next_frame st);
    Ok (set_next_state st s)).

(** [dqn.store_transistion(state, action, reward, next_state, done)] *)
Definition do_store : stmt Run :=
  exec (fun st =>
    set_dqn st (store_transistion (dqn st) (state st) (action st) (reward st)
                  (next_state st) (done st))).

(** [state = next_state] *)
Definition advance_state : stmt Run :=
  exec (fun st => set_state st (next_state st)).

(** [Return += reward] *)
Definition add_reward : stmt Run :=
  exec (fun st => set_Return st (Return st ⊕ reward st)).

(** [print('Episode: ', i, ',' 'Return', Return)] *)
Definition print_return (i : nat) : stmt Run :=
  exec (fun st => set_stdout st (stdout st ++ [(i, Return st)])).

(** [episode_rewards.append(Return)] *)
Definition append_return : stmt Run :=
  exec (fun st => set_episode_rewards st (episode_rewards st ++ [Return st])).

(** [dqn.train(batch_size)] *)
Definition do_train (fuel batch_size : nat) : stmt Run :=
  attempt (fun st =>
    '(d, w') ← train fuel (dqn st) batch_size (world st);
    Done (set_dqn (set_world st w') d)).

(** The body of [for t in range(num_timesteps)], statement by statement. *)
Definition timestep (fuel batch_size : nat) (i t : nat) : stmt Run :=
  block [ do_render;
          incr_time_step;
          sync_target;
          select_action;
          perform_action;
          preprocess_next;
          do_store;
          advance_state;
          add_reward;
          if_then done
            (block [ print_return i; break_stmt; append_return ]);
          if_then (fun st => bool_decide (batch_size < length (replay_buffer (dqn st))))
            (do_train fuel batch_size) ].

(** [Return = 0] *)
Definition reset_return : stmt Run :=
  exec (fun st => set_Return st n0).

(** [state = preprocess_state(env.reset())] *)
Definition reset_state : stmt Run :=
  try (fun st =>
    let '(frame, w') := env_reset (world st) in
    s ← preprocess_state frame;
    Ok (set_state (set_world st w') s)).

(** The body of [for i in range(num_episodes)]; the redraw loop of each
    [random.sample] is followed for [fuel] draws. *)
Definition episode (fuel num_timesteps batch_size : nat) (i : nat) : stmt Run :=
  block [ reset_return;
          reset_state;
          for_range 0 num_timesteps (timestep fuel batch_size i) ].

(** The training cell after its three initialisations. *)
Definition training_loop (fuel num_episodes num_timesteps batch_size : nat)
  : stmt Run :=
  for_range 0 num_episodes (episode fuel num_timesteps batch_size).

(** [done = False], [time_step = 0], [episode_rewards = []]; the other
    variables are unbound until first assigned. *)
Definition Run_init (w : W) (agent : DQN) (state0 : State) (frame0 : Frame) : Run :=
  {| world := w; dqn := agent; done := false; time_step := 0;
     episode_rewards := []; stdout := []; Return := n0;
     state := state0; action := 0; next_frame := frame0;
     next_state := state0; reward := n0 |}.

(** No episode return has been appended. *)
Definition no_returns (st : Run) : Prop := episode_rewards st = [].

(** The constants of the notebook. *)
Definition num_episodes : nat := 500.
Definition num_timesteps : nat := 20000.
Definition batch_size : nat := 8.

End Discrete.
End Breakout.

(** ** Conditions under which the loops run without an exception *)

(** The outcome of a statement is not an exception. *)
Definition no_throw {St : Type} (c : ctl St) : Prop :=
  match c with
  | Throw _ _ => False
  | _ => True
  end.

(** From a state satisfying [P] the statement raises nothing and ends in
    a state satisfying [P]. *)
Definition safe {St : Type} (P : St → Prop) (c : stmt St) : Prop :=
  ∀ s, P s → no_throw (c s) ∧ P (ctl_state (c s)).

Section ContinuousConditions.
Context {num : Type} `{NumOps num} {Opt : Type} `{!@ActorCritic num Opt}.
Context {W : Type} `{!@World num W}.

(** Every component of an action lies between the bounds. *)
Definition in_bounds (lo hi : num) (a : list num) : Prop :=
  Forall (fun x => nleb lo x = true ∧ nleb x hi = true) a.

(** The arrays of a noise object have the shape of [mean]. *)
Definition noise_ok (n : @OUActionNoise num) : Prop :=
  length (x_prev n) = length (mean n)
  ∧ length (std_dev n) = length (mean n).

(** A sequence of [__call__]s for the normal draws [zs], stopping at the
    first exception; the samples are returned in order. *)
Fixpoint OU_calls (self : @OUActionNoise num) (zs : list (list num))
  : res (list (list num) * @OUActionNoise num) :=
  match zs with
  | [] => Ok ([], self)
  | z :: rest =>
      '(x, self1) ← OU_call self z;
      '(xs, self2) ← OU_calls self1 rest;
      Ok (x :: xs, self2)
  end.

(** Gradient steps return weights of the shapes they were given. *)
Definition steps_keep_shapes : Prop :=
  (∀ opt w sb ab y, map length (critic_step opt w sb ab y).2 = map length w)
  ∧ (∀ opt w cw sb, map length (actor_step opt w cw sb).2 = map length w).

(** The state of the trainer after the transitions [ts] were recorded:
    the buffer satisfies the ring invariant for [ts], the noise arrays
    have the shape of [mean], every recorded action is within the bounds,
    and each target network has the architecture of its live network. *)
Record trainer_ok (cfg : @Config num) (zs za : list num) (zr : num)
    (C : nat) (ts : list (Transition (list num) (list num) num))
    (st : @Trainer num Opt W) : Prop := {
  tk_capacity : 0 < C;
  tk_buffer : ring_inv zs za zr C ts (buffer st);
  tk_noise : noise_ok (ou_noise st);
  tk_actions :
    Forall (fun t : Transition (list num) (list num) num =>
              in_bounds (lower_bound cfg) (upper_bound cfg) t.1.1.2) ts;
  tk_actor : same_shapes (actor_model (models st)) (target_actor (models st));
  tk_critic : same_shapes (critic_model (models st)) (target_critic (models st))
}.

(** Some sequence of recorded transitions accounts for the state. *)
Definition trainer_inv (cfg : @Config num) (zs za : list num) (zr : num)
    (C : nat) (st : @Trainer num Opt W) : Prop :=
  ∃ ts, trainer_ok cfg zs za zr C ts st.

(** The rows of the two state arrays have [ns] components and those of
    the action array [na]. *)
Definition rows_have_width (ns na : nat) (b : Buffer (list num) (list num) num)
  : Prop :=
  Forall (fun row => length row = ns) (state_buffer b)
  ∧ Forall (fun row => length row = na) (action_buffer b)
  ∧ Forall (fun row => length row = ns) (next_state_buffer b).

(** The arrays of the trainer have the shapes the hyperparameter cell
    gives them: [num_states] and [num_actions] components per row of the
    buffer, and a noise process with one component per action. *)
Definition shapes_ok (ns na : nat) (st : @Trainer num Opt W) : Prop :=
  rows_have_width ns na (buffer st)
  ∧ length (mean (ou_noise st)) = na.

(** Well-formed, with arrays of the shapes [ns] and [na]. *)
Definition loop_inv (cfg : @Config num) (zs za : list num) (zr : num)
    (C ns na : nat) (st : @Trainer num Opt W) : Prop :=
  trainer_inv cfg zs za zr C st ∧ shapes_ok ns na st.

(** The simulator returns observations of [ns] components. *)
Definition observations_have_width (ns : nat) : Prop :=
  (∀ w : W, length (env_reset w).1 = ns)
  ∧ (∀ (w : W) (a : list num), length (env_step w a).1.1.1.1 = ns).
End ContinuousConditions.

Section DiscreteConditions.
Context {num : Type} `{NumOps num}.
Context {Frame State Model Weights W : Type}.
Context `{!@Breakout.QNetwork num Frame State Model Weights}.
Context `{!@Breakout.World num Frame W}.

(** The action stored in a transition. *)
Definition action_of (tr : @Breakout.Transition num State) : nat := tr.1.1.1.2.

(** An agent with [A >= 1] actions, discount [g], exploration rate [e]
    and a positive update rate [u], whose replay buffer respects its
    bound and holds only actions below [A]. *)
Record dqn_ok (A : nat) (g e : num) (u : nat)
    (d : @Breakout.DQN num State Model) : Prop := {
  dk_actions : Breakout.action_size d = A;
  dk_positive : 0 < A;
  dk_gamma : Breakout.gamma d = g;
  dk_epsilon : Breakout.epsilon d = e;
  dk_rate : Breakout.update_rate d = u;
  dk_rate_pos : 0 < u;
  dk_stored : Forall (fun tr => action_of tr < A) (Breakout.replay_buffer d);
  dk_bound : length (Breakout.replay_buffer d) ≤ Breakout.replay_maxlen
}.

(** The variables of the training cell: a well-formed agent and a
    current action below [A]. *)
Definition run_ok (A : nat) (g e : num) (u : nat)
    (st : @Breakout.Run num Frame State Model W) : Prop :=
  dqn_ok A g e u (Breakout.dqn st) ∧ Breakout.action st < A.

(** Every network outputs one Q-value per action. *)
Definition outputs_per_action (A : nat) : Prop :=
  ∀ (m : Model) (s : State), length (Breakout.predict m s) = A.

(** Every screen the game returns has the size [preprocess_state]
    accepts. *)
Definition screens_accepted : Prop :=
  (∀ w : W, is_Ok (Breakout.preprocess_state (Breakout.env_reset w).1))
  ∧ (∀ (w : W) (a : nat),
       is_Ok (Breakout.preprocess_state (Breakout.env_step w a).1.1.1)).

(** The statements of a time step up to [Return += reward]. *)
Definition timestep_prefix : stmt (@Breakout.Run num Frame State Model W) :=
  block [ Breakout.do_render;
          Breakout.incr_time_step;
          Breakout.sync_target;
          Breakout.select_action;
          Breakout.perform_action;
          Breakout.preprocess_next;
          Breakout.do_store;
          Breakout.advance_state;
          Breakout.add_reward ].
End DiscreteConditions.

(** ** Screen preprocessing of the discrete variant: [preprocess_state] *)

(** The indices [range(start, min(stop, n), step)] that the slice
    [start:stop:step] selects on an axis of length [n], for non-negative
    bounds and a positive step. *)
Definition slice_indices (start stop step n : nat) : list nat :=
  (fun k => start + k * step)
    <$> seq 0 ((Nat.min stop n - start + step - 1) / step).

(** [arr[start:stop:step]] on the first axis. *)
Definition py_slice {A : Type} (start stop step : nat) (arr : list A) : list A :=
  omap (fun i => arr !! i) (slice_indices start stop step (length arr)).

(** The first [k] consecutive runs of [n] elements of a flat array. *)
Fixpoint chunks {A : Type} (k n : nat) (l : list A) : list (list A) :=
  match k with
  | 0 => []
  | S k' => take n l :: chunks k' n (drop n l)
  end.

(** [arr.reshape(a, b, c)] on a two-dimensional array: the elements are
    read row by row and regrouped; numpy raises [ValueError] unless the
    array holds exactly [a * b * c] of them. *)
Definition reshape3 {A : Type} (a b c : nat) (arr : list (list A))
  : res (list (list (list A))) :=
  let flat := concat arr in
  if decide (length flat = a * b * c)
  then Ok (chunks a b (chunks (a * b) c flat))
  else Raise ValueError.

Module Screen.
(** A game screen: rows of pixels, each pixel a list of [uint8] channels. *)
Abbreviation Frame := (list (list (list nat))).

Section Preprocess.
Context {num : Type} `{NumOps num}.

(** [a == b] on floats. *)
Definition neqb (a b : num) : bool := nleb a b && nleb b a.

(** [color = np.array([210, 164, 74]).mean()] *)
Definition color : num := mean_of (nofnat <$> [210; 164; 74]).

(** [state[1:176:2, ::2]] *)
Definition crop (state : Frame) : Frame :=
  map (fun row => py_slice 0 (length row) 2 row) (py_slice 1 176 2 state).

(** One pixel of [image.mean(axis=2)]. *)
Definition grey (px : list nat) : num := mean_of (nofnat <$> px).

(** One pixel of [image[image==color] = 0]. *)
Definition contrast (v : num) : num := if neqb v color then n0 else v.

(** One pixel of [(image - 128) / 128 - 1]. *)
Definition normalize (v : num) : num :=
  ndiv (v ⊖ nofnat 128) (nofnat 128) ⊖ n1.

(** [preprocess_state(state)]; the result has the four axes of
    [np.expand_dims(image.reshape(88, 80, 1), axis=0)]. *)
Definition preprocess_state (state : Frame) : res (list (list (list (list num)))) :=
  let image := crop state in
  let image := map (map grey) image in
  let image := map (map contrast) image in
  let image := map (map normalize) image in
  image ← reshape3 88 80 1 image;
  Ok [image].

(** A screen of [h] rows, [w] columns and [c] channels. *)
Definition frame_shape (h w c : nat) (state : Frame) : Prop :=
  length state = h
  ∧ Forall (fun row => length row = w ∧ Forall (fun px => length px = c) row) state.

(** Every channel of every pixel is a [uint8] value. *)
Definition frame_uint8 (state : Frame) : Prop :=
  Forall (Forall (Forall (fun v => v ≤ 255))) state.
End Preprocess.
End Screen.

(** ** The actor network of the continuous variant: [get_actor] *)

Module Actor.
(** The [relu] activation. *)
Definition relu (x : R) : R := Rmax 0 x.

(** A keras [Dense] layer applied to one input vector: the activation of
    [x · kernel + bias], the kernel holding one row per input. *)
Definition dense (activation : R → R) (kernel : list (list R)) (bias x : list R)
  : list R :=
  activation
    <$> foldl (fun acc xr => zip_with Rplus acc (Rmult xr.1 <$> xr.2))
          bias (zip x kernel).

(** Kernels and biases of the three layers. *)
Record Weights : Type := mkWeights {
  kernel1 : list (list R); bias1 : list R;
  kernel2 : list (list R); bias2 : list R;
  kernel3 : list (list R); bias3 : list R
}.

(** The model [get_actor()] builds, applied to one state. *)
Definition get_actor (upper_bound : R) (w : Weights) (inputs : list R) : list R :=
  let out := dense relu (kernel1 w) (bias1 w) inputs in
  let out := dense relu (kernel2 w) (bias2 w) out in
  let outputs := dense tanh (kernel3 w) (bias3 w) out in
  (fun o => o * upper_bound)%R <$> outputs.
End Actor.

(** ** Concrete instances for the examples *)

(** Integer arithmetic as a [NumOps] carrier. *)
#[global] Instance Z_NumOps : NumOps Z := {|
  n0 := 0%Z; n1 := 1%Z;
  nadd := Z.add; nsub := Z.sub; nmul := Z.mul; ndiv := Z.div;
  nsqrt := Z.sqrt; nleb := Z.leb; nltb := Z.ltb;
  cast32 := fun x => x; nofnat := Z.of_nat
|}.

(** The real numbers as a [NumOps] carrier: arithmetic without rounding. *)
#[global] Instance R_NumOps : NumOps R := {|
  n0 := 0%R; n1 := 1%R;
  nadd := Rplus; nsub := Rminus; nmul := Rmult; ndiv := Rdiv;
  nsqrt := sqrt;
  nleb := fun a b => if Rle_dec a b then true else false;
  nltb := fun a b => if Rlt_dec a b then true else false;
  cast32 := fun x => x; nofnat := INR
|}.

Module Toy.
(** Networks with a single weight: the actor outputs it, the critic
    adds it to the first action component; gradient steps are ignored. *)
Definition first_weight (ws : list (list Z)) : Z := hd 0%Z (hd [] ws).

#[global] Instance toy_nets : @ActorCritic Z unit := {|
  actor_fwd := fun ws _ => first_weight ws;
  critic_fwd := fun ws _ a => (first_weight ws + hd 0 a)%Z;
  critic_step := fun opt w _ _ _ => (opt, w);
  actor_step := fun opt w _ _ => (opt, w)
|}.

(** A simulator that truncates every episode after one step, with
    scripted normal variates ([1] once the script is used up) and
    scripted integer draws ([0] afterwards). *)
Record world : Type := mkWorld {
  normals : list Z;
  raws : list nat
}.

#[global] Instance toy_world : @World Z world := {|
  env_reset := fun w => ([0; 0; 0]%Z, w);
  env_step := fun w _ => (([0; 0; 0]%Z, 0%Z, false, true), w);
  random_normal := fun w =>
    match normals w with
    | [] => (1%Z, w)
    | z :: zs => (z, {| normals := zs; raws := raws w |})
    end;
  random_below := fun w _ =>
    match raws w with
    | [] => (0, w)
    | r :: rs => (r, {| normals := normals w; raws := rs |})
    end
|}.

(** Hyperparameters and the initial state of a two-episode run: one
    action dimension, a four-slot buffer, batches of two. *)
Definition cfg : @Config Z :=
  {| lower_bound := (-2)%Z; upper_bound := 2%Z; gamma := 1%Z; tau := 0%Z;
     total_episodes := 2 |}.

Definition st0 : @Trainer Z unit world :=
  Trainer_init (mkWorld [] []) (OU_init [0%Z] [1%Z] 0%Z 1%Z None)
    4 2 3 1 [[5%Z]] [[7%Z]] tt tt.

(** A Q-network over two actions whose model is its output row. *)
#[global] Instance toy_qnet : @Breakout.QNetwork Z unit unit (list Z) (list Z) := {|
  Breakout.predict := fun m _ => m;
  Breakout.fit := fun m _ target => target;
  Breakout.get_weights := fun m => m;
  Breakout.set_weights := fun _ w => w;
  Breakout.preprocess_state := fun f => Ok f
|}.

(** A Q-network over two actions whose model is its pair of outputs;
    fitting replaces the pair by the target. *)
Definition pair_qnet : @Breakout.QNetwork Z unit unit (Z * Z) (Z * Z) := {|
  Breakout.predict := fun m _ => [m.1; m.2];
  Breakout.fit := fun m _ target =>
    match target with
    | [a; b] => (a, b)
    | _ => m
    end;
  Breakout.get_weights := fun m => m;
  Breakout.set_weights := fun _ w => w;
  Breakout.preprocess_state := fun f => Ok f
|}.

(** The agent [DQN.__init__] builds from two such networks. *)
Definition pair_agent : @Breakout.DQN Z unit (Z * Z) :=
  @Breakout.DQN_init Z Z_NumOps unit unit (Z * Z) (Z * Z) pair_qnet 2
    (10%Z, 20%Z) (30%Z, 40%Z).

(** A game that ends every episode at its first step with reward [1]. *)
#[global] Instance toy_game : @Breakout.World Z unit (list nat) := {|
  Breakout.env_reset := fun w => (tt, w);
  Breakout.env_step := fun w _ => ((tt, 1%Z, true), w);
  Breakout.env_render := fun w => w;
  Breakout.random_uniform := fun w => (0%Z, w);
  Breakout.random_below := fun w _ =>
    match w with
    | [] => (0, w)
    | r :: rs => (r, rs)
    end
|}.

(** A game whose generator counts: its draws below [n] run through
    [0, n) again and again. *)
Definition counter_game : @Breakout.World Z unit nat := {|
  Breakout.env_reset := fun w => (tt, w);
  Breakout.env_step := fun w _ => ((tt, 1%Z, true), w);
  Breakout.env_render := fun w => w;
  Breakout.random_uniform := fun w => (0%Z, w);
  Breakout.random_below := fun w _ => (w, S w)
|}.

(** A game that never ends, with reward [1] at every step. *)
Definition endless_game : @Breakout.World Z unit (list nat) := {|
  Breakout.env_reset := fun w => (tt, w);
  Breakout.env_step := fun w _ => ((tt, 1%Z, false), w);
  Breakout.env_render := fun w => w;
  Breakout.random_uniform := fun w => (0%Z, w);
  Breakout.random_below := fun w _ =>
    match w with
    | [] => (0, w)
    | r :: rs => (r, rs)
    end
|}.
End Toy.

(** * Properties *)

(** ** Python runtime *)

Lemma set_row_Ok {A : Type} (arr : list A) (i : nat) (x : A) :
  i < length arr → set_row arr i x = Ok (<[i:=x]> arr).
Proof. intros Hi. unfold set_row. by rewrite decide_True. Qed.

Lemma py_mod_Ok (a b : nat) : 0 < b → py_mod a b = Ok (a mod b).
Proof. intros Hb. unfold py_mod. rewrite decide_False; [done | lia]. Qed.

Lemma mod_window_ne (C i k : nat) :
  0 < C → i < k → k < i + C → i mod C ≠ k mod C.
Proof.
  intros HC Hik Hk Heq.
  pose proof (Nat.div_mod_eq i C) as Hi.
  pose proof (Nat.div_mod_eq k C) as Hk'.
  pose proof (Nat.mod_upper_bound i C ltac:(lia)).
  assert (k - i = C * (k `div` C - i `div` C)) as Hd by nia.
  destruct (decide (k `div` C - i `div` C = 0)) as [Hz|Hz]; nia.
Qed.

(** ** The ring buffer *)

Section BufferFacts.
Context {State Action Reward : Type}.
Variable zero_state : State.
Variable zero_action : Action.
Variable zero_reward : Reward.

Abbreviation Tr := (Transition State Action Reward).
Abbreviation Buf := (Buffer State Action Reward).

Lemma ring_inv_init (C bs : nat) :
  ring_inv zero_state zero_action zero_reward C []
    (Buffer_init zero_state zero_action zero_reward C bs).
Proof.
  split; simpl; rewrite ?length_replicate; try done.
  - intros i Hi. lia.
  - intros j _ Hj. unfold slot; simpl.
    by rewrite !lookup_replicate_2.
Qed.

(** One [record] call writes the transition in slot
    [buffer_counter mod C] and touches nothing else. *)
Lemma record_spec (C : nat) (ts : list Tr) (b : Buf) (t : Tr) :
  0 < C →
  ring_inv zero_state zero_action zero_reward C ts b →
  ∃ b', record b t = Ok b'
        ∧ buffer_counter b' = S (length ts)
        ∧ slot b' (length ts mod C) = Some t
        ∧ (∀ j, j ≠ length ts mod C → slot b' j = slot b j)
        ∧ ring_inv zero_state zero_action zero_reward C (ts ++ [t]) b'.
Proof.
  intros HC [Hcap Hcnt Hs Ha Hr Hn Hrec Hfresh].
  destruct t as [[[o0 o1] o2] o3].
  pose proof (Nat.mod_upper_bound (length ts) C ltac:(lia)) as Hidx.
  assert (Hslot_eq : ∀ b' : Buf,
    state_buffer b' = <[length ts mod C:=o0]> (state_buffer b) →
    action_buffer b' = <[length ts mod C:=o1]> (action_buffer b) →
    reward_buffer b' = <[length ts mod C:=o2]> (reward_buffer b) →
    next_state_buffer b' = <[length ts mod C:=o3]> (next_state_buffer b) →
    slot b' (length ts mod C) = Some (o0, o1, o2, o3)
    ∧ ∀ j, j ≠ length ts mod C → slot b' j = slot b j).
  { intros b' E1 E2 E3 E4. unfold slot. rewrite E1, E2, E3, E4. split.
    - by rewrite !list_lookup_insert_eq by lia.
    - intros j Hj. by rewrite !list_lookup_insert_ne by done. }
  unfold record. rewrite Hcap, Hcnt, py_mod_Ok by done.
  cbn [mbind res_bind]. rewrite set_row_Ok by lia.
  cbn [mbind res_bind]. rewrite set_row_Ok by lia.
  cbn [mbind res_bind]. rewrite set_row_Ok by lia.
  cbn [mbind res_bind]. rewrite set_row_Ok by lia.
  cbn [mbind res_bind].
  eexists. split; [reflexivity|].
  match goal with |- context [slot ?b' _] =>
    destruct (Hslot_eq b') as [Hhit Hmiss]; [reflexivity..|] end.
  split; [simpl; lia|]. split; [exact Hhit|]. split; [exact Hmiss|].
  split; simpl; rewrite ?length_insert, ?length_app; simpl; try lia.
  - intros i Hi Hwin.
    destruct (decide (i = length ts)) as [->|Hne].
    + rewrite Hhit. by rewrite lookup_app_r, Nat.sub_diag by lia.
    + rewrite Hmiss by (apply mod_window_ne; lia).
      rewrite lookup_app_l by lia. apply Hrec; lia.
  - intros j Hj HjC.
    rewrite Hmiss; [apply Hfresh; lia|].
    rewrite Nat.mod_small by lia. lia.
Qed.

Lemma record_all_spec (C : nat) (ts0 ts : list Tr) (b : Buf) :
  0 < C →
  ring_inv zero_state zero_action zero_reward C ts0 b →
  ∃ b', record_all b ts = Ok b'
        ∧ ring_inv zero_state zero_action zero_reward C (ts0 ++ ts) b'.
Proof.
  intros HC. revert ts0 b.
  induction ts as [|t ts IH]; intros ts0 b Hinv; simpl.
  - exists b. by rewrite app_nil_r.
  - destruct (record_spec C ts0 b t HC Hinv) as (b1 & -> & _ & _ & _ & Hinv1).
    simpl. destruct (IH _ _ Hinv1) as (b' & Hb' & Hinv').
    exists b'. split; [done|]. by rewrite <- app_assoc in Hinv'.
Qed.

(** The slot of insertion index [i] holds the most recent transition
    whose insertion index is congruent to [i] modulo [C]. *)
Lemma ring_inv_latest (C : nat) (ts : list Tr) (b : Buf) (i : nat) :
  0 < C →
  ring_inv zero_state zero_action zero_reward C ts b →
  i < length ts →
  ∃ i', i ≤ i' < length ts
        ∧ i' mod C = i mod C
        ∧ (∀ j, i' < j < length ts → j mod C ≠ i mod C)
        ∧ slot b (i mod C) = ts !! i'.
Proof.
  intros HC Hinv Hi.
  set (k := length ts) in *.
  set (q := (k - 1 - i) `div` C).
  pose proof (Nat.div_mod_eq (k - 1 - i) C) as Hdm.
  pose proof (Nat.mod_upper_bound (k - 1 - i) C ltac:(lia)) as Hub.
  fold q in Hdm.
  assert (Hmod : (i + q * C) mod C = i mod C) by apply Nat.Div0.mod_add.
  exists (i + q * C). split; [nia|]. split; [done|]. split.
  - intros j Hj. rewrite <- Hmod. apply not_eq_sym, mod_window_ne; nia.
  - rewrite <- Hmod. apply (ri_recent _ _ _ _ _ _ Hinv); nia.
Qed.
End BufferFacts.

(** With capacity zero the modulus of [record] has no value. *)
Lemma record_capacity_zero {State Action Reward : Type}
    (zs : State) (za : Action) (zr : Reward) (bs : nat)
    (t : Transition State Action Reward) :
  record (Buffer_init zs za zr 0 bs) t = Raise ZeroDivisionError.
Proof. by destruct t as [[[? ?] ?] ?]. Qed.

(** ** The bounded deque *)

Section DequeFacts.
Context {T : Type}.

Lemma deque_append_all_snoc (maxlen : nat) (d xs : list T) (x : T) :
  deque_append_all maxlen d (xs ++ [x])
  = deque_append maxlen (deque_append_all maxlen d xs) x.
Proof. unfold deque_append_all. by rewrite foldl_app. Qed.

(** After any number of appends the deque holds the most recent
    [maxlen] items, oldest first. *)
Lemma deque_append_all_drop (maxlen : nat) (xs : list T) :
  deque_append_all maxlen [] xs = drop (length xs - maxlen) xs.
Proof.
  induction xs as [|x xs IH] using rev_ind; [done|].
  rewrite deque_append_all_snoc, IH. unfold deque_append.
  rewrite !length_app, length_drop. simpl.
  rewrite <- drop_app_le by lia.
  case_decide.
  - rewrite drop_drop. f_equal. lia.
  - f_equal. lia.
Qed.

Lemma deque_append_all_length (maxlen : nat) (xs : list T) :
  length (deque_append_all maxlen [] xs) = Nat.min (length xs) maxlen.
Proof. rewrite deque_append_all_drop, length_drop. lia. Qed.

(** Position [p] of the deque holds the item of insertion index
    [length xs - min (length xs) maxlen + p]. *)
Lemma deque_append_all_lookup (maxlen : nat) (xs : list T) (p : nat) :
  deque_append_all maxlen [] xs !! p = xs !! (length xs - maxlen + p).
Proof. by rewrite deque_append_all_drop, lookup_drop. Qed.
End DequeFacts.

(** [store_transistion] appends to the bounded deque. *)
Lemma store_all_replay_buffer {num State Model : Type}
    (self : @Breakout.DQN num State Model)
    (trs : list (@Breakout.Transition num State)) :
  Breakout.replay_buffer (Breakout.store_all self trs)
  = deque_append_all Breakout.replay_maxlen (Breakout.replay_buffer self) trs.
Proof.
  unfold Breakout.store_all, deque_append_all. revert self.
  induction trs as [|[[[[st a] r] ns] d] trs IH]; intros self; [done|].
  simpl. by rewrite IH.
Qed.

(** ** C1: the ring invariant of both transition stores *)

(** C1.  Ring invariant of the transition store.  On a [Buffer] of
    capacity [C >= 1], every sequence [ts] of [record] calls succeeds;
    afterwards the counter is [length ts], the store reports
    [min (length ts) C] valid entries, the record of insertion index [k]
    was written at ring index [k mod C] and changed no other slot, the
    slot of any insertion index [i] holds the most recent transition
    whose insertion index is congruent to [i] modulo [C], and slots
    never written still hold the preallocated zeros.  A bounded deque
    holds the [min (length xs) maxlen] most recent items in insertion
    order, and so does the replay buffer of the discrete variant after
    any sequence of [store_transistion] calls. *)
Theorem ring_invariant {State Action Reward T : Type}
    (zs : State) (za : Action) (zr : Reward)
    (C bs : nat) (ts : list (Transition State Action Reward))
    (maxlen : nat) (xs : list T)
    {num StateB Model : Type} (self : @Breakout.DQN num StateB Model)
    (trs : list (@Breakout.Transition num StateB)) :
  0 < C →
  (∃ b, record_all (Buffer_init zs za zr C bs) ts = Ok b
        ∧ buffer_counter b = length ts
        ∧ record_range b = Nat.min (length ts) C
        ∧ (∀ k t, ts !! k = Some t →
             ∃ bk bk', record_all (Buffer_init zs za zr C bs) (take k ts) = Ok bk
                       ∧ record bk t = Ok bk'
                       ∧ slot bk' (k mod C) = Some t
                       ∧ ∀ j, j ≠ k mod C → slot bk' j = slot bk j)
        ∧ (∀ i, i < length ts →
             ∃ i', i ≤ i' < length ts
                   ∧ i' mod C = i mod C
                   ∧ (∀ j, i' < j < length ts → j mod C ≠ i mod C)
                   ∧ slot b (i mod C) = ts !! i')
        ∧ (∀ j, length ts ≤ j → j < C →
             slot b j = Some (zero_transition zs za zr)))
  ∧ deque_append_all maxlen [] xs = drop (length xs - maxlen) xs
  ∧ length (deque_append_all maxlen [] xs) = Nat.min (length xs) maxlen
  ∧ (∀ p, deque_append_all maxlen [] xs !! p = xs !! (length xs - maxlen + p))
  ∧ (Breakout.replay_buffer self = [] →
     Breakout.replay_buffer (Breakout.store_all self trs)
     = drop (length trs - Breakout.replay_maxlen) trs
     ∧ length (Breakout.replay_buffer (Breakout.store_all self trs))
       = Nat.min (length trs) Breakout.replay_maxlen).
Proof.
  intros HC. split; [|split; [|split; [|split]]].
  - destruct (record_all_spec zs za zr C [] ts _ HC (ring_inv_init zs za zr C bs))
      as (b & Hb & Hinv).
    simpl in Hinv. exists b. split; [done|].
    split; [apply (ri_counter _ _ _ _ _ _ Hinv)|].
    split.
    { unfold record_range.
      by rewrite (ri_counter _ _ _ _ _ _ Hinv), (ri_capacity _ _ _ _ _ _ Hinv). }
    split.
    { intros k t Hk.
      destruct (record_all_spec zs za zr C [] (take k ts) _ HC
                  (ring_inv_init zs za zr C bs)) as (bk & Hbk & Hinvk).
      simpl in Hinvk.
      destruct (record_spec zs za zr C (take k ts) bk t HC Hinvk)
        as (bk' & Hrec & _ & Hhit & Hmiss & _).
      apply lookup_lt_Some in Hk as Hlt.
      rewrite length_take, Nat.min_l in Hhit, Hmiss by lia.
      exists bk, bk'. done. }
    split.
    { intros i Hi. by apply (ring_inv_latest zs za zr C ts b i). }
    apply (ri_fresh _ _ _ _ _ _ Hinv).
  - apply deque_append_all_drop.
  - apply deque_append_all_length.
  - apply deque_append_all_lookup.
  - intros Hempty. rewrite store_all_replay_buffer, Hempty.
    split; [apply deque_append_all_drop | apply deque_append_all_length].
Qed.

(** The capacity-4 scenario: six transitions, slot [5 mod 4 = 1] holds
    the last one. *)
Lemma ring_invariant_witness :
  0 < 4 ∧
  ∃ b, record_all (Buffer_init 0 0 0 4 64)
         [(0,0,0,1); (1,0,0,2); (2,0,0,3); (3,0,0,4); (4,0,0,5); (5,0,0,6)] = Ok b
       ∧ record_range b = 4
       ∧ slot b 1 = Some (5,0,0,6)
       ∧ deque_append_all 4 [] [0; 1; 2; 3; 4; 5] = [2; 3; 4; 5].
Proof.
  split; [lia|].
  destruct (ring_invariant 0 0 0 4 64
              [(0,0,0,1); (1,0,0,2); (2,0,0,3); (3,0,0,4); (4,0,0,5); (5,0,0,6)]
              4 [0; 1; 2; 3; 4; 5]
              (Breakout.mkDQN 2 [] 9%Z 8%Z 1000 [10%Z] [10%Z])
              ([] : list (@Breakout.Transition Z unit)) ltac:(lia))
    as [(b & Hb & _ & Hrange & _ & Hlatest & _) (Hdq & _)].
  exists b. split; [exact Hb|]. split; [exact Hrange|]. split; [|exact Hdq].
  destruct (Hlatest 5 ltac:(simpl; lia)) as (i' & Hi' & _ & _ & Hslot).
  simpl in Hi'. assert (i' = 5) as -> by lia. exact Hslot.
Defined.

(** ** Sampling *)

Lemma gather_Forall2 {A : Type} (arr : list A) (idxs : list nat) (xs : list A) :
  gather arr idxs = Ok xs ↔ Forall2 (fun i x => arr !! i = Some x) idxs xs.
Proof.
  revert xs. induction idxs as [|i idxs IH]; intros xs; simpl.
  - split.
    + intros [= <-]. constructor.
    + intros Hf. by inversion Hf.
  - unfold get_row. destruct (arr !! i) as [x|] eqn:Hx; cbn [mbind res_bind].
    + destruct (gather arr idxs) as [ys|e] eqn:Hg; cbn [mbind res_bind].
      * split.
        -- intros [= <-]. constructor; [done|]. by apply IH.
        -- intros Hf. inversion Hf as [|? y ? ys' Hy Hys]; subst.
           apply IH in Hys. congruence.
      * split; [done|]. intros Hf.
        inversion Hf as [|? y ? ys' Hy Hys]; subst. apply IH in Hys. done.
    + split; [done|]. intros Hf. inversion Hf; subst. congruence.
Qed.

Lemma gather_in_range {A : Type} (arr : list A) (idxs : list nat) :
  Forall (fun i => i < length arr) idxs → is_Ok (gather arr idxs).
Proof.
  induction 1 as [|i idxs Hi _ [xs IH]]; simpl; [by eexists|].
  unfold get_row. destruct (lookup_lt_is_Some_2 arr i Hi) as [x ->].
  cbn [mbind res_bind]. rewrite IH. cbn [mbind res_bind]. by eexists.
Qed.

Section SamplingFacts.
Context {State Action Reward : Type}.
Variable zero_state : State.
Variable zero_action : Action.
Variable zero_reward : Reward.

Abbreviation Tr' := (Transition State Action Reward).
Abbreviation Buf' := (Buffer State Action Reward).

(** The four field arrays of a batch are aligned: position [k] of
    each belongs to the transition in the slot of the [k]-th index. *)
Lemma learn_batch_aligned (b : Buf') (idxs : list nat)
    (sb : list State) (ab : list Action) (rb : list Reward) (nb : list State) :
  learn_batch b idxs = Ok (sb, ab, rb, nb) →
  length sb = length idxs ∧ length ab = length idxs
  ∧ length rb = length idxs ∧ length nb = length idxs
  ∧ ∀ k i, idxs !! k = Some i →
      ∃ s a r s', slot b i = Some (s, a, r, s')
                  ∧ sb !! k = Some s ∧ ab !! k = Some a
                  ∧ rb !! k = Some r ∧ nb !! k = Some s'.
Proof.
  unfold learn_batch.
  destruct (gather (state_buffer b) idxs) as [sb'|] eqn:H1; [|done].
  destruct (gather (action_buffer b) idxs) as [ab'|] eqn:H2; [|done].
  destruct (gather (reward_buffer b) idxs) as [rb'|] eqn:H3; [|done].
  destruct (gather (next_state_buffer b) idxs) as [nb'|] eqn:H4; [|done].
  cbn [mbind res_bind]. intros [= <- <- <- <-].
  apply gather_Forall2 in H1, H2, H3, H4.
  repeat split; try (symmetry; eapply Forall2_length; eassumption).
  intros k i Hk.
  destruct (Forall2_lookup_l _ _ _ _ _ H1 Hk) as (s & Hs & Hs').
  destruct (Forall2_lookup_l _ _ _ _ _ H2 Hk) as (a & Ha & Ha').
  destruct (Forall2_lookup_l _ _ _ _ _ H3 Hk) as (r & Hr & Hr').
  destruct (Forall2_lookup_l _ _ _ _ _ H4 Hk) as (s' & Hn & Hn').
  exists s, a, r, s'. unfold slot. by rewrite Hs', Ha', Hr', Hn'.
Qed.

(** Indices below [record_range] never reach an unwritten slot. *)
Lemma learn_batch_valid (C : nat) (ts : list Tr') (b : Buf') (idxs : list nat) :
  0 < C →
  ring_inv zero_state zero_action zero_reward C ts b →
  Forall (fun i => i < record_range b) idxs →
  is_Ok (learn_batch b idxs)
  ∧ ∀ i, i ∈ idxs → ∃ i', i' < length ts ∧ slot b i = ts !! i'.
Proof.
  intros HC Hinv Hidx.
  pose proof (ri_capacity _ _ _ _ _ _ Hinv) as Hcap.
  pose proof (ri_counter _ _ _ _ _ _ Hinv) as Hcnt.
  assert (Hlt : Forall (fun i => i < C) idxs).
  { eapply Forall_impl; [exact Hidx|]. unfold record_range. simpl. lia. }
  split.
  - unfold learn_batch.
    destruct (gather_in_range (state_buffer b) idxs) as [? ->];
      [by rewrite (ri_len_s _ _ _ _ _ _ Hinv)|].
    destruct (gather_in_range (action_buffer b) idxs) as [? ->];
      [by rewrite (ri_len_a _ _ _ _ _ _ Hinv)|].
    destruct (gather_in_range (reward_buffer b) idxs) as [? ->];
      [by rewrite (ri_len_r _ _ _ _ _ _ Hinv)|].
    destruct (gather_in_range (next_state_buffer b) idxs) as [? ->];
      [by rewrite (ri_len_n _ _ _ _ _ _ Hinv)|].
    cbn [mbind res_bind]. by eexists.
  - intros i Hi.
    rewrite Forall_forall in Hidx. specialize (Hidx i Hi).
    unfold record_range in Hidx. rewrite Hcap, Hcnt in Hidx.
    destruct (ring_inv_latest _ _ _ C ts b i HC Hinv ltac:(lia))
      as (i' & Hi' & _ & _ & Hslot).
    rewrite Nat.mod_small in Hslot by lia. exists i'. split; [lia|done].
Qed.
End SamplingFacts.

(** [np.random.choice]: one independent draw per index, reduced to the
    range; in-range draws are returned as they are. *)
Lemma choice_of_draws_length (a : nat) (raws : list nat) :
  length (choice_of_draws a raws) = length raws.
Proof. unfold choice_of_draws. by rewrite length_map. Qed.

Lemma choice_of_draws_lookup (a : nat) (raws : list nat) (k : nat) :
  choice_of_draws a raws !! k = (fun r => r mod a) <$> raws !! k.
Proof. unfold choice_of_draws. apply list_lookup_fmap. Qed.

Lemma choice_of_draws_bound (a : nat) (raws : list nat) :
  0 < a → Forall (fun i => i < a) (choice_of_draws a raws).
Proof.
  intros Ha. unfold choice_of_draws. apply Forall_fmap, Forall_forall.
  intros r _. simpl. apply Nat.mod_upper_bound. lia.
Qed.

Lemma choice_of_draws_id (a : nat) (raws : list nat) :
  Forall (fun r => r < a) raws → choice_of_draws a raws = raws.
Proof.
  unfold choice_of_draws. induction 1 as [|r raws Hr _ IH]; [done|].
  simpl. rewrite IH. f_equal. by apply Nat.mod_small.
Qed.

Section ChoiceFacts.
Context {num : Type} `{NumOps num} {W : Type} `{!@World num W}.

Lemma raw_draws_length (a size : nat) (w : W) :
  length (raw_draws a size w).1 = size.
Proof.
  revert w. induction size as [|size IH]; intros w; simpl; [done|].
  destruct (random_below w a) as [r w1].
  specialize (IH w1). destruct (raw_draws a size w1) as [rs w2].
  simpl in *. by rewrite IH.
Qed.

Lemma np_random_choice_Ok (a size : nat) (w : W) :
  0 < a →
  np_random_choice a size w
  = Ok (choice_of_draws a (raw_draws a size w).1, (raw_draws a size w).2).
Proof.
  intros Ha. unfold np_random_choice.
  rewrite decide_False by lia. by destruct (raw_draws a size w).
Qed.

Lemma np_random_choice_empty (size : nat) (w : W) :
  0 < size → np_random_choice 0 size w = Raise ValueError.
Proof.
  intros Hs. unfold np_random_choice. rewrite decide_True; [done|lia].
Qed.
End ChoiceFacts.

(** ** [random.sample]: the pool branch *)

Ltac run_simpl := cbn [mbind run_bind of_option of_res] in *.

Lemma get_row_Ok_inv {A : Type} (arr : list A) (i : nat) (x : A) :
  get_row arr i = Ok x ↔ arr !! i = Some x.
Proof.
  unfold get_row. destruct (arr !! i); split; intros E; try done;
    by injection E as ->.
Qed.

Lemma pool_step_live {A : Type} (l : list A) (m j : nat) (y : A) :
  j < m → m ≤ length l → l !! (m - 1) = Some y →
  take (m - 1) (<[j:=y]> l) ≡ₚ delete j (take m l).
Proof.
  intros Hj Hm Hy.
  assert (Htake : take m l = take (m - 1) l ++ [y]).
  { replace m with (S (m - 1)) at 1 by lia. by erewrite take_S_r. }
  assert (Hlen : length (take (m - 1) l) = m - 1) by (rewrite length_take; lia).
  rewrite Htake, delete_take_drop.
  destruct (decide (j = m - 1)) as [->|Hne].
  - rewrite take_insert_ge by lia.
    rewrite take_app_length' by done.
    rewrite drop_app_ge by lia. rewrite Hlen.
    replace (S (m - 1) - (m - 1)) with 1 by lia. simpl. by rewrite app_nil_r.
  - rewrite take_insert_lt by lia.
    rewrite insert_take_drop by lia.
    rewrite take_app_le by lia. rewrite drop_app_le by lia.
    apply Permutation_app_head. by rewrite <- Permutation_cons_append.
Qed.

Section PoolFacts.
Context {G : Type} (randbelow : nat → G → option (nat * G)).
Context {T : Type}.

Lemma sample_pool_step (k m j : nat) (pool : list T) (g g1 : G) (x y : T) :
  randbelow m g = Some (j, g1) →
  pool !! j = Some x → pool !! (m - 1) = Some y →
  sample_pool randbelow (S k) m pool g
  = ('(result, g2) ← sample_pool randbelow k (m - 1) (<[j:=y]> pool) g1;
     Done (x :: result, g2)).
Proof.
  intros Hd Hx Hy. cbn [sample_pool]. rewrite Hd. run_simpl.
  unfold get_row. rewrite Hx, Hy. run_simpl.
  unfold set_row. rewrite decide_True by (by eapply lookup_lt_Some). done.
Qed.

Lemma sample_pool_inv (k m : nat) (pool : list T) (g g' : G) (xs : list T) :
  sample_pool randbelow (S k) m pool g = Done (xs, g') →
  ∃ j g1 x y xs',
    randbelow m g = Some (j, g1)
    ∧ pool !! j = Some x ∧ pool !! (m - 1) = Some y
    ∧ xs = x :: xs'
    ∧ sample_pool randbelow k (m - 1) (<[j:=y]> pool) g1 = Done (xs', g').
Proof.
  cbn [sample_pool].
  destruct (randbelow m g) as [[j g1]|] eqn:Hd; run_simpl; [|done].
  unfold get_row.
  destruct (pool !! j) as [x|] eqn:Hx; run_simpl; [|done].
  destruct (pool !! (m - 1)) as [y|] eqn:Hy; run_simpl; [|done].
  unfold set_row. rewrite decide_True by (by eapply lookup_lt_Some). run_simpl.
  destruct (sample_pool randbelow k (m - 1) (<[j:=y]> pool) g1)
    as [[xs' g2]| |] eqn:Hrest; run_simpl; [|done..].
  intros [= <- <-]. by exists j, g1, x, y, xs'.
Qed.

(** With a generator that answers, the pool branch returns. *)
Lemma sample_pool_Done (k m : nat) (pool : list T) (g : G) :
  (∀ n g0, 0 < n → ∃ j g1, randbelow n g0 = Some (j, g1) ∧ j < n) →
  k ≤ m → m ≤ length pool →
  ∃ xs g', sample_pool randbelow k m pool g = Done (xs, g').
Proof.
  intros Hgen. revert m pool g.
  induction k as [|k IH]; intros m pool g Hk Hm; [by eexists _, _|].
  destruct (Hgen m g ltac:(lia)) as (j & g1 & Hd & Hj).
  destruct (lookup_lt_is_Some_2 pool j ltac:(lia)) as [x Hx].
  destruct (lookup_lt_is_Some_2 pool (m - 1) ltac:(lia)) as [y Hy].
  rewrite (sample_pool_step k m j pool g g1 x y Hd Hx Hy).
  destruct (IH (m - 1) (<[j:=y]> pool) g1) as (xs & g' & ->);
    [lia|rewrite length_insert; lia|].
  run_simpl. by eexists _, _.
Qed.
End PoolFacts.

(** The pool branch on a list of draws. *)
Lemma next_draw_Some (n : nat) (ds : list nat) (j : nat) (rest : list nat) :
  next_draw n ds = Some (j, rest) ↔ ds = j :: rest ∧ j < n.
Proof.
  unfold next_draw. destruct ds as [|d ds']; [naive_solver|].
  case_decide; naive_solver.
Qed.

Lemma sample_pool_sound (k m : nat) (l : list nat) (ds ds' ps : list nat) :
  k ≤ m → m ≤ length l → NoDup (take m l) →
  sample_pool next_draw k m l ds = Done (ps, ds') →
  length ps = k ∧ NoDup ps ∧ ps ⊆ take m l.
Proof.
  revert m l ds ps.
  induction k as [|k IH]; intros m l ds ps Hk Hm Hnd Hrun.
  - injection Hrun as <- <-. split; [done|]. split; [constructor|].
    apply list_subseteq_nil.
  - apply sample_pool_inv in Hrun
      as (j & rest & x & y & ps' & Hd & Hx & Hy & -> & Hrest).
    apply next_draw_Some in Hd as [-> Hj].
    assert (Hlive : take (m - 1) (<[j:=y]> l) ≡ₚ delete j (take m l))
      by by apply pool_step_live.
    assert (Hxlive : take m l !! j = Some x) by by rewrite lookup_take_lt.
    pose proof (delete_Permutation _ _ _ Hxlive) as Hperm.
    assert (Hnd' : NoDup (x :: delete j (take m l))) by by rewrite <- Hperm.
    apply NoDup_cons in Hnd' as [Hnotin Hnd'].
    destruct (IH (m - 1) (<[j:=y]> l) rest ps') as (Hlen & Hnd2 & Hsub);
      [lia|rewrite length_insert; lia|by rewrite Hlive|done|].
    split; [simpl; lia|]. split.
    + apply NoDup_cons. split; [|done]. intros Hin. apply Hnotin.
      rewrite <- Hlive. by apply Hsub.
    + intros z Hz. apply elem_of_cons in Hz as [->|Hz].
      * by eapply list_elem_of_lookup_2.
      * rewrite Hperm. right. rewrite <- Hlive. by apply Hsub.
Qed.

(** Every arrangement of live positions is selected by a list of draws
    within the bounds of the branch. *)
Lemma sample_pool_complete (k m : nat) (l : list nat) (ps : list nat) :
  m ≤ length l → NoDup (take m l) →
  length ps = k → NoDup ps → ps ⊆ take m l →
  ∃ ds, Forall2 (fun d b => d < b) ds ((fun i => m - i) <$> seq 0 k)
        ∧ sample_pool next_draw k m l ds = Done (ps, []).
Proof.
  revert m l ps.
  induction k as [|k IH]; intros m l ps Hm Hnd Hlen Hps Hsub.
  - destruct ps; [|done]. exists []. split; [constructor|done].
  - destruct ps as [|p ps]; [done|]. simpl in Hlen.
    apply NoDup_cons in Hps as [Hnotin Hps].
    assert (Hp : p ∈ take m l) by (apply Hsub; left).
    apply list_elem_of_lookup_1 in Hp as [j Hj].
    pose proof (lookup_lt_Some _ _ _ Hj) as Hjlt. rewrite length_take in Hjlt.
    assert (Hx : l !! j = Some p) by (by rewrite lookup_take_lt in Hj by lia).
    destruct (lookup_lt_is_Some_2 l (m - 1) ltac:(lia)) as [y Hy].
    assert (Hlive : take (m - 1) (<[j:=y]> l) ≡ₚ delete j (take m l))
      by (apply pool_step_live; [lia|lia|done]).
    pose proof (delete_Permutation _ _ _ Hj) as Hperm.
    assert (Hnd' : NoDup (p :: delete j (take m l))) by by rewrite <- Hperm.
    apply NoDup_cons in Hnd' as [_ Hnd'].
    destruct (IH (m - 1) (<[j:=y]> l) ps) as (ds & Hds & Hrun);
      [rewrite length_insert; lia|by rewrite Hlive|lia|done| |].
    { intros z Hz. rewrite Hlive.
      assert (z ∈ p :: delete j (take m l)) as Hz'
        by (rewrite <- Hperm; apply Hsub; by right).
      apply elem_of_cons in Hz' as [->|Hz']; done. }
    exists (j :: ds). split.
    + cbn [seq fmap list_fmap]. constructor; [lia|].
      assert ((fun i => m - i) <$> seq 1 k = (fun i => m - 1 - i) <$> seq 0 k) as ->;
        [|done].
      rewrite <- fmap_S_seq, <- list_fmap_compose.
      apply list_fmap_ext. intros i x _. simpl. lia.
    + rewrite (sample_pool_step next_draw k m j l (j :: ds) ds p y);
        [by rewrite Hrun| |done|done].
      apply next_draw_Some. split; [done|lia].
Qed.

Lemma sample_pool_inj (k m : nat) (l : list nat) (ds1 ds2 r1 r2 ps : list nat) :
  m ≤ length l → NoDup (take m l) →
  length ds1 = k → length ds2 = k →
  sample_pool next_draw k m l ds1 = Done (ps, r1) →
  sample_pool next_draw k m l ds2 = Done (ps, r2) →
  ds1 = ds2.
Proof.
  revert m l ds1 ds2 ps.
  induction k as [|k IH]; intros m l ds1 ds2 ps Hm Hnd Hl1 Hl2 H1 H2.
  - by destruct ds1, ds2.
  - apply sample_pool_inv in H1
      as (j1 & rest1 & x1 & y1 & ps1 & Hd1 & Hx1 & Hy1 & -> & Hrest1).
    apply sample_pool_inv in H2
      as (j2 & rest2 & x2 & y2 & ps2 & Hd2 & Hx2 & Hy2 & Heq & Hrest2).
    injection Heq as <- <-.
    apply next_draw_Some in Hd1 as [-> Hj1].
    apply next_draw_Some in Hd2 as [-> Hj2].
    assert (j1 = j2) as ->.
    { eapply (NoDup_lookup (take m l)); [done| |];
        by rewrite lookup_take_lt. }
    rewrite Hy1 in Hy2. injection Hy2 as <-.
    f_equal. simpl in Hl1, Hl2.
    apply (IH (m - 1) (<[j2:=y1]> l) rest1 rest2 ps1); try done; try lia.
    + rewrite length_insert. lia.
    + rewrite pool_step_live by (done || lia).
      assert (Hxl : take m l !! j2 = Some x1) by by rewrite lookup_take_lt.
      pose proof (delete_Permutation _ _ _ Hxl) as Hperm.
      assert (Hnd' : NoDup (x1 :: delete j2 (take m l))) by by rewrite <- Hperm.
      by apply NoDup_cons in Hnd' as [_ ?].
Qed.

(** ** [random.sample]: the branch with a set of selected positions *)

Section SetFacts.
Context {G : Type} (randbelow : nat → G → option (nat * G)).
Context {T : Type}.

Lemma draw_unselected_fresh (fuel n j : nat) (selected : list nat) (g g' : G) :
  draw_unselected randbelow fuel n selected g = Done (j, g') → j ∉ selected.
Proof.
  revert g. induction fuel as [|fuel IH]; intros g; [done|].
  cbn [draw_unselected].
  destruct (randbelow n g) as [[d g1]|]; run_simpl; [|done].
  case_decide; [apply IH|]. by intros [= <- <-].
Qed.

Lemma sample_set_inv (fuel k n : nat) (selected : list nat)
    (population : list T) (g g' : G) (xs : list T) :
  sample_set randbelow fuel (S k) n selected population g = Done (xs, g') →
  ∃ j g1 x xs',
    draw_unselected randbelow fuel n selected g = Done (j, g1)
    ∧ population !! j = Some x
    ∧ xs = x :: xs'
    ∧ sample_set randbelow fuel k n (j :: selected) population g1 = Done (xs', g').
Proof.
  cbn [sample_set].
  destruct (draw_unselected randbelow fuel n selected g) as [[j g1]| |];
    run_simpl; [|done..].
  unfold get_row. destruct (population !! j) as [x|] eqn:Hx; run_simpl; [|done].
  destruct (sample_set randbelow fuel k n (j :: selected) population g1)
    as [[xs' g2]| |] eqn:Hrest; run_simpl; [|done..].
  intros [= <- <-]. by exists j, g1, x, xs'.
Qed.

Lemma sample_set_step (fuel k n j : nat) (selected : list nat)
    (population : list T) (g g1 : G) (x : T) :
  draw_unselected randbelow fuel n selected g = Done (j, g1) →
  population !! j = Some x →
  sample_set randbelow fuel (S k) n selected population g
  = ('(result, g2) ← sample_set randbelow fuel k n (j :: selected) population g1;
     Done (x :: result, g2)).
Proof.
  intros Hd Hx. cbn [sample_set]. rewrite Hd. run_simpl.
  unfold get_row. by rewrite Hx.
Qed.

(** Neither branch raises when the generator stays within its range. *)
Lemma sample_pool_not_Failed (k m : nat) (pool : list T) (g : G) (e : exn) :
  (∀ n g0 j g1, 0 < n → randbelow n g0 = Some (j, g1) → j < n) →
  k ≤ m → m ≤ length pool →
  sample_pool randbelow k m pool g ≠ Failed e.
Proof.
  intros Hrange. revert m pool g.
  induction k as [|k IH]; intros m pool g Hk Hm; [done|].
  cbn [sample_pool].
  destruct (randbelow m g) as [[j g1]|] eqn:Hd; run_simpl; [|done].
  apply Hrange in Hd; [|lia].
  destruct (lookup_lt_is_Some_2 pool j ltac:(lia)) as [x Hx].
  destruct (lookup_lt_is_Some_2 pool (m - 1) ltac:(lia)) as [y Hy].
  unfold get_row. rewrite Hx, Hy. run_simpl.
  unfold set_row. rewrite decide_True by lia. run_simpl.
  specialize (IH (m - 1) (<[j:=y]> pool) g1 ltac:(lia)
                ltac:(rewrite length_insert; lia)).
  by destruct (sample_pool randbelow k (m - 1) (<[j:=y]> pool) g1) as [[??]| |].
Qed.

Lemma draw_unselected_range (fuel n j : nat) (selected : list nat) (g g' : G) :
  (∀ g0 j g1, randbelow n g0 = Some (j, g1) → j < n) →
  draw_unselected randbelow fuel n selected g = Done (j, g') → j < n.
Proof.
  intros Hrange. revert g. induction fuel as [|fuel IH]; intros g; [done|].
  cbn [draw_unselected].
  destruct (randbelow n g) as [[d g1]|] eqn:Hd; run_simpl; [|done].
  case_decide; [apply IH|]. intros [= <- <-]. by eapply Hrange.
Qed.

Lemma draw_unselected_not_Failed (fuel n : nat) (selected : list nat) (g : G)
    (e : exn) :
  draw_unselected randbelow fuel n selected g ≠ Failed e.
Proof.
  revert g. induction fuel as [|fuel IH]; intros g; [done|].
  cbn [draw_unselected].
  destruct (randbelow n g) as [[d g1]|]; run_simpl; [|done].
  by case_decide.
Qed.

Lemma sample_set_not_Failed (fuel k n : nat) (selected : list nat)
    (population : list T) (g : G) (e : exn) :
  (∀ g0 j g1, randbelow n g0 = Some (j, g1) → j < n) →
  n ≤ length population →
  sample_set randbelow fuel k n selected population g ≠ Failed e.
Proof.
  intros Hrange Hn. revert selected g.
  induction k as [|k IH]; intros selected g; [done|].
  cbn [sample_set].
  destruct (draw_unselected randbelow fuel n selected g) as [[j g1]|e'|] eqn:Hd;
    run_simpl; [|by apply draw_unselected_not_Failed in Hd|done].
  apply draw_unselected_range in Hd; [|done].
  destruct (lookup_lt_is_Some_2 population j ltac:(lia)) as [x Hx].
  unfold get_row. rewrite Hx. run_simpl.
  specialize (IH (j :: selected) g1).
  by destruct (sample_set randbelow fuel k n (j :: selected) population g1)
    as [[??]| |].
Qed.

(** A loop that has ended within a budget has ended within any larger
    one, with the same result. *)
Lemma draw_unselected_mono (fuel fuel' n : nat) (selected : list nat) (g : G)
    (r : nat * G) :
  fuel ≤ fuel' →
  draw_unselected randbelow fuel n selected g = Done r →
  draw_unselected randbelow fuel' n selected g = Done r.
Proof.
  revert fuel' g. induction fuel as [|fuel IH]; intros fuel' g Hle; [done|].
  destruct fuel' as [|fuel']; [lia|]. cbn [draw_unselected].
  destruct (randbelow n g) as [[d g1]|]; run_simpl; [|done].
  case_decide; [apply IH; lia|done].
Qed.

Lemma sample_set_mono (fuel fuel' k n : nat) (selected : list nat)
    (population : list T) (g : G) (r : list T * G) :
  fuel ≤ fuel' →
  sample_set randbelow fuel k n selected population g = Done r →
  sample_set randbelow fuel' k n selected population g = Done r.
Proof.
  intros Hle. revert selected g r.
  induction k as [|k IH]; intros selected g r; [done|].
  cbn [sample_set].
  destruct (draw_unselected randbelow fuel n selected g) as [[j g1]| |] eqn:Hd;
    run_simpl; [|done..].
  rewrite (draw_unselected_mono _ _ _ _ _ _ Hle Hd). run_simpl.
  destruct (get_row population j) as [x|]; run_simpl; [|done].
  destruct (sample_set randbelow fuel k n (j :: selected) population g1)
    as [r1| |] eqn:Hs; run_simpl; [|done..].
  by rewrite (IH _ _ _ Hs).
Qed.

(** With redraw loops that end, the branch returns within some budget. *)
Lemma sample_set_total (k n : nat) (selected : list nat)
    (population : list T) (g : G) :
  redraws_end randbelow →
  (∀ g0 j g1, randbelow n g0 = Some (j, g1) → j < n) →
  n ≤ length population →
  length selected + k ≤ n →
  ∃ fuel r, sample_set randbelow fuel k n selected population g = Done r.
Proof.
  intros Hend Hrange Hn. revert selected g.
  induction k as [|k IH]; intros selected g Hk; [by exists 0, ([], g)|].
  destruct (Hend n selected g ltac:(lia)) as (fuel1 & j & g1 & Hd).
  pose proof (draw_unselected_range _ _ _ _ _ _ Hrange Hd) as Hj.
  destruct (lookup_lt_is_Some_2 population j ltac:(lia)) as [x Hx].
  destruct (IH (j :: selected) g1 ltac:(simpl; lia)) as (fuel2 & [xs g2] & Hs).
  exists (Nat.max fuel1 fuel2), (x :: xs, g2).
  rewrite (sample_set_step _ _ _ j _ _ _ g1 x);
    [|by apply (draw_unselected_mono fuel1 (Nat.max fuel1 fuel2)); [lia|]
     |done].
  rewrite (sample_set_mono fuel2 (Nat.max fuel1 fuel2) _ _ _ _ _ _
             ltac:(lia) Hs).
  done.
Qed.
End SetFacts.

Lemma sample_set_sound (fuel k n : nat) (selected ds ds' ps : list nat) :
  sample_set next_draw fuel k n selected (seq 0 n) ds = Done (ps, ds') →
  length ps = k ∧ NoDup ps ∧ Forall (fun p => p < n) ps
  ∧ ∀ p, p ∈ ps → p ∉ selected.
Proof.
  revert selected ds ps.
  induction k as [|k IH]; intros selected ds ps Hrun.
  - injection Hrun as <- <-. split; [done|]. split; [constructor|].
    split; [constructor|]. by intros p Hp%elem_of_nil.
  - apply sample_set_inv in Hrun as (j & rest & x & ps' & Hd & Hx & -> & Hrest).
    apply lookup_seq in Hx as [-> Hj]. simpl.
    apply draw_unselected_fresh in Hd.
    apply IH in Hrest as (Hlen & Hnd & Hlt & Hfresh).
    split; [lia|]. split.
    + apply NoDup_cons. split; [|done]. intros Hin.
      apply (Hfresh _ Hin). left.
    + split; [by constructor|].
      intros p Hp. apply elem_of_cons in Hp as [->|Hp]; [done|].
      intros Hsel. apply (Hfresh _ Hp). by right.
Qed.

(** Every arrangement is selected when the generator returns it as its
    draws. *)
Lemma sample_set_reaches (fuel k n : nat) (selected ps : list nat) :
  0 < fuel → length ps = k → NoDup ps → Forall (fun p => p < n) ps →
  (∀ p, p ∈ ps → p ∉ selected) →
  sample_set next_draw fuel k n selected (seq 0 n) ps = Done (ps, []).
Proof.
  intros Hfuel. revert selected ps.
  induction k as [|k IH]; intros selected ps Hlen Hnd Hlt Hfresh.
  - by destruct ps.
  - destruct ps as [|p ps]; [done|].
    apply NoDup_cons in Hnd as [Hnotin Hnd].
    apply Forall_cons in Hlt as [Hp Hlt].
    rewrite (sample_set_step next_draw fuel k n p selected (seq 0 n)
               (p :: ps) ps p).
    + rewrite IH; try done.
      * simpl in Hlen. lia.
      * intros q Hq Hsel. apply elem_of_cons in Hsel as [->|Hsel]; [done|].
        apply (Hfresh q); [by right|done].
    + destruct fuel as [|fuel]; [lia|]. cbn [draw_unselected next_draw].
      rewrite decide_True by done. run_simpl.
      rewrite decide_False; [done|]. apply Hfresh. left.
    + by apply lookup_seq.
Qed.

(** ** Relabelling the positions *)

Lemma swap_values_invol (a b x : nat) : swap_values a b (swap_values a b x) = x.
Proof. unfold swap_values. repeat case_decide; congruence. Qed.

Lemma swap_values_range (a b n x : nat) :
  a < n → b < n → swap_values a b x < n ↔ x < n.
Proof. intros Ha Hb. unfold swap_values. repeat case_decide; subst; lia. Qed.

Lemma swap_values_fix (a b x : nat) : x ≠ a → x ≠ b → swap_values a b x = x.
Proof. intros Ha Hb. unfold swap_values. by rewrite !decide_False. Qed.

Lemma swap_values_inj (a b : nat) : Inj (=) (=) (swap_values a b).
Proof.
  intros x y Hxy. rewrite <- (swap_values_invol a b x), Hxy.
  apply swap_values_invol.
Qed.

Section Relabel.
Variables (n : nat) (sigma : nat → nat).
Hypothesis sigma_invol : ∀ x, sigma (sigma x) = x.
Hypothesis sigma_range : ∀ x, sigma x < n ↔ x < n.

Lemma sigma_inj : Inj (=) (=) sigma.
Proof using sigma_invol. intros x y Hxy. by rewrite <- (sigma_invol x), Hxy. Qed.

Lemma draw_unselected_relabel (fuel : nat) (selected ds : list nat) :
  draw_unselected next_draw fuel n (sigma <$> selected) (sigma <$> ds)
  = ('(j, rest) ← draw_unselected next_draw fuel n selected ds;
     Done (sigma j, fmap (M := list) sigma rest)).
Proof using sigma_invol sigma_range.
  revert ds. induction fuel as [|fuel IH]; intros ds; [done|].
  destruct ds as [|d ds]; [done|].
  cbn [draw_unselected next_draw fmap list_fmap].
  destruct (decide (d < n)) as [Hd|Hd].
  - rewrite decide_True by (by apply sigma_range). run_simpl.
    destruct (decide (d ∈ selected)) as [Hin|Hin].
    + rewrite decide_True by (by apply list_elem_of_fmap_2). apply IH.
    + rewrite decide_False; [done|].
      intros (y & Hy & Hin')%list_elem_of_fmap. apply sigma_inj in Hy. by subst.
  - rewrite decide_False by (by rewrite sigma_range). done.
Qed.

Lemma sample_set_relabel (fuel k : nat) (selected ds : list nat) :
  sample_set next_draw fuel k n (sigma <$> selected) (seq 0 n) (sigma <$> ds)
  = ('(ps, rest) ← sample_set next_draw fuel k n selected (seq 0 n) ds;
     Done (fmap (M := list) sigma ps, fmap (M := list) sigma rest)).
Proof using sigma_invol sigma_range.
  revert selected ds. induction k as [|k IH]; intros selected ds; [done|].
  cbn [sample_set]. rewrite draw_unselected_relabel.
  destruct (draw_unselected next_draw fuel n selected ds) as [[j rest]| |] eqn:Hd;
    run_simpl; [|done..].
  assert (Hj : j < n).
  { eapply (draw_unselected_range next_draw); [|exact Hd].
    intros ??? Hn. by apply next_draw_Some in Hn as [_ ?]. }
  unfold get_row. rewrite !lookup_seq_lt by (done || by apply sigma_range). run_simpl.
  change (sigma j :: (sigma <$> selected)) with (sigma <$> (j :: selected)). rewrite IH.
  by destruct (sample_set next_draw fuel k n (j :: selected) (seq 0 n) rest)
    as [[??]| |].
Qed.
End Relabel.

(** ** Counting equally likely runs *)

Lemma elem_of_all_draws (bounds ds : list nat) :
  ds ∈ all_draws bounds ↔ Forall2 (fun d b => d < b) ds bounds.
Proof.
  revert ds. induction bounds as [|b bounds IH]; intros ds; simpl.
  - rewrite list_elem_of_singleton. split; [by intros ->|].
    by intros ->%Forall2_nil_inv_r.
  - rewrite list_elem_of_bind. split.
    + intros (d & Hds & Hd). apply list_elem_of_fmap in Hds as (ds' & -> & Hds').
      apply elem_of_seq in Hd. constructor; [lia|]. by apply IH.
    + intros Hf. apply Forall2_cons_inv_r in Hf as (d & ds' & Hd & Hf & ->).
      exists d. split; [|apply elem_of_seq; lia].
      apply list_elem_of_fmap. exists ds'. split; [done|]. by apply IH.
Qed.

Lemma NoDup_all_draws (bounds : list nat) : NoDup (all_draws bounds).
Proof.
  induction bounds as [|b bounds IH]; simpl; [apply NoDup_singleton|].
  apply NoDup_bind.
  - intros d1 d2 ds _ _ H1 H2.
    apply list_elem_of_fmap in H1 as (ds1 & -> & _).
    apply list_elem_of_fmap in H2 as (ds2 & [= -> _] & _). done.
  - intros d _. apply NoDup_fmap_2; [|done]. by intros ?? [= ->].
  - apply NoDup_seq.
Qed.

Lemma length_all_draws_replicate (size a : nat) :
  length (all_draws (replicate size a)) = a ^ size.
Proof.
  induction size as [|size IH]; [done|].
  cbn [replicate all_draws].
  assert (Hbind : ∀ l : list nat,
            length (l ≫= fun d => (fun ds => d :: ds) <$> all_draws (replicate size a))
            = length l * a ^ size).
  { induction l as [|d l IHl]; [done|].
    rewrite bind_cons, length_app, length_fmap, IHl, IH. simpl. lia. }
  rewrite Hbind, length_seq. simpl. lia.
Qed.

Lemma count_draws_unique (bounds : list nat) (f : list nat → option (list nat))
    (v ds0 : list nat) :
  ds0 ∈ all_draws bounds → f ds0 = Some v →
  (∀ ds, ds ∈ all_draws bounds → f ds = Some v → ds = ds0) →
  count_draws bounds f v = 1.
Proof.
  intros Hin Hf Huniq. unfold count_draws.
  assert (Hperm : filter (fun ds => f ds = Some v) (all_draws bounds) ≡ₚ [ds0]).
  { apply NoDup_Permutation.
    - apply NoDup_filter, NoDup_all_draws.
    - apply NoDup_singleton.
    - intros ds. rewrite list_elem_of_filter, list_elem_of_singleton. split.
      + intros [Hv Hds]. by apply Huniq.
      + by intros ->. }
  by rewrite Hperm.
Qed.

(** Relabelling the draws by a bijection of the range leaves the set of
    runs as it is, so a count is the same before and after. *)
Lemma count_draws_relabel (bounds : list nat) (f : list nat → option (list nat))
    (sigma : nat → nat) (v : list nat) :
  (∀ x, sigma (sigma x) = x) →
  (∀ ds, Forall2 (fun d b => d < b) ds bounds →
         Forall2 (fun d b => d < b) (sigma <$> ds) bounds) →
  (∀ ds, f (sigma <$> ds) = fmap (M := option) (fmap (M := list) sigma) (f ds)) →
  count_draws bounds f (sigma <$> v) = count_draws bounds f v.
Proof.
  intros Hinvol Hbounds Hf. unfold count_draws.
  assert (Hinj : Inj (=) (=) (fmap (M := list) sigma)).
  { intros x y Hxy. apply (f_equal (fmap sigma)) in Hxy.
    rewrite <- !list_fmap_compose in Hxy.
    rewrite !(list_fmap_ext (sigma ∘ sigma) Datatypes.id) in Hxy by (intros; apply Hinvol).
    by rewrite !list_fmap_id in Hxy. }
  assert (Hinv2 : ∀ l : list nat, sigma <$> (sigma <$> l) = l).
  { intros l. rewrite <- list_fmap_compose.
    rewrite (list_fmap_ext (sigma ∘ sigma) Datatypes.id) by (intros; apply Hinvol).
    apply list_fmap_id. }
  assert (Hperm : filter (fun ds => f ds = Some (sigma <$> v)) (all_draws bounds)
                  ≡ₚ fmap (M := list) sigma
                       <$> filter (fun ds => f ds = Some v) (all_draws bounds)).
  { apply NoDup_Permutation.
    - apply NoDup_filter, NoDup_all_draws.
    - apply NoDup_fmap_2; [done|]. apply NoDup_filter, NoDup_all_draws.
    - intros ds. rewrite list_elem_of_filter, list_elem_of_fmap.
      split.
      + intros [Hv Hds]. exists (sigma <$> ds). rewrite Hinv2. split; [done|].
        apply list_elem_of_filter. apply elem_of_all_draws in Hds.
        split; [|by apply elem_of_all_draws, Hbounds].
        rewrite Hf, Hv. simpl. by rewrite Hinv2.
      + intros (ds' & -> & [Hv Hds]%list_elem_of_filter).
        apply elem_of_all_draws in Hds.
        split; [|by apply elem_of_all_draws, Hbounds]. by rewrite Hf, Hv. }
  by rewrite Hperm, length_fmap.
Qed.

(** Transpositions connect any two arrangements. *)
Lemma arrangements_connected (n : nat) (c : list nat → nat) :
  (∀ a b v, a < n → b < n → c (swap_values a b <$> v) = c v) →
  ∀ k ps ps', arrangement n k ps → arrangement n k ps' → c ps = c ps'.
Proof.
  intros Hc.
  assert (Hgen : ∀ k ps pre ps',
            length ps = k → length ps' = k →
            NoDup (pre ++ ps) → NoDup (pre ++ ps') →
            Forall (fun p => p < n) ps → Forall (fun p => p < n) ps' →
            c (pre ++ ps) = c (pre ++ ps')).
  { induction k as [|k IH]; intros ps pre ps' Hlen Hlen' Hnd Hnd' Hlt Hlt'.
    - by destruct ps, ps'.
    - destruct ps as [|a t]; [done|]. destruct ps' as [|a' t']; [done|].
      simpl in Hlen, Hlen'.
      apply Forall_cons in Hlt as [Ha Hlt]. apply Forall_cons in Hlt' as [Ha' Hlt'].
      assert (Hswap : swap_values a a' <$> (pre ++ a :: t)
                      = pre ++ a' :: (swap_values a a' <$> t)).
      { rewrite fmap_app, fmap_cons. f_equal.
        - rewrite <- (list_fmap_id pre) at 2. apply list_fmap_ext.
          intros i x Hx. apply list_elem_of_lookup_2 in Hx. simpl.
          apply swap_values_fix.
          + intros ->. apply NoDup_app in Hnd as (_ & Hdis & _).
            apply (Hdis a Hx). left.
          + intros ->. apply NoDup_app in Hnd' as (_ & Hdis & _).
            apply (Hdis a' Hx). left.
        - f_equal. unfold swap_values. by rewrite decide_True. }
      rewrite <- (Hc a a' (pre ++ a :: t) Ha Ha'), Hswap.
      rewrite !(cons_middle _ pre), !app_assoc.
      apply IH.
      + rewrite length_fmap. lia.
      + lia.
      + rewrite <- app_assoc, <- cons_middle, <- Hswap.
        by apply (NoDup_fmap_2 (swap_values a a') (Inj0 := swap_values_inj a a')).
      + by rewrite <- app_assoc, <- cons_middle.
      + apply Forall_fmap. eapply Forall_impl; [exact Hlt|].
        intros x Hx. simpl. by apply swap_values_range.
      + done. }
  intros k ps ps' (Hl & Hnd & Hlt) (Hl' & Hnd' & Hlt').
  by apply (Hgen k ps [] ps').
Qed.

(** ** [random.sample] as a whole *)

Lemma sample_positions_pool (fuel n k : nat) (ds : list nat) :
  k ≤ n → n ≤ setsize k →
  sample_positions fuel n k ds
  = match sample_pool next_draw k n (seq 0 n) ds with
    | Done (ps, _) => Some ps
    | _ => None
    end.
Proof.
  intros Hk Hn. unfold sample_positions, sample. rewrite length_seq.
  rewrite decide_False by lia. by rewrite decide_True.
Qed.

Lemma sample_positions_set (fuel n k : nat) (ds : list nat) :
  k ≤ n → setsize k < n →
  sample_positions fuel n k ds
  = match sample_set next_draw fuel k n [] (seq 0 n) ds with
    | Done (ps, _) => Some ps
    | _ => None
    end.
Proof.
  intros Hk Hn. unfold sample_positions, sample. rewrite length_seq.
  rewrite decide_False by lia. by rewrite decide_False by lia.
Qed.

(** What [random.sample] returns is an arrangement. *)
Lemma sample_positions_sound (fuel n k : nat) (ds ps : list nat) :
  sample_positions fuel n k ds = Some ps → arrangement n k ps.
Proof.
  unfold sample_positions, sample. rewrite length_seq.
  case_decide as Hk; [done|]. case_decide as Hn.
  - destruct (sample_pool next_draw k n (seq 0 n) ds) as [[ps' ds']| |] eqn:Hrun;
      [|done..].
    intros [= <-].
    apply sample_pool_sound in Hrun as (Hlen & Hnd & Hsub);
      [|lia|by rewrite length_seq|].
    + split; [done|]. split; [done|]. apply Forall_forall. intros p Hp.
      apply Hsub in Hp. rewrite take_ge in Hp by (by rewrite length_seq).
      apply elem_of_seq in Hp. lia.
    + rewrite take_ge by (by rewrite length_seq). apply NoDup_seq.
  - destruct (sample_set next_draw fuel k n [] (seq 0 n) ds)
      as [[ps' ds']| |] eqn:Hrun; [|done..].
    intros [= <-].
    by apply sample_set_sound in Hrun as (Hlen & Hnd & Hlt & _).
Qed.

Lemma arrangement_le (n k : nat) (ps : list nat) : arrangement n k ps → k ≤ n.
Proof.
  intros (Hlen & Hnd & Hlt).
  assert (Hsub : ps ⊆ seq 0 n).
  { intros p Hp. rewrite Forall_forall in Hlt. apply elem_of_seq.
    specialize (Hlt p Hp). lia. }
  pose proof (submseteq_length _ _ (NoDup_submseteq _ _ Hnd Hsub)) as Hle.
  rewrite length_seq in Hle. lia.
Qed.

Lemma draws_relabel_bounds (sigma : nat → nat) (n len : nat) (ds : list nat) :
  (∀ d, d < n → sigma d < n) →
  Forall2 (fun d b => d < b) ds (replicate len n) →
  Forall2 (fun d b => d < b) (sigma <$> ds) (replicate len n).
Proof.
  intros Hsigma. revert ds. induction len as [|len IH]; intros ds; simpl.
  - by intros ->%Forall2_nil_inv_r.
  - intros (d & ds' & Hd & Hf & ->)%Forall2_cons_inv_r.
    rewrite fmap_cons. constructor; [by apply Hsigma|by apply IH].
Qed.

(** In the pool branch every arrangement is selected by exactly one of
    the equally likely lists of draws. *)
Lemma sample_positions_pool_count (fuel n k : nat) (ps : list nat) :
  n ≤ setsize k → arrangement n k ps →
  count_draws (pool_bounds n k) (sample_positions fuel n k) ps = 1.
Proof.
  intros Hn Hps. pose proof (arrangement_le n k ps Hps) as Hk.
  destruct Hps as (Hlen & Hnd & Hlt).
  assert (Hall : take n (seq 0 n) = seq 0 n)
    by (rewrite take_ge; [done|by rewrite length_seq]).
  destruct (sample_pool_complete k n (seq 0 n) ps) as (ds0 & Hds0 & Hrun0);
    try done.
  { by rewrite length_seq. }
  { rewrite Hall. apply NoDup_seq. }
  { rewrite Hall. intros p Hp. rewrite Forall_forall in Hlt. apply elem_of_seq.
    specialize (Hlt p Hp). lia. }
  apply (count_draws_unique _ _ _ ds0).
  - by apply elem_of_all_draws.
  - rewrite sample_positions_pool by done. by rewrite Hrun0.
  - intros ds Hds%elem_of_all_draws Hf.
    rewrite sample_positions_pool in Hf by done.
    destruct (sample_pool next_draw k n (seq 0 n) ds) as [[ps' r]| |] eqn:Hrun;
      [|done..].
    injection Hf as ->.
    apply (sample_pool_inj k n (seq 0 n) ds ds0 r [] ps); try done.
    + by rewrite length_seq.
    + rewrite Hall. apply NoDup_seq.
    + apply Forall2_length in Hds. unfold pool_bounds in Hds.
      by rewrite length_fmap, length_seq in Hds.
    + apply Forall2_length in Hds0. by rewrite length_fmap, length_seq in Hds0.
Qed.

(** In the other branch any two arrangements are selected by the same
    number of the equally likely lists of draws, however long the lists
    and whatever the budget of the redraw loop. *)
Lemma sample_positions_set_count (fuel n k len : nat) (ps ps' : list nat) :
  setsize k < n → arrangement n k ps → arrangement n k ps' →
  count_draws (replicate len n) (sample_positions fuel n k) ps
  = count_draws (replicate len n) (sample_positions fuel n k) ps'.
Proof.
  intros Hn Hps Hps'. pose proof (arrangement_le n k ps Hps) as Hk.
  apply (arrangements_connected n
           (count_draws (replicate len n) (sample_positions fuel n k)))
    with (k := k); [|done..].
  intros a b v Ha Hb. apply count_draws_relabel.
  - apply swap_values_invol.
  - intros ds. apply draws_relabel_bounds. intros d Hd.
    by apply swap_values_range.
  - intros ds. rewrite !sample_positions_set by done.
    pose proof (sample_set_relabel n (swap_values a b) (swap_values_invol a b)
                  (fun x => swap_values_range a b n x Ha Hb) fuel k [] ds) as Hrel.
    simpl in Hrel. rewrite Hrel.
    by destruct (sample_set next_draw fuel k n [] (seq 0 n) ds) as [[??]| |].
Qed.

Lemma sample_positions_set_reach (fuel n k : nat) (ps : list nat) :
  setsize k < n → 0 < fuel → arrangement n k ps →
  sample_positions fuel n k ps = Some ps.
Proof.
  intros Hn Hfuel Hps. pose proof (arrangement_le n k ps Hps) as Hk.
  destruct Hps as (Hlen & Hnd & Hlt).
  rewrite sample_positions_set by done.
  rewrite sample_set_reaches; try done. by intros p _ Hp%elem_of_nil.
Qed.

(** ** The sample of a population and the positions of its items *)

Section Naturality.
Context {G : Type} (randbelow : nat → G → option (nat * G)).
Context {A B : Type} (f : A → B).

Lemma sample_pool_fmap (k m : nat) (pool : list A) (g : G) :
  sample_pool randbelow k m (f <$> pool) g
  = ('(xs, g') ← sample_pool randbelow k m pool g; Done (fmap (M := list) f xs, g')).
Proof.
  revert m pool g. induction k as [|k IH]; intros m pool g; [done|].
  cbn [sample_pool].
  destruct (randbelow m g) as [[j g1]|]; run_simpl; [|done].
  unfold get_row. rewrite !list_lookup_fmap.
  destruct (pool !! j) as [x|]; cbn [fmap option_fmap option_map]; run_simpl;
    [|done].
  destruct (pool !! (m - 1)) as [y|]; cbn [fmap option_fmap option_map];
    run_simpl; [|done].
  unfold set_row. rewrite length_fmap.
  case_decide; run_simpl; [|done].
  rewrite <- list_fmap_insert, IH.
  by destruct (sample_pool randbelow k (m - 1) (<[j:=y]> pool) g1) as [[??]| |].
Qed.

Lemma sample_set_fmap (fuel k n : nat) (selected : list nat)
    (population : list A) (g : G) :
  sample_set randbelow fuel k n selected (f <$> population) g
  = ('(xs, g') ← sample_set randbelow fuel k n selected population g;
     Done (fmap (M := list) f xs, g')).
Proof.
  revert selected g. induction k as [|k IH]; intros selected g; [done|].
  cbn [sample_set].
  destruct (draw_unselected randbelow fuel n selected g) as [[j g1]| |];
    run_simpl; [|done..].
  unfold get_row. rewrite list_lookup_fmap.
  destruct (population !! j) as [x|]; cbn [fmap option_fmap option_map];
    run_simpl; [|done].
  rewrite IH.
  by destruct (sample_set randbelow fuel k n (j :: selected) population g1)
    as [[??]| |].
Qed.

Lemma sample_fmap (fuel : nat) (population : list A) (k : nat) (g : G) :
  sample randbelow fuel (f <$> population) k g
  = ('(xs, g') ← sample randbelow fuel population k g; Done (fmap (M := list) f xs, g')).
Proof.
  unfold sample. rewrite length_fmap.
  case_decide; [done|]. case_decide; [apply sample_pool_fmap|apply sample_set_fmap].
Qed.
End Naturality.

Lemma lookup_positions {A : Type} (l : list A) :
  (fun p => l !! p) <$> seq 0 (length l) = Some <$> l.
Proof.
  apply list_eq. intros i. rewrite !list_lookup_fmap.
  destruct (decide (i < length l)) as [Hi|Hi].
  - rewrite lookup_seq_lt by done. simpl.
    by destruct (lookup_lt_is_Some_2 l i Hi) as [x ->].
  - rewrite lookup_seq_ge by lia. by rewrite lookup_ge_None_2 by lia.
Qed.

(** The items of a sample are the items at the positions the same run
    selects from [0 .. n - 1]. *)
Lemma sample_items {G A : Type} (randbelow : nat → G → option (nat * G))
    (fuel : nat) (population : list A) (k : nat) (g g' : G) (xs : list A) :
  sample randbelow fuel population k g = Done (xs, g') →
  ∃ ps, sample randbelow fuel (seq 0 (length population)) k g = Done (ps, g')
        ∧ Forall2 (fun p x => population !! p = Some x) ps xs.
Proof.
  intros Hrun.
  pose proof (sample_fmap randbelow Some fuel population k g) as Hsome.
  pose proof (sample_fmap randbelow (fun p => population !! p) fuel
                (seq 0 (length population)) k g) as Hpos.
  rewrite lookup_positions, Hsome, Hrun in Hpos. run_simpl.
  destruct (sample randbelow fuel (seq 0 (length population)) k g)
    as [[ps g'']| |]; run_simpl; [|done..].
  injection Hpos as Hxs <-. exists ps. split; [done|].
  clear -Hxs. revert xs Hxs. induction ps as [|p ps IH]; intros [|x xs] Hxs;
    [constructor|done|done|].
  rewrite !fmap_cons in Hxs. injection Hxs as Hx Hrest.
  constructor; [done|]. by apply IH.
Qed.

(** ** A run of a generator and the list of its draws *)

Section Trace.
Context {G : Type} (randbelow : nat → G → option (nat * G)).
Hypothesis randbelow_range :
  ∀ n g j g', 0 < n → randbelow n g = Some (j, g') → j < n.
Context {T : Type}.

Lemma sample_pool_trace (k m : nat) (pool : list T) (g g' : G) (xs : list T) :
  k ≤ m →
  sample_pool randbelow k m pool g = Done (xs, g') →
  ∃ ds, ∀ rest, sample_pool next_draw k m pool (ds ++ rest) = Done (xs, rest).
Proof using randbelow_range.
  revert m pool g xs. induction k as [|k IH]; intros m pool g xs Hk Hrun.
  - injection Hrun as <- <-. by exists [].
  - apply sample_pool_inv in Hrun
      as (j & g1 & x & y & xs' & Hd & Hx & Hy & -> & Hrest).
    apply IH in Hrest as [ds Hds]; [|lia]. exists (j :: ds). intros rest.
    rewrite (sample_pool_step next_draw k m j pool _ (ds ++ rest) x y);
      [by rewrite Hds| |done|done].
    apply next_draw_Some. split; [done|].
    eapply randbelow_range; [|exact Hd]. lia.
Qed.

Lemma draw_unselected_trace (fuel n j : nat) (selected : list nat) (g g' : G) :
  0 < n →
  draw_unselected randbelow fuel n selected g = Done (j, g') →
  ∃ ds, ∀ rest,
    draw_unselected next_draw fuel n selected (ds ++ rest) = Done (j, rest).
Proof using randbelow_range.
  intros Hn. revert g. induction fuel as [|fuel IH]; intros g; [done|].
  cbn [draw_unselected].
  destruct (randbelow n g) as [[d g1]|] eqn:Hd; run_simpl; [|done].
  apply randbelow_range in Hd; [|done].
  case_decide as Hsel.
  - intros [ds Hds]%IH. exists (d :: ds). intros rest.
    cbn [app draw_unselected next_draw]. rewrite decide_True by done. run_simpl.
    by rewrite decide_True.
  - intros [= <- <-]. exists [d]. intros rest.
    cbn [app draw_unselected next_draw]. rewrite decide_True by done. run_simpl.
    by rewrite decide_False.
Qed.

Lemma sample_set_trace (fuel k n : nat) (selected : list nat)
    (population : list T) (g g' : G) (xs : list T) :
  0 < n →
  sample_set randbelow fuel k n selected population g = Done (xs, g') →
  ∃ ds, ∀ rest,
    sample_set next_draw fuel k n selected population (ds ++ rest)
    = Done (xs, rest).
Proof using randbelow_range.
  intros Hn. revert selected g xs.
  induction k as [|k IH]; intros selected g xs Hrun.
  - injection Hrun as <- <-. by exists [].
  - apply sample_set_inv in Hrun as (j & g1 & x & xs' & Hd & Hx & -> & Hrest).
    apply draw_unselected_trace in Hd as [ds1 Hds1]; [|done].
    apply IH in Hrest as [ds2 Hds2]. exists (ds1 ++ ds2). intros rest.
    rewrite <- app_assoc.
    rewrite (sample_set_step next_draw fuel k n j selected population _
               (ds2 ++ rest) x); [by rewrite Hds2|done|done].
Qed.

(** A run that returns is the run on the list of the draws the generator
    returned. *)
Lemma sample_trace (fuel : nat) (population : list T) (k : nat) (g g' : G)
    (xs : list T) :
  sample randbelow fuel population k g = Done (xs, g') →
  ∃ ds, sample next_draw fuel population k ds = Done (xs, []).
Proof using randbelow_range.
  unfold sample. case_decide; [done|]. case_decide.
  - intros [ds Hds]%sample_pool_trace; [|lia]. exists ds.
    specialize (Hds []). by rewrite app_nil_r in Hds.
  - intros [ds Hds]%sample_set_trace; [|lia]. exists ds.
    specialize (Hds []). by rewrite app_nil_r in Hds.
Qed.
End Trace.

(** What a sample is, for any generator that stays within its range:
    items at the positions of an arrangement, which the algorithm selects
    from the draws the generator returned. *)
Lemma sample_spec {G T : Type} (randbelow : nat → G → option (nat * G))
    (fuel : nat) (population : list T) (k : nat) (g g' : G) (xs : list T) :
  (∀ n g j g', 0 < n → randbelow n g = Some (j, g') → j < n) →
  sample randbelow fuel population k g = Done (xs, g') →
  ∃ ds ps,
    sample_positions fuel (length population) k ds = Some ps
    ∧ arrangement (length population) k ps
    ∧ Forall2 (fun p x => population !! p = Some x) ps xs.
Proof.
  intros Hrange Hrun.
  apply sample_items in Hrun as (ps & Hpos & Hitems).
  apply (sample_trace randbelow Hrange) in Hpos as [ds Hds].
  assert (Hsp : sample_positions fuel (length population) k ds = Some ps)
    by (unfold sample_positions; by rewrite Hds).
  exists ds, ps. split; [done|]. split; [|done].
  by eapply sample_positions_sound.
Qed.

Lemma sample_too_large {G T : Type} (randbelow : nat → G → option (nat * G))
    (fuel : nat) (population : list T) (k : nat) (g : G) :
  length population < k →
  sample randbelow fuel population k g = Failed ValueError.
Proof. intros Hk. unfold sample. by rewrite decide_True. Qed.

Lemma sample_not_Failed {G T : Type} (randbelow : nat → G → option (nat * G))
    (fuel : nat) (population : list T) (k : nat) (g : G) (e : exn) :
  (∀ n g j g', 0 < n → randbelow n g = Some (j, g') → j < n) →
  k ≤ length population →
  sample randbelow fuel population k g ≠ Failed e.
Proof.
  intros Hrange Hk. unfold sample. rewrite decide_False by lia. case_decide.
  - by apply sample_pool_not_Failed.
  - apply sample_set_not_Failed; [|done].
    intros g0 j g1. apply Hrange. lia.
Qed.

Lemma sample_pool_branch_Done {G T : Type}
    (randbelow : nat → G → option (nat * G))
    (fuel : nat) (population : list T) (k : nat) (g : G) :
  (∀ n g0, 0 < n → ∃ j g1, randbelow n g0 = Some (j, g1) ∧ j < n) →
  k ≤ length population → length population ≤ setsize k →
  ∃ xs g', sample randbelow fuel population k g = Done (xs, g').
Proof.
  intros Hgen Hk Hn. unfold sample.
  rewrite decide_False by lia. rewrite decide_True by done.
  by apply sample_pool_Done.
Qed.

(** With a generator that answers and whose redraw loops end,
    [random.sample] returns once its budget is large enough. *)
Lemma sample_total {G T : Type} (randbelow : nat → G → option (nat * G))
    (population : list T) (k : nat) (g : G) :
  redraws_end randbelow →
  (∀ n g0, 0 < n → ∃ j g1, randbelow n g0 = Some (j, g1) ∧ j < n) →
  (∀ n g0 j g1, 0 < n → randbelow n g0 = Some (j, g1) → j < n) →
  k ≤ length population →
  ∃ fuel0 r, ∀ fuel, fuel0 ≤ fuel →
    sample randbelow fuel population k g = Done r.
Proof.
  intros Hend Hgen Hrange Hk.
  destruct (decide (length population ≤ setsize k)) as [Hn|Hn].
  - destruct (sample_pool_Done randbelow k (length population) population g
                Hgen Hk ltac:(lia)) as (xs & g' & Hs).
    exists 0, (xs, g'). intros fuel _. unfold sample.
    rewrite decide_False by lia. by rewrite decide_True.
  - destruct (sample_set_total randbelow k (length population) [] population g
                Hend) as (fuel0 & r & Hs); [|lia|simpl; lia|].
    { intros g0 j g1. apply Hrange. lia. }
    exists fuel0, r. intros fuel Hle. unfold sample.
    rewrite decide_False by lia. rewrite decide_False by done.
    by eapply sample_set_mono.
Qed.

(** ** [np.random.choice]: counting *)

Lemma Forall2_replicate_bounds (ds : list nat) (size a : nat) :
  Forall2 (fun d b => d < b) ds (replicate size a)
  ↔ length ds = size ∧ Forall (fun d => d < a) ds.
Proof.
  revert ds. induction size as [|size IH]; intros ds; simpl.
  - split.
    + by intros ->%Forall2_nil_inv_r.
    + intros [Hl _]. destruct ds; [constructor|done].
  - split.
    + intros (d & ds' & Hd & Hf & ->)%Forall2_cons_inv_r.
      apply IH in Hf as [Hl Hf]. split; [simpl; lia|by constructor].
    + intros [Hl Hf]. destruct ds as [|d ds']; [done|].
      apply Forall_cons in Hf as [Hd Hf]. constructor; [done|].
      apply IH. split; [simpl in Hl; lia|done].
Qed.

(** Every index array of the right shape is produced by exactly one of
    the [a ^ size] equally likely lists of draws. *)
Lemma choice_of_draws_count (a size : nat) (idxs : list nat) :
  length idxs = size → Forall (fun i => i < a) idxs →
  count_draws (replicate size a) (fun ds => Some (choice_of_draws a ds)) idxs = 1.
Proof.
  intros Hlen Hlt. apply (count_draws_unique _ _ _ idxs).
  - by apply elem_of_all_draws, Forall2_replicate_bounds.
  - by rewrite choice_of_draws_id.
  - intros ds [_ Hds]%elem_of_all_draws%Forall2_replicate_bounds.
    rewrite choice_of_draws_id by done. by intros [= ->].
Qed.

(** [ceil_log4 x] is the least exponent [e] with [x <= 4 ^ e]. *)
Lemma ceil_log4_spec (x : nat) :
  1 < x → 4 ^ (ceil_log4 x - 1) < x ∧ x ≤ 4 ^ ceil_log4 x.
Proof.
  intros Hx. unfold ceil_log4.
  destruct (Nat.log2_up_spec x Hx) as [Hlo Hhi].
  set (L := Nat.log2_up x) in *.
  assert (HL : 0 < L) by (apply Nat.log2_up_pos; lia).
  assert (H4 : ∀ e, 4 ^ e = 2 ^ (2 * e)).
  { intros e. rewrite Nat.pow_mul_r. done. }
  rewrite !H4. split.
  - eapply Nat.le_lt_trans; [|exact Hlo].
    apply Nat.pow_le_mono_r; [lia|].
    pose proof (Nat.div_mod_eq (L + 1) 2) as Hdm.
    pose proof (Nat.mod_upper_bound (L + 1) 2). lia.
  - eapply Nat.le_trans; [exact Hhi|].
    apply Nat.pow_le_mono_r; [lia|].
    pose proof (Nat.div_mod_eq (L + 1) 2) as Hdm.
    pose proof (Nat.mod_upper_bound (L + 1) 2). lia.
Qed.

(** ** [random.sample] with the generator of the discrete variant *)

Section SampleFacts.
Context {num Frame WB : Type} `{!@Breakout.World num Frame WB}.
Context {T : Type}.

Lemma randbelow_range (n : nat) (w w' : WB) (j : nat) :
  0 < n → Breakout.randbelow n w = Some (j, w') → j < n.
Proof.
  intros Hn. unfold Breakout.randbelow.
  destruct (Breakout.random_below w n) as [r w1]. intros [= <- <-].
  apply Nat.mod_upper_bound. lia.
Qed.

Lemma randbelow_answers (n : nat) (w : WB) :
  0 < n → ∃ j w', Breakout.randbelow n w = Some (j, w') ∧ j < n.
Proof.
  intros Hn. unfold Breakout.randbelow.
  destruct (Breakout.random_below w n) as [r w1]. exists (r mod n), w1.
  split; [done|]. apply Nat.mod_upper_bound. lia.
Qed.

Lemma random_sample_too_large (fuel : nat) (population : list T) (k : nat)
    (w : WB) :
  length population < k →
  Breakout.random_sample fuel population k w = Failed ValueError.
Proof. apply sample_too_large. Qed.

Lemma random_sample_not_Failed (fuel : nat) (population : list T) (k : nat)
    (w : WB) (e : exn) :
  k ≤ length population →
  Breakout.random_sample fuel population k w ≠ Failed e.
Proof.
  apply sample_not_Failed. intros n g j g' Hn. by apply randbelow_range.
Qed.

Lemma random_sample_spec (fuel : nat) (population : list T) (k : nat)
    (w w' : WB) (xs : list T) :
  Breakout.random_sample fuel population k w = Done (xs, w') →
  ∃ ds ps,
    sample_positions fuel (length population) k ds = Some ps
    ∧ arrangement (length population) k ps
    ∧ Forall2 (fun p x => population !! p = Some x) ps xs.
Proof.
  apply sample_spec. intros n g j g' Hn. by apply randbelow_range.
Qed.

Lemma random_sample_pool_Done (fuel : nat) (population : list T) (k : nat)
    (w : WB) :
  k ≤ length population → length population ≤ setsize k →
  ∃ xs w', Breakout.random_sample fuel population k w = Done (xs, w').
Proof.
  apply sample_pool_branch_Done. intros n g Hn. by apply randbelow_answers.
Qed.

Lemma random_sample_total (population : list T) (k : nat) (w : WB) :
  redraws_end Breakout.randbelow →
  k ≤ length population →
  ∃ fuel0 xs w', ∀ fuel, fuel0 ≤ fuel →
    Breakout.random_sample fuel population k w = Done (xs, w').
Proof.
  intros Hend Hk.
  destruct (sample_total Breakout.randbelow population k w Hend)
    as (fuel0 & [xs w'] & Hs); [| |done|by exists fuel0, xs, w'].
  - intros n g Hn. by apply randbelow_answers.
  - intros n g j g' Hn. by apply randbelow_range.
Qed.

Lemma random_sample_subset (fuel : nat) (population : list T) (k : nat)
    (w w' : WB) (xs : list T) (x : T) :
  Breakout.random_sample fuel population k w = Done (xs, w') →
  x ∈ xs → x ∈ population.
Proof.
  intros (ds & ps & _ & _ & Hitems)%random_sample_spec Hx.
  apply list_elem_of_lookup_1 in Hx as [i Hi].
  destruct (Forall2_lookup_r _ _ _ _ _ Hitems Hi) as (p & _ & Hp).
  by eapply list_elem_of_lookup_2.
Qed.
End SampleFacts.

(** ** C2: what a sampled batch is *)

(** C2, as the code has it.  Continuous variant: on a store that holds
    at least one transition [learn] succeeds; its index array has one
    entry per draw of [np.random.choice], each below [record_range] and
    depending on that draw alone, and the four arrays it hands to
    [update] are aligned: position [j] of each is a field of the recorded
    transition in the slot of index [j].  Every index array of that shape
    is produced by exactly one of the [record_range ^ size] equally
    likely lists of draws, so the indices are uniform and drawn with
    replacement.  Discrete variant: [train] raises [ValueError] for a
    batch larger than the store and does not raise for any other; when
    its [random.sample] returns (it always does for stores of at most
    [setsize] items), the minibatch holds the stored items at pairwise
    distinct positions, and these are the positions the algorithm selects
    from the draws the generator returned: no replacement.  Among the
    equally likely lists of draws every arrangement of distinct positions
    is selected by exactly one (pool branch) or by as many as any other
    arrangement (branch with redraws), so arrangements are equally
    likely.  The branch with redraws returns once the budget for its
    redraw loops is large enough, provided these loops end. *)
Theorem sampled_batch {num : Type} `{NumOps num} {Opt : Type}
    `{!@ActorCritic num Opt} {W : Type} `{!@World num W}
    {Frame State Model Weights WB : Type}
    `{!@Breakout.QNetwork num Frame State Model Weights}
    `{!@Breakout.World num Frame WB}
    (zs za : list num) (zr : num) (C bs : nat)
    (ts : list (Transition (list num) (list num) num))
    (b : Buffer (list num) (list num) num)
    (g : num) (m : @Models num Opt) (w : W)
    (self : @Breakout.DQN num State Model) (k fuel : nat) (wb : WB) :
  0 < C →
  0 < length ts →
  record_all (Buffer_init zs za zr C bs) ts = Ok b →
  let a := record_range b in
  let raws := (raw_draws a (batch_size b) w).1 in
  let idxs := choice_of_draws a raws in
  let n := length (Breakout.replay_buffer self) in
  (* continuous variant: the batch of [learn] *)
  (∃ sb ab rb nb,
     learn g b m w
     = Ok (update g m sb ab (map cast32 rb) nb, (raw_draws a (batch_size b) w).2)
     ∧ learn_batch b idxs = Ok (sb, ab, rb, nb)
     ∧ length idxs = batch_size b
     ∧ Forall (fun i => i < a) idxs
     ∧ (∀ j, idxs !! j = (fun r => r mod a) <$> raws !! j)
     ∧ length sb = batch_size b ∧ length ab = batch_size b
     ∧ length rb = batch_size b ∧ length nb = batch_size b
     ∧ ∀ j i, idxs !! j = Some i →
         ∃ s act r s' i',
           ts !! i' = Some (s, act, r, s')
           ∧ slot b i = Some (s, act, r, s')
           ∧ sb !! j = Some s ∧ ab !! j = Some act
           ∧ rb !! j = Some r ∧ nb !! j = Some s')
  (* its indices are uniform on [0, record_range), with replacement *)
  ∧ (∀ size v, length v = size → Forall (fun i => i < a) v →
       count_draws (replicate size a) (fun ds => Some (choice_of_draws a ds)) v = 1)
  ∧ (∀ size, length (all_draws (replicate size a)) = a ^ size)
  (* discrete variant: the minibatch of [train] *)
  ∧ (n < k → Breakout.train fuel self k wb = Failed ValueError)
  ∧ (k ≤ n →
       (∀ e, Breakout.train fuel self k wb = Failed e →
             ∃ mb wb',
               Breakout.random_sample fuel (Breakout.replay_buffer self) k wb
               = Done (mb, wb')
               ∧ Breakout.train_loop self mb = Raise e)
       ∧ (n ≤ setsize k →
          ∃ mb wb',
            Breakout.random_sample fuel (Breakout.replay_buffer self) k wb
            = Done (mb, wb'))
       ∧ ∀ mb wb',
           Breakout.random_sample fuel (Breakout.replay_buffer self) k wb
           = Done (mb, wb') →
           Breakout.train fuel self k wb
           = (self' ← of_res (Breakout.train_loop self mb); Done (self', wb'))
           ∧ ∃ ds ps,
               sample_positions fuel n k ds = Some ps
               ∧ arrangement n k ps
               ∧ Forall2 (fun p x => Breakout.replay_buffer self !! p = Some x)
                   ps mb)
  (* its positions are uniform among the arrangements, without replacement *)
  ∧ (∀ ds ps, sample_positions fuel n k ds = Some ps → arrangement n k ps)
  ∧ (n ≤ setsize k → ∀ ps, arrangement n k ps →
       count_draws (pool_bounds n k) (sample_positions fuel n k) ps = 1)
  ∧ (setsize k < n → ∀ len ps ps', arrangement n k ps → arrangement n k ps' →
       count_draws (replicate len n) (sample_positions fuel n k) ps
       = count_draws (replicate len n) (sample_positions fuel n k) ps')
  ∧ (setsize k < n → 0 < fuel → ∀ ps, arrangement n k ps →
       sample_positions fuel n k ps = Some ps)
  (* with redraw loops that end, the sample is returned *)
  ∧ (k ≤ n → redraws_end Breakout.randbelow →
       ∃ fuel0 mb wb', ∀ fuel', fuel0 ≤ fuel' →
         Breakout.random_sample fuel' (Breakout.replay_buffer self) k wb
         = Done (mb, wb')).
Proof.
  intros HC Hts Hrec a raws idxs n.
  destruct (record_all_spec zs za zr C [] ts _ HC (ring_inv_init zs za zr C bs))
    as (b' & Hb' & Hinv).
  simpl in Hinv. rewrite Hrec in Hb'. injection Hb' as <-.
  assert (Hrange : 0 < a).
  { unfold a, record_range.
    rewrite (ri_counter _ _ _ _ _ _ Hinv), (ri_capacity _ _ _ _ _ _ Hinv). lia. }
  assert (Hidx : Forall (fun i => i < a) idxs) by by apply choice_of_draws_bound.
  split.
  { destruct (learn_batch_valid zs za zr C ts b idxs HC Hinv Hidx)
      as [[[[[sb ab] rb] nb] Hok] Hvalid].
    destruct (learn_batch_aligned b idxs sb ab rb nb Hok)
      as (L1 & L2 & L3 & L4 & Hal).
    assert (Hlen : length idxs = batch_size b).
    { unfold idxs, raws. by rewrite choice_of_draws_length, raw_draws_length. }
    exists sb, ab, rb, nb. split.
    { unfold learn. fold (record_range b). fold a.
      rewrite np_random_choice_Ok by done. cbn [mbind res_bind].
      fold raws. fold idxs. rewrite Hok. done. }
    split; [done|]. split; [done|]. split; [done|].
    split; [apply choice_of_draws_lookup|].
    do 4 (split; [congruence|]).
    intros j i Hj.
    destruct (Hal j i Hj) as (s & act & r & s' & Hslot & Hfields).
    destruct (Hvalid i) as (i' & _ & Hi'); [by eapply list_elem_of_lookup_2|].
    exists s, act, r, s', i'.
    split; [exact (eq_trans (eq_sym Hi') Hslot)|]. by split. }
  split; [intros size v; apply choice_of_draws_count|].
  split; [intros size; apply length_all_draws_replicate|].
  split.
  { intros Hk. unfold Breakout.train. by rewrite random_sample_too_large. }
  split.
  { intros Hk. split.
    { intros e. unfold Breakout.train.
      destruct (Breakout.random_sample fuel (Breakout.replay_buffer self) k wb)
        as [[mb wb']|e'|] eqn:Hs; cbn [mbind run_bind]; [| |done].
      - destruct (Breakout.train_loop self mb) as [self'|e''] eqn:Hloop;
          cbn [of_res mbind run_bind]; [done|].
        intros [= ->]. by exists mb, wb'.
      - by apply random_sample_not_Failed in Hs. }
    split; [by apply random_sample_pool_Done|].
    intros mb wb' Hs. split.
    - unfold Breakout.train. by rewrite Hs.
    - by eapply random_sample_spec. }
  split; [intros ds ps; apply sample_positions_sound|].
  split; [intros Hn ps; by apply sample_positions_pool_count|].
  split; [intros Hn len ps ps'; by apply sample_positions_set_count|].
  split; [intros Hn Hfuel ps; by apply sample_positions_set_reach|].
  intros Hk Hend. by apply random_sample_total.
Qed.

Lemma sampled_batch_witness :
  let b := mkBuffer 4 2 2 [[0]; [1]; [0]; [0]]%Z [[0]; [0]; [0]; [0]]%Z
             [0; 0; 0; 0]%Z [[1]; [2]; [0]; [0]]%Z in
  let self := Breakout.mkDQN 2 [(tt, 0, 1%Z, tt, false); (tt, 1, 2%Z, tt, false);
                                 (tt, 0, 3%Z, tt, true)]
                9%Z 8%Z 1000 [10%Z; 20%Z] [30%Z; 40%Z] in
  0 < 4
  ∧ 0 < length [([0], [0], 0, [1]); ([1], [0], 0, [2])]%Z
  ∧ record_all (Buffer_init [0%Z] [0%Z] 0%Z 4 2)
      [([0], [0], 0, [1]); ([1], [0], 0, [2])]%Z = Ok b
  ∧ (∃ sb ab rb nb,
       learn 1%Z b (mkModels [] [] [] [] tt tt) (Toy.mkWorld [] [3; 0])
       = Ok (update 1%Z (mkModels [] [] [] [] tt tt) sb ab (map cast32 rb) nb,
             Toy.mkWorld [] [])
       ∧ learn_batch b [1; 0] = Ok (sb, ab, rb, nb))
  ∧ Breakout.random_sample 0 (Breakout.replay_buffer self) 2 [0; 0]
    = Done ([(tt, 0, 1%Z, tt, false); (tt, 0, 3%Z, tt, true)], [])
  ∧ count_draws (pool_bounds 3 2) (sample_positions 0 3 2) [0; 2] = 1.
Proof.
  intros b self.
  split; [lia|]. split; [simpl; lia|]. split; [reflexivity|].
  pose proof (@sampled_batch Z Z_NumOps unit Toy.toy_nets Toy.world Toy.toy_world
                unit unit (list Z) (list Z) (list nat) Toy.toy_qnet Toy.toy_game
                [0%Z] [0%Z] 0%Z 4 2 [([0], [0], 0, [1]); ([1], [0], 0, [2])]%Z b
                1%Z (mkModels [] [] [] [] tt tt) (Toy.mkWorld [] [3; 0])
                self 2 0 [0; 0] ltac:(lia) ltac:(simpl; lia) eq_refl)
    as ((sb & ab & rb & nb & Hlearn & Hbatch & _) & _ & _ & _ & _ & _ & Hcount & _).
  split; [by exists sb, ab, rb, nb|].
  split; [reflexivity|].
  apply (Hcount ltac:(vm_compute; lia)).
  split; [done|]. split; [|repeat constructor; lia].
  apply NoDup_cons. split; [|apply NoDup_singleton].
  intros Hin%list_elem_of_singleton. discriminate Hin.
Defined.

(** The discrete variant does not sample with replacement: from a store
    of two transitions no run of the generator yields the index pair
    [(0, 0)], which sampling with replacement from [[0, 2)] can draw. *)
Lemma dqn_sample_not_with_replacement :
  ¬ (∀ idxs : list nat,
       length idxs = 2 →
       Forall (fun i => i < 2) idxs →
       ∃ (fuel : nat) (wb wb' : list nat) (mb : list nat),
         @Breakout.random_sample Z unit (list nat) Toy.toy_game nat
           fuel [10; 20] 2 wb = Done (mb, wb')
         ∧ Forall2 (fun i x => [10; 20] !! i = Some x) idxs mb).
Proof.
  intros Hall.
  destruct (Hall [0; 0] eq_refl ltac:(repeat constructor))
    as (fuel & wb & wb' & mb & Hs & Hf).
  apply random_sample_spec in Hs as (ds & ps & _ & (_ & Hnd & _) & Hps).
  apply Forall2_cons_inv_l in Hf as (x1 & l1 & Hx1 & Hf & ->).
  apply Forall2_cons_inv_l in Hf as (x2 & l2 & Hx2 & Hf & ->).
  apply Forall2_nil_inv_l in Hf as ->.
  simpl in Hx1, Hx2. injection Hx1 as <-. injection Hx2 as <-.
  apply Forall2_cons_inv_r in Hps as (p1 & ps1 & Hp1 & Hps & ->).
  apply Forall2_cons_inv_r in Hps as (p2 & ps2 & Hp2 & Hps & ->).
  apply Forall2_nil_inv_r in Hps as ->.
  assert (p1 = 0) as -> by (destruct p1 as [|[|?]]; [done|discriminate Hp1..]).
  assert (p2 = 0) as -> by (destruct p2 as [|[|?]]; [done|discriminate Hp2..]).
  apply NoDup_cons in Hnd as [Hnotin _]. apply Hnotin. left.
Qed.

(** ** The exploration noise *)

Section NoiseFacts.
Context {num : Type} `{NumOps num}.

Lemma vv_same_shape (f : num → num → num) (u v : list num) :
  length u = length v → vv f u v = Ok (zip_with f u v).
Proof. intros Hl. unfold vv. by rewrite decide_True. Qed.

Lemma OU_reset_x_prev (self : OUActionNoise) :
  x_prev (OU_reset self)
  = match x_initial self with
    | Some x0 => x0
    | None => replicate (length (mean self)) n0
    end.
Proof. unfold OU_reset. by destruct (x_initial self). Qed.

Lemma OU_call_inv (self self' : OUActionNoise) (z x : list num) :
  OU_call self z = Ok (x, self') →
  OU_next self z = Ok x ∧ self' = set_x_prev self x.
Proof.
  unfold OU_call. destruct (OU_next self z) as [x'|e]; [|done].
  cbn [mbind res_bind]. by intros [= <- <-].
Qed.

(** With agreeing shapes the expression of [__call__] is evaluated
    component by component. *)
Lemma OU_next_same_shape (self : OUActionNoise) (z : list num) :
  length (x_prev self) = length (mean self) →
  length (std_dev self) = length (mean self) →
  length z = length (mean self) →
  OU_next self z
  = Ok (zip_with nadd
          (zip_with nadd (x_prev self)
             (map (fun e => theta self ⊗ e ⊗ dt self)
                (zip_with nsub (mean self) (x_prev self))))
          (zip_with nmul
             (map (fun s => s ⊗ nsqrt (dt self)) (std_dev self)) z)).
Proof.
  intros H1 H2 H3. unfold OU_next.
  rewrite (vv_same_shape nsub) by done. cbn [mbind res_bind].
  rewrite (vv_same_shape nadd)
    by (rewrite length_map, length_zip_with; lia).
  cbn [mbind res_bind].
  rewrite (vv_same_shape nmul) by (rewrite length_map; lia).
  cbn [mbind res_bind].
  rewrite (vv_same_shape nadd); [done|].
  rewrite !length_zip_with, !length_map, length_zip_with. lia.
Qed.

Context {W : Type} `{!@World num W}.

(** [np.random.normal(size=mean.shape)] has the shape of [mean]. *)
Lemma np_random_normal_length (n : nat) (w : W) :
  length (np_random_normal n w).1 = n.
Proof.
  revert w. induction n as [|n IH]; intros w; simpl; [done|].
  destruct (random_normal w) as [z w1].
  specialize (IH w1). destruct (np_random_normal n w1) as [zs w2].
  simpl in *. by rewrite IH.
Qed.
End NoiseFacts.

(** ** C9: one sample of the Ornstein-Uhlenbeck process *)

(** C9.  For a noise object whose arrays have the shape of [mean] and a
    normal draw [z] of that shape (which is the shape
    [np.random.normal(size=mean.shape)] returns), [__call__] returns
    [x = x_prev + theta * (mean - x_prev) * dt + std_dev * sqrt(dt) * z]
    component by component, stores [x] as the new [x_prev] and changes no
    other attribute; the next call therefore starts from [x]. *)
Theorem ou_sample {num : Type} `{NumOps num} {W : Type} `{!@World num W}
    (self : OUActionNoise) (z z2 : list num) (w : W) :
  length (x_prev self) = length (mean self) →
  length (std_dev self) = length (mean self) →
  length z = length (mean self) →
  length (np_random_normal (length (mean self)) w).1 = length (mean self)
  ∧ ∃ x,
      OU_call self z = Ok (x, set_x_prev self x)
      ∧ x_prev (set_x_prev self x) = x
      ∧ length x = length (mean self)
      ∧ (∀ i xp m sd zi,
           x_prev self !! i = Some xp → mean self !! i = Some m →
           std_dev self !! i = Some sd → z !! i = Some zi →
           x !! i = Some (xp ⊕ theta self ⊗ (m ⊖ xp) ⊗ dt self
                             ⊕ sd ⊗ nsqrt (dt self) ⊗ zi))
      ∧ (∀ i x1 m sd zi x2 s2,
           x !! i = Some x1 → mean self !! i = Some m →
           std_dev self !! i = Some sd → z2 !! i = Some zi →
           length z2 = length (mean self) →
           OU_call (set_x_prev self x) z2 = Ok (x2, s2) →
           x2 !! i = Some (x1 ⊕ theta self ⊗ (m ⊖ x1) ⊗ dt self
                              ⊕ sd ⊗ nsqrt (dt self) ⊗ zi)).
Proof.
  intros H1 H2 H3.
  assert (Hcomp : ∀ (s : OUActionNoise) (zz : list num),
    length (x_prev s) = length (mean s) →
    length (std_dev s) = length (mean s) →
    length zz = length (mean s) →
    ∃ x, OU_next s zz = Ok x ∧ length x = length (mean s)
         ∧ ∀ i xp m sd zi,
             x_prev s !! i = Some xp → mean s !! i = Some m →
             std_dev s !! i = Some sd → zz !! i = Some zi →
             x !! i = Some (xp ⊕ theta s ⊗ (m ⊖ xp) ⊗ dt s
                               ⊕ sd ⊗ nsqrt (dt s) ⊗ zi)).
  { intros s zz E1 E2 E3. eexists. split; [by apply OU_next_same_shape|].
    split.
    - rewrite !length_zip_with, !length_map, length_zip_with. lia.
    - intros i xp m sd zi Hxp Hm Hsd Hzi.
      rewrite !lookup_zip_with, !list_lookup_fmap, lookup_zip_with.
      by rewrite Hxp, Hm, Hsd, Hzi. }
  split; [apply np_random_normal_length|].
  destruct (Hcomp self z H1 H2 H3) as (x & Hx & Hlen & Hform).
  exists x. unfold OU_call at 1. rewrite Hx. cbn [mbind res_bind].
  split; [done|]. split; [done|]. split; [done|]. split; [done|].
  intros i x1 m sd zi x2 s2 Hx1 Hm Hsd Hzi Hz2 Hcall.
  apply OU_call_inv in Hcall as [Hnext _].
  destruct (Hcomp (set_x_prev self x) z2) as (x' & Hx' & _ & Hform'); try done.
  rewrite Hnext in Hx'. injection Hx' as <-.
  by apply Hform'.
Qed.

(** The notebook's shape, over the integers: [x_prev = 2], [theta = 3],
    [mean = 10], [dt = 4], [std_dev = 5], [z = 7] give
    [2 + 3 * (10 - 2) * 4 + 5 * sqrt 4 * 7 = 168]. *)
Lemma ou_sample_witness :
  let self := mkOU 3%Z [10%Z] [5%Z] 4%Z None [2%Z] in
  length (x_prev self) = length (mean self)
  ∧ length (std_dev self) = length (mean self)
  ∧ length [7%Z] = length (mean self)
  ∧ OU_call self [7%Z] = Ok ([168%Z], set_x_prev self [168%Z]).
Proof.
  intros self. do 3 (split; [reflexivity|]).
  destruct (ou_sample self [7%Z] [0%Z] (Toy.mkWorld [] []) eq_refl eq_refl eq_refl)
    as (_ & x & Hcall & _ & _ & Hform & _).
  specialize (Hform 0 2%Z 10%Z 5%Z 7%Z eq_refl eq_refl eq_refl eq_refl).
  destruct x as [|x0 [|? ?]]; try discriminate Hcall.
  injection Hform as ->. exact Hcall.
Defined.

(** ** C7: the policy clips after adding the noise *)

Section ClipFacts.
Context {num : Type} `{NumOps num}.
(** The comparison is total (on floats: no NaN takes part). *)
Hypothesis nleb_total : ∀ a b : num, nleb a b = false → nleb b a = true.

Lemma nleb_refl (a : num) : nleb a a = true.
Proof using nleb_total.
  destruct (nleb a a) eqn:E; [done|]. pose proof (nleb_total _ _ E). congruence.
Qed.

Lemma clip_in_range (x lo hi : num) :
  nleb lo hi = true →
  nleb lo (clip x lo hi) = true ∧ nleb (clip x lo hi) hi = true.
Proof using nleb_total.
  intros Hlohi. unfold clip, nmin, nmax.
  destruct (nleb x lo) eqn:E1.
  - destruct (nleb lo hi) eqn:E2; [|done]. split; [apply nleb_refl|done].
  - destruct (nleb x hi) eqn:E2.
    + split; [by apply nleb_total|done].
    + split; [done|apply nleb_refl].
Qed.
End ClipFacts.

(** C7.  When the comparison of numbers is total and
    [lower_bound <= upper_bound], every action [policy] returns is the
    actor's output plus the noise sample, clipped afterwards, and each of
    its components lies in [[lower_bound, upper_bound]] whatever the
    state and the draws of the generator are.  [policy] does return an
    action whenever the arrays of the noise object have the shape of
    [mean]. *)
Theorem policy_clipped {num : Type} `{NumOps num} {Opt : Type}
    `{!@ActorCritic num Opt} {W : Type} `{!@World num W}
    (actor : list (list num)) (lower_bound upper_bound : num)
    (state : list num) (noise_object : OUActionNoise) (w : W) :
  (∀ a b : num, nleb a b = false → nleb b a = true) →
  nleb lower_bound upper_bound = true →
  (∀ action noise' w',
     policy actor lower_bound upper_bound state noise_object w
     = Ok (action, noise', w') →
     (∃ noise,
        OU_call noise_object
          (np_random_normal (length (mean noise_object)) w).1
        = Ok (noise, noise')
        ∧ action = map (fun n => clip (actor_fwd actor state ⊕ n)
                                   lower_bound upper_bound) noise)
     ∧ Forall (fun a => nleb lower_bound a = true ∧ nleb a upper_bound = true)
         action)
  ∧ (length (x_prev noise_object) = length (mean noise_object) →
     length (std_dev noise_object) = length (mean noise_object) →
     is_Ok (policy actor lower_bound upper_bound state noise_object w)).
Proof.
  intros Htotal Hbounds. split.
  - intros action noise' w'. unfold policy.
    destruct (np_random_normal (length (mean noise_object)) w) as [z w1].
    destruct (OU_call noise_object z) as [[noise n']|e] eqn:Hcall; [|done].
    cbn [mbind res_bind]. intros [= <- <- <-]. split.
    + exists noise. split; [done|]. by rewrite map_map.
    + apply Forall_forall. intros a Ha.
      apply list_elem_of_fmap in Ha as (y & -> & _).
      by apply clip_in_range.
  - intros Hs1 Hs2. unfold policy.
    pose proof (np_random_normal_length (length (mean noise_object)) w) as Hz.
    destruct (np_random_normal (length (mean noise_object)) w) as [z w1].
    simpl in Hz.
    unfold OU_call. rewrite OU_next_same_shape by done.
    cbn [mbind res_bind]. by eexists.
Qed.

Lemma policy_clipped_witness :
  (∀ a b : Z, (a <=? b)%Z = false → (b <=? a)%Z = true)
  ∧ (-2 <=? 2)%Z = true
  ∧ policy (Opt := unit) [] (-2)%Z 2%Z [0; 0; 0]%Z
      (mkOU 0%Z [0%Z] [1%Z] 1%Z None [0%Z]) (Toy.mkWorld [5%Z] [])
    = Ok ([2%Z], mkOU 0%Z [0%Z] [1%Z] 1%Z None [5%Z], Toy.mkWorld [] [])
  ∧ Forall (fun a => (-2 <=? a)%Z = true ∧ (a <=? 2)%Z = true) [2%Z].
Proof.
  assert (Htotal : ∀ a b : Z, (a <=? b)%Z = false → (b <=? a)%Z = true).
  { intros a b Hab. apply Z.leb_le. apply Z.leb_gt in Hab. lia. }
  split; [exact Htotal|]. split; [reflexivity|]. split; [reflexivity|].
  exact (proj2 (proj1 (policy_clipped (Opt := unit) [] (-2)%Z 2%Z [0; 0; 0]%Z
                         (mkOU 0%Z [0%Z] [1%Z] 1%Z None [0%Z])
                         (Toy.mkWorld [5%Z] []) Htotal eq_refl)
                  [2%Z] (mkOU 0%Z [0%Z] [1%Z] 1%Z None [5%Z])
                  (Toy.mkWorld [] []) eq_refl)).
Defined.

(** ** C3: the noise state across episodes *)

Section TrainerFacts.
Context {num : Type} `{NumOps num} {Opt : Type} `{!@ActorCritic num Opt}.
Context {W : Type} `{!@World num W}.

Lemma episode_reset_noise (st : @Trainer num Opt W) :
  ou_noise (episode_reset st) = ou_noise st.
Proof. unfold episode_reset. by destruct (env_reset (world st)). Qed.

Lemma episode_end_noise (ep : nat) (st : @Trainer num Opt W) :
  ou_noise (episode_end ep st) = ou_noise st.
Proof. done. Qed.

Lemma after_step_inv (cfg : @Config num) (st st' : @Trainer num Opt W) (action : list num)
    (noise' : OUActionNoise) (state : list num) (reward : num)
    (done truncated brk : bool) (w : W) :
  after_step cfg st action noise' state reward done truncated w = Ok (st', brk) →
  ou_noise st' = noise'
  ∧ brk = done || truncated
  ∧ record_rows (buffer st) (prev_state st, action, reward, state)
    = Ok (buffer st').
Proof.
  unfold after_step.
  destruct (record_rows _ _) as [b'|]; [|done]. cbn [mbind res_bind].
  destruct (learn _ _ _ _) as [[m1 w']|]; [|done]. cbn [mbind res_bind].
  destruct (update_target (target_actor m1) _ _) as [ta|]; [|done].
  cbn [mbind res_bind].
  destruct (update_target (target_critic m1) _ _) as [tc|]; [|done].
  cbn [mbind res_bind]. by intros [= <- <-].
Qed.

(** After an iteration of the loop, [x_prev] is the noise sample that
    iteration drew, computed from the [x_prev] it started with. *)
Lemma episode_step_noise (cfg : @Config num) (st st' : @Trainer num Opt W) (brk : bool) :
  episode_step_res cfg st = Ok (st', brk) →
  ∃ z noise, OU_call (ou_noise st) z = Ok (noise, ou_noise st')
             ∧ x_prev (ou_noise st') = noise.
Proof.
  unfold episode_step_res, policy.
  destruct (np_random_normal _ _) as [z w1].
  destruct (OU_call (ou_noise st) z) as [[noise n']|] eqn:Hcall; [|done].
  cbn [mbind res_bind].
  destruct (env_step _ _) as [[[[state reward] done] truncated] w2].
  intros Hafter. apply after_step_inv in Hafter as (-> & _ & _).
  exists z, noise. split; [done|].
  by apply OU_call_inv in Hcall as [_ ->].
Qed.

(** An episode that runs to its end is its three phases in sequence. *)
Lemma episode_Next_inv (cfg : @Config num) (fuel ep : nat) (st st1 : @Trainer num Opt W) :
  episode cfg fuel ep st = Next st1 →
  ∃ s_last, while_true fuel (episode_step cfg) (episode_reset st) = Next s_last
            ∧ st1 = episode_end ep s_last.
Proof.
  unfold episode, block, exec.
  destruct (while_true fuel (episode_step cfg) (episode_reset st)) as [s| | |];
    try done.
  intros [= <-]. by exists s.
Qed.
End TrainerFacts.

(** C3, as the code has it.  [reset] sets [x_prev] to the configured
    initial value, or to zeros of the shape of [mean] when none is
    configured, and the constructor calls it.  The episode loop never
    does: the statements that open an episode leave the noise object as
    it is, every iteration stores the sample it drew in [x_prev], and the
    statements that close an episode do not touch it.  So the first
    action of the next episode is selected with the [x_prev] the last
    iteration of this episode left. *)
Theorem noise_carries_over {num : Type} `{NumOps num} {Opt : Type}
    `{!@ActorCritic num Opt} {W : Type} `{!@World num W}
    (cfg : @Config num) (fuel ep : nat) (st st1 : @Trainer num Opt W)
    (mean_ std_deviation : list num) (theta_ dt_ : num)
    (x_initial_ : option (list num)) :
  x_prev (OU_init mean_ std_deviation theta_ dt_ x_initial_)
  = match x_initial_ with
    | Some x0 => x0
    | None => replicate (length mean_) n0
    end
  ∧ ou_noise (episode_reset st) = ou_noise st
  ∧ (∀ s s' brk,
       episode_step_res cfg s = Ok (s', brk) →
       ∃ z noise, OU_call (ou_noise s) z = Ok (noise, ou_noise s')
                  ∧ x_prev (ou_noise s') = noise)
  ∧ (episode cfg fuel ep st = Next st1 →
     ∃ s_last,
       while_true fuel (episode_step cfg) (episode_reset st) = Next s_last
       ∧ st1 = episode_end ep s_last
       ∧ ou_noise (episode_reset st1) = ou_noise s_last).
Proof.
  split; [apply OU_reset_x_prev|].
  split; [apply episode_reset_noise|].
  split; [apply episode_step_noise|].
  intros Hep. apply episode_Next_inv in Hep as (s_last & Hloop & ->).
  exists s_last. split; [done|]. split; [done|].
  by rewrite episode_reset_noise, episode_end_noise.
Qed.

Lemma noise_carries_over_witness :
  ∃ st1 s_last,
    episode Toy.cfg 3 0 Toy.st0 = Next st1
    ∧ while_true 3 (episode_step Toy.cfg) (episode_reset Toy.st0) = Next s_last
    ∧ ou_noise (episode_reset st1) = ou_noise s_last.
Proof.
  eexists.
  destruct (noise_carries_over Toy.cfg 3 0 Toy.st0
              (ctl_state (episode Toy.cfg 3 0 Toy.st0)) [0%Z] [1%Z] 0%Z 1%Z None)
    as (_ & _ & _ & Hep).
  destruct (Hep eq_refl) as (s_last & Hloop & _ & Hnoise).
  exists s_last. split; [reflexivity|]. split; [exact Hloop | exact Hnoise].
Defined.

(** A run of the toy trainer: when the second episode opens, [x_prev] is
    the sample the first episode drew, not the initial value [reset]
    would install. *)
Lemma noise_not_reset_between_episodes :
  ∃ st1, episode Toy.cfg 3 0 Toy.st0 = Next st1
         ∧ x_prev (ou_noise (episode_reset st1)) = [1%Z]
         ∧ x_prev (OU_reset (ou_noise (episode_reset st1))) = [0%Z]
         ∧ x_prev (ou_noise (episode_reset st1))
           ≠ x_prev (OU_reset (ou_noise (episode_reset st1))).
Proof.
  eexists. split; [vm_compute; reflexivity|].
  split; [reflexivity|]. split; [reflexivity|]. discriminate.
Qed.

(** ** C4: the bootstrap target of the continuous variant *)

Section TargetFacts.
Context {num : Type} `{NumOps num} {Opt : Type} `{!@ActorCritic num Opt}.

Lemma bootstrap_y_length (g : num) (m : Models) (rb : list num)
    (nb : list (list num)) :
  length rb = length nb → length (bootstrap_y g m rb nb) = length nb.
Proof.
  intros Hl. unfold bootstrap_y.
  rewrite length_zip_with, length_map, length_zip_with, length_map. lia.
Qed.

Lemma bootstrap_y_lookup (g : num) (m : Models) (rb : list num)
    (nb : list (list num)) (j : nat) (r : num) (s' : list num) :
  rb !! j = Some r → nb !! j = Some s' →
  bootstrap_y g m rb nb !! j
  = Some (r ⊕ g ⊗ critic_fwd (target_critic m) s' [actor_fwd (target_actor m) s']).
Proof.
  intros Hr Hs. unfold bootstrap_y.
  rewrite lookup_zip_with, Hr, list_lookup_fmap, lookup_zip_with, Hs,
    list_lookup_fmap, Hs.
  done.
Qed.

Lemma update_critic (g : num) (m : Models) (sb ab : list (list num))
    (rb : list num) (nb : list (list num)) :
  critic_model (update g m sb ab rb nb)
  = (critic_step (critic_optimizer m) (critic_model m) sb ab
       (bootstrap_y g m rb nb)).2.
Proof.
  unfold update.
  destruct (critic_step _ _ _ _ _) as [copt cw].
  by destruct (actor_step _ _ _ _) as [aopt aw].
Qed.

Context {W : Type} `{!@World num W}.

(** What the loop does after [env.step] does not look at [done] or
    [truncated], except to decide whether to [break]. *)
Lemma after_step_flags (cfg : @Config num) (st : @Trainer num Opt W)
    (action : list num) (noise' : OUActionNoise) (state : list num)
    (reward : num) (d1 t1 d2 t2 : bool) (w : W) :
  match after_step cfg st action noise' state reward d1 t1 w,
        after_step cfg st action noise' state reward d2 t2 w with
  | Ok (s1, _), Ok (s2, _) => models s1 = models s2 ∧ buffer s1 = buffer s2
  | Raise e1, Raise e2 => e1 = e2
  | _, _ => False
  end.
Proof.
  unfold after_step.
  destruct (record_rows _ _) as [b'|]; [|done]. cbn [mbind res_bind].
  destruct (learn _ _ _ _) as [[m1 w']|]; [|done]. cbn [mbind res_bind].
  destruct (update_target (target_actor m1) _ _) as [ta|]; [|done].
  cbn [mbind res_bind].
  destruct (update_target (target_critic m1) _ _) as [tc|]; [|done].
  done.
Qed.
End TargetFacts.

(** C4.  For the batch gathered at any drawn indices, the tensor [y] of
    [update] has one entry per sampled transition [(s, a, r, s')], equal
    to [r + gamma * target_critic(s', target_actor(s'))] with [r] cast to
    float32; this [y] is what the critic's gradient step is given.  A
    stored transition carries no terminal flag, and whatever [done] and
    [truncated] the simulator reports, the buffer and the networks after
    the step are the same: no terminal masking is applied. *)
Theorem bootstrap_target_unmasked {num : Type} `{NumOps num} {Opt : Type}
    `{!@ActorCritic num Opt} {W : Type} `{!@World num W}
    (g : num) (m : Models) (b : Buffer (list num) (list num) num)
    (idxs : list nat) (sb ab : list (list num)) (rb : list num)
    (nb : list (list num))
    (cfg : @Config num) (st : @Trainer num Opt W) (action : list num)
    (noise' : OUActionNoise) (state : list num) (reward : num)
    (d1 t1 d2 t2 : bool) (w : W) :
  learn_batch b idxs = Ok (sb, ab, rb, nb) →
  length (bootstrap_y g m (map cast32 rb) nb) = length idxs
  ∧ (∀ j i, idxs !! j = Some i →
       ∃ s a r s',
         slot b i = Some (s, a, r, s')
         ∧ bootstrap_y g m (map cast32 rb) nb !! j
           = Some (cast32 r
                   ⊕ g ⊗ critic_fwd (target_critic m) s'
                           [actor_fwd (target_actor m) s']))
  ∧ critic_model (update g m sb ab (map cast32 rb) nb)
    = (critic_step (critic_optimizer m) (critic_model m) sb ab
         (bootstrap_y g m (map cast32 rb) nb)).2
  ∧ match after_step cfg st action noise' state reward d1 t1 w,
          after_step cfg st action noise' state reward d2 t2 w with
    | Ok (s1, _), Ok (s2, _) => models s1 = models s2 ∧ buffer s1 = buffer s2
    | Raise e1, Raise e2 => e1 = e2
    | _, _ => False
    end.
Proof.
  intros Hbatch.
  destruct (learn_batch_aligned b idxs sb ab rb nb Hbatch)
    as (L1 & L2 & L3 & L4 & Hal).
  split.
  { rewrite bootstrap_y_length; [done|]. rewrite length_map. lia. }
  split.
  { intros j i Hj.
    destruct (Hal j i Hj) as (s & a & r & s' & Hslot & _ & _ & Hr & Hs').
    exists s, a, r, s'. split; [done|].
    apply bootstrap_y_lookup; [|done].
    by rewrite list_lookup_fmap, Hr. }
  split; [apply update_critic | apply after_step_flags].
Qed.

Lemma bootstrap_target_unmasked_witness :
  let b := mkBuffer 2 2 2 [[1%Z]; [2%Z]] [[0%Z]; [0%Z]] [3%Z; 4%Z] [[5%Z]; [6%Z]] in
  let m := mkModels [[1%Z]] [[1%Z]] [[5%Z]] [[7%Z]] tt tt in
  learn_batch b [1; 0] = Ok ([[2%Z]; [1%Z]], [[0%Z]; [0%Z]], [4%Z; 3%Z], [[6%Z]; [5%Z]])
  ∧ bootstrap_y 2%Z m (map cast32 [4%Z; 3%Z]) [[6%Z]; [5%Z]] !! 0 = Some 28%Z.
Proof.
  intros b m. split; [reflexivity|].
  destruct (bootstrap_target_unmasked 2%Z m b [1; 0]
              [[2%Z]; [1%Z]] [[0%Z]; [0%Z]] [4%Z; 3%Z] [[6%Z]; [5%Z]]
              Toy.cfg Toy.st0 [0%Z] (mkOU 0%Z [0%Z] [1%Z] 1%Z None [0%Z])
              [0%Z] 0%Z true false false false (Toy.mkWorld [] []) eq_refl)
    as (_ & Hy & _).
  destruct (Hy 0 1 eq_refl) as (s & a & r & s' & Hslot & Hy0).
  injection Hslot as <- <- <- <-. exact Hy0.
Defined.

(** ** C5: the fitting target of the discrete variant *)

Section MaxFacts.
Context {num : Type} `{NumOps num}.
Hypothesis nleb_total : ∀ a b : num, nleb a b = false → nleb b a = true.
Hypothesis nleb_trans :
  ∀ a b c : num, nleb a b = true → nleb b c = true → nleb a c = true.

Lemma nmax_cases (a b : num) :
  (nmax a b = a ∨ nmax a b = b)
  ∧ nleb a (nmax a b) = true ∧ nleb b (nmax a b) = true.
Proof using nleb_total.
  unfold nmax. destruct (nleb a b) eqn:E.
  - split; [by right|]. split; [done|]. by apply nleb_refl.
  - split; [by left|]. split; [by apply nleb_refl|]. by apply nleb_total.
Qed.

(** [np.amax] returns an element of the array that bounds all others. *)
Lemma foldl_nmax_spec (x : num) (xs : list num) :
  foldl nmax x xs ∈ x :: xs
  ∧ ∀ q, q ∈ x :: xs → nleb q (foldl nmax x xs) = true.
Proof using nleb_total nleb_trans.
  revert x. induction xs as [|y ys IH]; intros x; simpl.
  - split; [left|]. intros q Hq. apply list_elem_of_singleton in Hq as ->.
    by apply nleb_refl.
  - destruct (IH (nmax x y)) as [Hin Hub].
    destruct (nmax_cases x y) as (Hcase & Hx & Hy).
    split.
    + apply elem_of_cons in Hin as [Hm|Hin].
      * rewrite Hm. destruct Hcase as [->| ->]; [left|right; left].
      * right. by right.
    + intros q Hq.
      assert (Hm : nleb (nmax x y) (foldl nmax (nmax x y) ys) = true)
        by (apply Hub; left).
      apply elem_of_cons in Hq as [->|Hq]; [by eapply nleb_trans|].
      apply elem_of_cons in Hq as [->|Hq]; [by eapply nleb_trans|].
      apply Hub. by right.
Qed.
End MaxFacts.

Section TrainFacts.
Context {num : Type} `{NumOps num}.
Context {Frame State Model Weights : Type}.
Context `{!@Breakout.QNetwork num Frame State Model Weights}.

Abbreviation DQNT := (@Breakout.DQN num State Model).

Lemma target_Q_done (self : DQNT) (reward : num) (next_state : State) :
  Breakout.target_Q_of self reward next_state true = Ok reward.
Proof. done. Qed.

Lemma target_Q_not_done (self : DQNT) (reward : num) (next_state : State)
    (q : num) (qs : list num) :
  Breakout.predict (Breakout.target_network self) next_state = q :: qs →
  Breakout.target_Q_of self reward next_state false
  = Ok (reward ⊕ Breakout.gamma self ⊗ foldl nmax q qs).
Proof. intros Hp. unfold Breakout.target_Q_of. simpl. by rewrite Hp. Qed.

Lemma fit_target_inv (self : DQNT) (state : State) (action : nat)
    (reward : num) (next_state : State) (done : bool) (v : list num) :
  Breakout.fit_target self (state, action, reward, next_state, done) = Ok v →
  ∃ tq, Breakout.target_Q_of self reward next_state done = Ok tq
        ∧ action < length (Breakout.predict (Breakout.main_network self) state)
        ∧ v = <[action:=tq]> (Breakout.predict (Breakout.main_network self) state).
Proof.
  unfold Breakout.fit_target.
  destruct (Breakout.target_Q_of self reward next_state done) as [tq|]; [|done].
  cbn [mbind res_bind]. unfold set_row. case_decide; [|done].
  intros [= <-]. by exists tq.
Qed.

Lemma fit_target_Ok (self : DQNT) (state : State) (action : nat)
    (reward : num) (next_state : State) (done : bool) (tq : num) :
  Breakout.target_Q_of self reward next_state done = Ok tq →
  action < length (Breakout.predict (Breakout.main_network self) state) →
  Breakout.fit_target self (state, action, reward, next_state, done)
  = Ok (<[action:=tq]> (Breakout.predict (Breakout.main_network self) state)).
Proof.
  intros Htq Ha. unfold Breakout.fit_target. rewrite Htq.
  cbn [mbind res_bind]. by apply set_row_Ok.
Qed.
End TrainFacts.

(** C5.  For a transition [(state, action, reward, next_state, done)]
    of the minibatch whose action indexes the network's output: if
    [done] holds the bootstrap target is exactly [reward], for every
    discount and every target network; otherwise it is
    [reward + gamma * m] where [m] is the largest entry of the target
    network's output for [next_state].  The vector fitted is the live
    network's prediction for [state] with the entry of [action]
    overwritten by that target and every other entry unchanged, and the
    loop over the minibatch fits the transitions one after the other. *)
Theorem dqn_fit_target {num : Type} `{NumOps num}
    {Frame State Model Weights : Type}
    `{!@Breakout.QNetwork num Frame State Model Weights}
    (self : @Breakout.DQN num State Model)
    (state : State) (action : nat) (reward : num) (next_state : State)
    (rest : list (@Breakout.Transition num State)) :
  (∀ a b : num, nleb a b = false → nleb b a = true) →
  (∀ a b c : num, nleb a b = true → nleb b c = true → nleb a c = true) →
  action < length (Breakout.predict (Breakout.main_network self) state) →
  let pred := Breakout.predict (Breakout.main_network self) state in
  (* terminal transition *)
  (∀ other : @Breakout.DQN num State Model,
     Breakout.target_Q_of other reward next_state true = Ok reward)
  ∧ Breakout.fit_target self (state, action, reward, next_state, true)
    = Ok (<[action:=reward]> pred)
  (* non-terminal transition *)
  ∧ (∀ q qs,
       Breakout.predict (Breakout.target_network self) next_state = q :: qs →
       ∃ m, amax (q :: qs) = Ok m
            ∧ m ∈ q :: qs
            ∧ (∀ q', q' ∈ q :: qs → nleb q' m = true)
            ∧ Breakout.target_Q_of self reward next_state false
              = Ok (reward ⊕ Breakout.gamma self ⊗ m)
            ∧ Breakout.fit_target self (state, action, reward, next_state, false)
              = Ok (<[action:=reward ⊕ Breakout.gamma self ⊗ m]> pred))
  (* the fitted vector, in both cases *)
  ∧ (∀ done v,
       Breakout.fit_target self (state, action, reward, next_state, done) = Ok v →
       length v = length pred
       ∧ (∀ a', a' ≠ action → v !! a' = pred !! a')
       ∧ (∃ tq, Breakout.target_Q_of self reward next_state done = Ok tq
                ∧ v !! action = Some tq)
       ∧ Breakout.train_one self (state, action, reward, next_state, done)
         = Ok (Breakout.set_main_network self
                 (Breakout.fit (Breakout.main_network self) state v))
       ∧ Breakout.train_loop self ((state, action, reward, next_state, done) :: rest)
         = Breakout.train_loop
             (Breakout.set_main_network self
                (Breakout.fit (Breakout.main_network self) state v)) rest).
Proof.
  intros Htotal Htrans Ha pred.
  split; [done|].
  split; [by apply fit_target_Ok|].
  split.
  { intros q qs Hp.
    destruct (foldl_nmax_spec Htotal Htrans q qs) as [Hin Hub].
    exists (foldl nmax q qs). split; [done|]. split; [done|]. split; [done|].
    pose proof (target_Q_not_done self reward next_state q qs Hp) as Htq.
    split; [done|]. by apply fit_target_Ok. }
  intros done v Hv.
  pose proof Hv as Hv'.
  apply fit_target_inv in Hv' as (tq & Htq & _ & ->).
  split; [by rewrite length_insert|].
  split; [by intros a' Hne; rewrite list_lookup_insert_ne|].
  split; [exists tq; split; [done|]; by rewrite list_lookup_insert_eq|].
  assert (Hone : Breakout.train_one self (state, action, reward, next_state, done)
                 = Ok (Breakout.set_main_network self
                         (Breakout.fit (Breakout.main_network self) state
                            (<[action:=tq]> pred)))).
  { unfold Breakout.train_one. by rewrite Hv. }
  split; [done|]. simpl. by rewrite Hone.
Qed.

(** The terminal scenario: reward [1], discount and target network play
    no part. *)
Lemma dqn_fit_target_witness :
  let self := Breakout.mkDQN 2 [] 9%Z 8%Z 1000 [10%Z; 20%Z] [30%Z; 40%Z] in
  (∀ a b : Z, (a <=? b)%Z = false → (b <=? a)%Z = true)
  ∧ (∀ a b c : Z, (a <=? b)%Z = true → (b <=? c)%Z = true → (a <=? c)%Z = true)
  ∧ 1 < length (Breakout.predict (Breakout.main_network self) tt)
  ∧ Breakout.fit_target self (tt, 1, 1%Z, tt, true) = Ok [10%Z; 1%Z]
  ∧ Breakout.fit_target self (tt, 1, 1%Z, tt, false) = Ok [10%Z; 361%Z].
Proof.
  intros self.
  assert (Htotal : ∀ a b : Z, (a <=? b)%Z = false → (b <=? a)%Z = true).
  { intros a b Hab. apply Z.leb_le. apply Z.leb_gt in Hab. lia. }
  assert (Htrans : ∀ a b c : Z,
            (a <=? b)%Z = true → (b <=? c)%Z = true → (a <=? c)%Z = true).
  { intros a b c Hab Hbc. apply Z.leb_le. apply Z.leb_le in Hab, Hbc. lia. }
  assert (Ha : 1 < length (Breakout.predict (Breakout.main_network self) tt))
    by (simpl; lia).
  split; [exact Htotal|]. split; [exact Htrans|]. split; [exact Ha|].
  destruct (@dqn_fit_target Z Z_NumOps unit unit (list Z) (list Z) Toy.toy_qnet
              self tt 1 1%Z tt [] Htotal Htrans Ha)
    as (_ & Hdone & Hlive & _).
  split; [exact Hdone|].
  destruct (Hlive 30%Z [40%Z] eq_refl) as (m & Hm & _ & _ & _ & Hfit).
  injection Hm as <-. exact Hfit.
Defined.

(** ** C8: sampling without enough data *)

(** C8.  [learn] on a store that holds no transition raises
    [ValueError] for every positive batch size, before any array is
    read; a store just created is such a store.  In the discrete variant
    [train] raises [ValueError] whenever the batch is larger than the
    number of stored transitions, in particular for every positive batch
    size on an empty store.  No batch is returned in either case. *)
Theorem sampling_insufficient_data {num : Type} `{NumOps num} {Opt : Type}
    `{!@ActorCritic num Opt} {W : Type} `{!@World num W}
    {Frame State Model Weights WB : Type}
    `{!@Breakout.QNetwork num Frame State Model Weights}
    `{!@Breakout.World num Frame WB}
    (g : num) (b : Buffer (list num) (list num) num) (m : Models) (w : W)
    (self : @Breakout.DQN num State Model) (k fuel : nat) (wb : WB)
    (zs za : list num) (zr : num) (capacity bsize : nat) :
  (record_range b = 0 → 0 < batch_size b →
   learn g b m w = Raise ValueError)
  ∧ record_range (Buffer_init zs za zr capacity bsize) = 0
  ∧ (length (Breakout.replay_buffer self) < k →
     Breakout.train fuel self k wb = Failed ValueError)
  ∧ (Breakout.replay_buffer self = [] → 0 < k →
     Breakout.train fuel self k wb = Failed ValueError).
Proof.
  split.
  { intros Hrange Hbs. unfold learn. fold (record_range b). rewrite Hrange.
    by rewrite np_random_choice_empty. }
  split; [done|].
  assert (Hlarge : length (Breakout.replay_buffer self) < k →
                   Breakout.train fuel self k wb = Failed ValueError).
  { intros Hk. unfold Breakout.train. by rewrite random_sample_too_large. }
  split; [done|].
  intros Hempty Hk. apply Hlarge. rewrite Hempty. simpl. lia.
Qed.

Lemma sampling_insufficient_data_witness :
  let b := Buffer_init [0%Z] [0%Z] 0%Z 4 2 in
  let self := Breakout.mkDQN 2 [(tt, 0, 1%Z, tt, false)] 9%Z 8%Z 1000
                [10%Z; 20%Z] [30%Z; 40%Z] in
  record_range b = 0 ∧ 0 < batch_size b
  ∧ learn 1%Z b (mkModels [] [] [] [] tt tt) (Toy.mkWorld [] [])
    = Raise ValueError
  ∧ length (Breakout.replay_buffer self) < 8
  ∧ Breakout.train 100 self 8 ([] : list nat) = Failed ValueError.
Proof.
  intros b self.
  assert (Hk : length (Breakout.replay_buffer self) < 8) by (simpl; lia).
  assert (Hbs : 0 < batch_size b) by (simpl; lia).
  destruct (@sampling_insufficient_data Z Z_NumOps unit Toy.toy_nets
              Toy.world Toy.toy_world unit unit (list Z) (list Z) (list nat)
              Toy.toy_qnet Toy.toy_game
              1%Z b (mkModels [] [] [] [] tt tt) (Toy.mkWorld [] [])
              self 8 100 [] [0%Z] [0%Z] 0%Z 4 2)
    as (Hlearn & _ & Htrain & _).
  split; [reflexivity|]. split; [exact Hbs|].
  split; [exact (Hlearn eq_refl Hbs)|]. split; [exact Hk|]. exact (Htrain Hk).
Defined.

(** With an empty batch nothing is sampled and nothing fails. *)
Lemma learn_empty_batch {num : Type} `{NumOps num} {Opt : Type}
    `{!@ActorCritic num Opt} {W : Type} `{!@World num W}
    (g : num) (b : Buffer (list num) (list num) num) (m : Models) (w : W) :
  batch_size b = 0 → learn g b m w = Ok (update g m [] [] [] [], w).
Proof.
  intros Hbs. unfold learn, np_random_choice. rewrite Hbs.
  rewrite decide_False by lia. done.
Qed.

(** ** C10: the list of episode returns *)

Section Preservation.
Context {St : Type} (P : St → Prop).

Lemma preserves_exec (f : St → St) :
  (∀ s, P s → P (f s)) → preserves P (exec f).
Proof. intros Hf s Hs. by apply Hf. Qed.

Lemma preserves_try (f : St → res St) :
  (∀ s s', P s → f s = Ok s' → P s') → preserves P (try f).
Proof.
  intros Hf s Hs. unfold try. destruct (f s) as [s'|e] eqn:E; simpl; [|done].
  by eapply Hf.
Qed.

Lemma preserves_attempt (f : St → run St) :
  (∀ s s', P s → f s = Done s' → P s') → preserves P (attempt f).
Proof.
  intros Hf s Hs. unfold attempt. destruct (f s) as [s'|e|] eqn:E; simpl;
    [|done..].
  by eapply Hf.
Qed.

Lemma preserves_if_then (cond : St → bool) (body : stmt St) :
  preserves P body → preserves P (if_then cond body).
Proof.
  intros Hb s Hs. unfold if_then. destruct (cond s); [by apply Hb|done].
Qed.

Lemma preserves_block (body : list (stmt St)) :
  Forall (preserves P) body → preserves P (block body).
Proof.
  induction 1 as [|c rest Hc _ IH]; intros s Hs; simpl; [done|].
  specialize (Hc s Hs). destruct (c s) as [s'| | |]; simpl in *; try done.
  by apply IH.
Qed.

Lemma preserves_while_true (fuel : nat) (body : stmt St) :
  preserves P body → preserves P (while_true fuel body).
Proof.
  intros Hb. induction fuel as [|fuel IH]; intros s Hs; simpl; [done|].
  specialize (Hb s Hs).
  destruct (body s) as [s'| | |]; simpl in *; try done. by apply IH.
Qed.

Lemma preserves_for_range (start n : nat) (body : nat → stmt St) :
  (∀ t, preserves P (body t)) → preserves P (for_range start n body).
Proof.
  intros Hb. revert start. induction n as [|n IH]; intros start s Hs; simpl;
    [done|].
  specialize (Hb start s Hs).
  destruct (body start s) as [s'| | |]; simpl in *; try done.
  by apply IH.
Qed.
End Preservation.

Section LoopFacts.
Context {num : Type} `{NumOps num}.
Context {Frame State Model Weights W : Type}.
Context `{!@Breakout.QNetwork num Frame State Model Weights}.
Context `{!@Breakout.World num Frame W}.

Abbreviation RunT := (@Breakout.Run num Frame State Model W).

(** In the body of [if done:] the [break] ends the block: the [append]
    placed after it is not executed. *)
Lemma if_done_body (i : nat) (s : RunT) :
  block [ Breakout.print_return i; break_stmt; Breakout.append_return ] s
  = Break (Breakout.set_stdout s
             (Breakout.stdout s ++ [(i, Breakout.Return s)])).
Proof. done. Qed.

Lemma timestep_no_returns (fuel bs i t : nat) :
  preserves Breakout.no_returns (Breakout.timestep fuel bs i t).
Proof.
  unfold Breakout.timestep. apply preserves_block.
  repeat apply Forall_cons_2; try apply Forall_nil_2.
  - apply preserves_exec. by intros [].
  - apply preserves_exec. by intros [].
  - apply preserves_try. intros s s' Hs.
    destruct (py_mod _ _) as [m|]; [|done]. cbn [mbind res_bind].
    case_decide; intros [= <-]; [by destruct s|done].
  - apply preserves_try. intros s s' Hs.
    destruct (Breakout.epsilon_greedy _ _ _) as [[a w']|]; [|done].
    cbn [mbind res_bind]. intros [= <-]. by destruct s.
  - apply preserves_exec. intros s Hs.
    destruct (Breakout.env_step _ _) as [[[frame r] d] w']. by destruct s.
  - apply preserves_try. intros s s' Hs.
    destruct (Breakout.preprocess_state _) as [x|]; [|done].
    cbn [mbind res_bind]. intros [= <-]. by destruct s.
  - apply preserves_exec. by intros [].
  - apply preserves_exec. by intros [].
  - apply preserves_exec. by intros [].
  - apply preserves_if_then. intros s Hs. rewrite if_done_body. simpl.
    by destruct s.
  - apply preserves_if_then, preserves_attempt. intros s s' Hs.
    destruct (Breakout.train _ _ _ _) as [[d w']| |]; [|done..].
    cbn [mbind run_bind]. intros [= <-]. by destruct s.
Qed.

Lemma episode_no_returns (fuel nt bs i : nat) :
  preserves Breakout.no_returns (Breakout.episode fuel nt bs i).
Proof.
  unfold Breakout.episode. apply preserves_block.
  repeat apply Forall_cons_2; try apply Forall_nil_2.
  - apply preserves_exec. by intros [].
  - apply preserves_try. intros s s' Hs.
    destruct (Breakout.env_reset _) as [frame w'].
    destruct (Breakout.preprocess_state _) as [x|]; [|done].
    cbn [mbind res_bind]. intros [= <-]. by destruct s.
  - apply preserves_for_range. intros t. apply timestep_no_returns.
Qed.

Lemma training_loop_no_returns (fuel ne nt bs : nat) :
  preserves Breakout.no_returns (Breakout.training_loop fuel ne nt bs).
Proof.
  unfold Breakout.training_loop. apply preserves_for_range.
  intros i. apply episode_no_returns.
Qed.
End LoopFacts.

(** C10.  In the training cell of the discrete variant the statement
    [episode_rewards.append(Return)] follows the [break] of the
    [if done:] block and is never executed: the block ends in a [break]
    having only printed.  Every time step, every episode and the whole
    loop leave an empty [episode_rewards] empty, so after the run started
    by [episode_rewards = []], however it ends, the list is still
    empty. *)
Theorem episode_rewards_stay_empty {num : Type} `{NumOps num}
    {Frame State Model Weights W : Type}
    `{!@Breakout.QNetwork num Frame State Model Weights}
    `{!@Breakout.World num Frame W}
    (fuel ne nt bs : nat) (w : W) (agent : @Breakout.DQN num State Model)
    (state0 : State) (frame0 : Frame) :
  Breakout.episode_rewards
    (ctl_state (Breakout.training_loop fuel ne nt bs
                  (Breakout.Run_init w agent state0 frame0))) = []
  ∧ (∀ i (s : @Breakout.Run num Frame State Model W),
       block [ Breakout.print_return i; break_stmt; Breakout.append_return ] s
       = Break (Breakout.set_stdout s
                  (Breakout.stdout s ++ [(i, Breakout.Return s)])))
  ∧ (∀ i t (s : @Breakout.Run num Frame State Model W),
       Breakout.episode_rewards s = [] →
       Breakout.episode_rewards (ctl_state (Breakout.timestep fuel bs i t s)) = [])
  ∧ (∀ i (s : @Breakout.Run num Frame State Model W),
       Breakout.episode_rewards s = [] →
       Breakout.episode_rewards (ctl_state (Breakout.episode fuel nt bs i s)) = []).
Proof.
  split; [by apply (training_loop_no_returns fuel ne nt bs)|].
  split; [apply if_done_body|].
  split.
  - intros i t s. apply (timestep_no_returns fuel bs i t).
  - intros i s. apply (episode_no_returns fuel nt bs i).
Qed.

(** ** C6: the soft target update *)

Section PolyakFacts.
Context {num : Type} `{NumOps num}.

Lemma update_target_at_middle (tau : num) (opre opost pre post : list (list num))
    (o t : list num) :
  length opre = length pre → length o = length t →
  update_target_at (opre ++ o :: opost) tau (pre ++ t :: post) (length pre)
  = Ok (pre ++ zip_with (polyak tau) o t :: post).
Proof.
  intros Hpre Hot. unfold update_target_at, get_row.
  rewrite (list_lookup_middle opre) by done. cbn [mbind res_bind].
  rewrite (list_lookup_middle pre) by done. cbn [mbind res_bind].
  rewrite vv_same_shape by (by rewrite !length_map). cbn [mbind res_bind].
  rewrite set_row_Ok by (rewrite length_app; simpl; lia).
  rewrite insert_app_r_alt, Nat.sub_diag by done. simpl.
  do 3 f_equal.
  change map with (@fmap list _). by rewrite zip_with_fmap_l, zip_with_fmap_r.
Qed.

Lemma update_target_loop_spec (tau : num) (opost post : list (list num)) :
  same_shapes opost post →
  ∀ opre pre, length opre = length pre →
    update_target_loop (opre ++ opost) tau (pre ++ post)
      (seq (length pre) (length post))
    = Ok (pre ++ zip_with (zip_with (polyak tau)) opost post).
Proof.
  induction 1 as [|o t opost post Hot _ IH]; intros opre pre Hpre; simpl; [done|].
  rewrite update_target_at_middle by done. cbn [mbind res_bind].
  specialize (IH (opre ++ [o]) (pre ++ [zip_with (polyak tau) o t])).
  rewrite !length_app, <- !app_assoc in IH. simpl in IH.
  rewrite !Nat.add_1_r in IH. rewrite IH by lia. done.
Qed.

Lemma same_shapes_zip (f : num → num → num) (original target : list (list num)) :
  same_shapes original target →
  same_shapes original (zip_with (zip_with f) original target).
Proof.
  induction 1 as [|o t os ts Hot _ IH]; simpl; constructor; [|done].
  rewrite length_zip_with. lia.
Qed.

(** On networks of the same architecture [update_target] succeeds and
    blends every weight with its counterpart. *)
Lemma update_target_Ok (target original : list (list num)) (tau : num) :
  same_shapes original target →
  update_target target original tau
  = Ok (zip_with (zip_with (polyak tau)) original target).
Proof.
  intros Hsh. unfold update_target.
  pose proof (update_target_loop_spec tau original target Hsh [] [] eq_refl)
    as Hloop.
  simpl in Hloop. rewrite Hloop. cbn [mbind res_bind]. unfold set_weights.
  rewrite decide_True; [done|]. clear Hloop.
  induction Hsh as [|o t os ts Hot _ IH]; [done|].
  cbn [zip_with map]. rewrite IH, length_zip_with. f_equal. lia.
Qed.

Lemma zip_with_nest {A B C : Type} (f : A → C → C) (g : A → B → C)
    (l : list A) (k : list B) :
  zip_with f l (zip_with g l k) = zip_with (fun x y => f x (g x y)) l k.
Proof. revert k. induction l as [|x l IH]; intros [|y k]; simpl; [done..|]. by rewrite IH. Qed.

Lemma weight_at_zip (f : num → num → num) (original target : list (list num))
    (i j : nat) (l t : num) :
  weight_at original i j = Some l → weight_at target i j = Some t →
  weight_at (zip_with (zip_with f) original target) i j = Some (f l t).
Proof.
  unfold weight_at. intros Hl Ht.
  destruct (original !! i) as [o|] eqn:Ho; [|done].
  destruct (target !! i) as [a|] eqn:Ha; [|done].
  simpl in Hl, Ht. rewrite lookup_zip_with, Ho, Ha. simpl.
  by rewrite lookup_zip_with, Hl, Ht.
Qed.
End PolyakFacts.

Lemma polyak_R (tau o t : R) : polyak tau o t = (tau * o + (1 - tau) * t)%R.
Proof. unfold polyak. simpl. ring. Qed.

Lemma polyak_contracts (tau l t : R) :
  (0 < tau < 1)%R →
  Rabs (tau * l + (1 - tau) * t - l) = ((1 - tau) * Rabs (t - l))%R.
Proof.
  intros Htau.
  replace (tau * l + (1 - tau) * t - l)%R with ((1 - tau) * (t - l))%R by ring.
  rewrite Rabs_mult. f_equal. apply Rabs_pos_eq. lra.
Qed.

Lemma update_target_iter_weights (n : nat) (target original : list (list R))
    (tau : R) :
  same_shapes original target →
  ∃ twn, update_target_iter n target original tau = Ok twn
         ∧ ∀ i j l t,
             weight_at original i j = Some l → weight_at target i j = Some t →
             weight_at twn i j = Some (l + (1 - tau) ^ n * (t - l))%R.
Proof.
  revert target. induction n as [|n IH]; intros target Hsh; simpl.
  - exists target. split; [done|]. intros i j l t _ ->. f_equal. ring.
  - rewrite update_target_Ok by done. cbn [mbind res_bind].
    destruct (IH _ (same_shapes_zip (polyak tau) original target Hsh))
      as (twn & Hiter & Hw).
    exists twn. split; [done|]. intros i j l t Hl Ht.
    rewrite (Hw i j l (polyak tau l t) Hl (weight_at_zip _ _ _ i j l t Hl Ht)).
    f_equal. rewrite polyak_R. ring.
Qed.

(** Geometric decay: [l + (1 - tau)^n * (t - l)] tends to [l]. *)
Lemma polyak_limit (tau l t : R) :
  (0 < tau < 1)%R → Un_cv (fun n => l + (1 - tau) ^ n * (t - l))%R l.
Proof.
  intros Htau eps Heps.
  destruct (Req_dec t l) as [->|Hne].
  - exists 0. intros n _. unfold Rdist.
    replace (l + (1 - tau) ^ n * (l - l) - l)%R with 0%R by ring.
    by rewrite Rabs_R0.
  - assert (Hd : (0 < Rabs (t - l))%R) by (apply Rabs_pos_lt; lra).
    destruct (pow_lt_1_zero (1 - tau) ltac:(rewrite Rabs_pos_eq; lra)
                (eps / Rabs (t - l))%R ltac:(by apply Rdiv_lt_0_compat))
      as [N HN].
    exists N. intros n Hn. unfold Rdist.
    replace (l + (1 - tau) ^ n * (t - l) - l)%R
      with ((1 - tau) ^ n * (t - l))%R by ring.
    rewrite Rabs_mult.
    specialize (HN n Hn).
    apply (Rmult_lt_compat_r (Rabs (t - l))) in HN; [|done].
    replace (eps / Rabs (t - l) * Rabs (t - l))%R with eps in HN
      by (field; lra).
    done.
Qed.

(** C6.  Over the real numbers, for a target and a live network of the
    same architecture and [0 < tau < 1]: [update_target] succeeds and
    sets every target weight to [tau * live + (1 - tau) * target]; the
    distance of each weight to its live counterpart becomes
    [(1 - tau)] times what it was (so it is bounded by that); after [n]
    updates against fixed live weights a weight is
    [live + (1 - tau)^n * (target - live)], which converges to the live
    weight. *)
Theorem polyak_update (target original : list (list R)) (tau : R) :
  same_shapes original target →
  (0 < tau < 1)%R →
  ∃ tw,
    update_target target original tau = Ok tw
    ∧ tw = zip_with (zip_with (fun l t => tau * l + (1 - tau) * t)%R)
             original target
    ∧ same_shapes original tw
    ∧ (∀ i j l t,
         weight_at original i j = Some l → weight_at target i j = Some t →
         weight_at tw i j = Some (tau * l + (1 - tau) * t)%R
         ∧ Rabs (tau * l + (1 - tau) * t - l) = ((1 - tau) * Rabs (t - l))%R
         ∧ (Rabs (tau * l + (1 - tau) * t - l) <= (1 - tau) * Rabs (t - l))%R)
    ∧ (∀ n, ∃ twn,
         update_target_iter n target original tau = Ok twn
         ∧ ∀ i j l t,
             weight_at original i j = Some l → weight_at target i j = Some t →
             weight_at twn i j = Some (l + (1 - tau) ^ n * (t - l))%R)
    ∧ (∀ i j l t,
         weight_at original i j = Some l → weight_at target i j = Some t →
         Un_cv (fun n => l + (1 - tau) ^ n * (t - l))%R l).
Proof.
  intros Hsh Htau.
  assert (Hext : zip_with (zip_with (polyak tau)) original target
                 = zip_with (zip_with (fun l t => tau * l + (1 - tau) * t)%R)
                     original target).
  { apply zip_with_ext; [|done..]. intros o t.
    apply zip_with_ext; [|done..]. intros x y. apply polyak_R. }
  eexists. split; [by apply update_target_Ok|].
  split; [exact Hext|].
  split; [by apply same_shapes_zip|].
  split.
  { intros i j l t Hl Ht. split.
    - rewrite (weight_at_zip (polyak tau) _ _ i j l t Hl Ht). f_equal.
      apply polyak_R.
    - pose proof (polyak_contracts tau l t Htau) as Hc. split; [done|].
      rewrite Hc. apply Rle_refl. }
  split; [intros n; by apply update_target_iter_weights|].
  intros i j l t _ _. by apply polyak_limit.
Qed.

Lemma polyak_update_witness :
  same_shapes [[10%R]] [[2%R]]
  ∧ (0 < / 2 < 1)%R
  ∧ update_target [[2%R]] [[10%R]] (/ 2)%R
    = Ok [[(/ 2 * 10 + (1 - / 2) * 2)%R]].
Proof.
  assert (Hsh : same_shapes [[10%R]] [[2%R]]) by (repeat constructor).
  assert (Htau : (0 < / 2 < 1)%R) by lra.
  split; [exact Hsh|]. split; [exact Htau|].
  destruct (polyak_update [[2%R]] [[10%R]] (/ 2)%R Hsh Htau)
    as (tw & Hup & -> & _).
  exact Hup.
Defined.

(** Two episodes of a game that ends at its first step: both returns
    are printed, none is appended. *)
Lemma episode_rewards_stay_empty_witness :
  let agent := Breakout.mkDQN 2 [] 9%Z 8%Z 1000 [10%Z; 20%Z] [30%Z; 40%Z] in
  let final := ctl_state (Breakout.training_loop 10 2 3 8
                            (Breakout.Run_init ([] : list nat) agent tt tt)) in
  Breakout.stdout final = [(0, 1%Z); (1, 1%Z)]
  ∧ Breakout.episode_rewards final = [].
Proof.
  intros agent final. split; [reflexivity|].
  exact (proj1 (@episode_rewards_stay_empty Z Z_NumOps unit unit (list Z) (list Z)
                  (list nat) Toy.toy_qnet Toy.toy_game 10 2 3 8 [] agent tt tt)).
Defined.

(** * Further properties of the code *)

(** ** The noise process over many samples *)

Section NoiseRuns.
Context {num : Type} `{NumOps num}.

Lemma OU_call_same_shape (self : @OUActionNoise num) (z : list num) :
  noise_ok self → length z = length (mean self) →
  ∃ x, OU_call self z = Ok (x, set_x_prev self x)
       ∧ length x = length (mean self)
       ∧ noise_ok (set_x_prev self x)
       ∧ ∀ i xp m sd zi,
           x_prev self !! i = Some xp → mean self !! i = Some m →
           std_dev self !! i = Some sd → z !! i = Some zi →
           x !! i = Some (xp ⊕ theta self ⊗ (m ⊖ xp) ⊗ dt self
                             ⊕ sd ⊗ nsqrt (dt self) ⊗ zi).
Proof.
  intros [H1 H2] H3. eexists. unfold OU_call.
  rewrite OU_next_same_shape by done. cbn [mbind res_bind].
  split; [reflexivity|].
  assert (Hlen : length
            (zip_with nadd
               (zip_with nadd (x_prev self)
                  (map (fun e => theta self ⊗ e ⊗ dt self)
                     (zip_with nsub (mean self) (x_prev self))))
               (zip_with nmul
                  (map (fun s => s ⊗ nsqrt (dt self)) (std_dev self)) z))
          = length (mean self)).
  { rewrite !length_zip_with, !length_map, length_zip_with. lia. }
  split; [exact Hlen|]. split; [by split|].
  intros i xp m sd zi Hxp Hm Hsd Hzi.
  rewrite !lookup_zip_with, !list_lookup_fmap, lookup_zip_with.
  by rewrite Hxp, Hm, Hsd, Hzi.
Qed.

Lemma OU_calls_config (self self' : @OUActionNoise num)
    (zs xs : list (list num)) :
  OU_calls self zs = Ok (xs, self') →
  theta self' = theta self ∧ mean self' = mean self
  ∧ std_dev self' = std_dev self ∧ dt self' = dt self
  ∧ x_initial self' = x_initial self.
Proof.
  revert self xs. induction zs as [|z zs IH]; intros self xs; simpl.
  - by intros [= <- <-].
  - destruct (OU_call self z) as [[x s1]|] eqn:Hc; [|done].
    cbn [mbind res_bind].
    destruct (OU_calls s1 zs) as [[xs' s2]|] eqn:Hcs; [|done].
    cbn [mbind res_bind]. intros [= <- <-].
    apply OU_call_inv in Hc as [_ ->].
    by destruct (IH _ _ Hcs) as (-> & -> & -> & -> & ->).
Qed.
End NoiseRuns.

(** Once the arrays of a noise object have the shape of [mean], any
    number of samples with draws of that shape succeeds: one sample of
    that shape per draw, the object keeps its shape, and [x_prev] ends
    as the last sample (or as it was when no sample is drawn). *)
Theorem ou_samples_never_raise {num : Type} `{NumOps num}
    (self : @OUActionNoise num) (zs : list (list num)) :
  noise_ok self →
  Forall (fun z => length z = length (mean self)) zs →
  ∃ xs self',
    OU_calls self zs = Ok (xs, self')
    ∧ length xs = length zs
    ∧ Forall (fun x => length x = length (mean self)) xs
    ∧ noise_ok self'
    ∧ x_prev self' = default (x_prev self) (last xs).
Proof.
  intros Hok Hzs. revert self Hok Hzs.
  induction zs as [|z zs IH]; intros self Hok Hzs; simpl.
  - exists [], self. split; [done|]. split; [done|]. split; [constructor|].
    by split.
  - apply Forall_cons in Hzs as [Hz Hzs].
    destruct (OU_call_same_shape self z Hok Hz) as (x & -> & Hx & Hok1 & _).
    cbn [mbind res_bind].
    destruct (IH (set_x_prev self x) Hok1 Hzs) as (xs & self' & -> & Hl & Hf & Hok' & Hp).
    cbn [mbind res_bind]. exists (x :: xs), self'.
    split; [done|]. split; [simpl; lia|].
    split; [constructor; [exact Hx | exact Hf]|].
    split; [done|]. rewrite Hp, last_cons. simpl. by destruct (last xs).
Qed.

Lemma ou_samples_never_raise_witness :
  let self := mkOU 0%Z [0%Z] [1%Z] 1%Z None [0%Z] in
  noise_ok self
  ∧ Forall (fun z => length z = length (mean self)) [[1%Z]; [2%Z]; [3%Z]]
  ∧ OU_calls self [[1%Z]; [2%Z]; [3%Z]]
    = Ok ([[1%Z]; [3%Z]; [6%Z]], set_x_prev self [6%Z]).
Proof.
  intros self.
  assert (Hok : noise_ok self) by (by split).
  assert (Hzs : Forall (fun z => length z = length (mean self))
                  [[1%Z]; [2%Z]; [3%Z]]) by (by repeat constructor).
  split; [exact Hok|]. split; [exact Hzs|].
  destruct (ou_samples_never_raise self [[1%Z]; [2%Z]; [3%Z]] Hok Hzs)
    as (xs & self' & Hcalls & _).
  rewrite Hcalls. vm_compute in Hcalls. injection Hcalls as <- <-.
  reflexivity.
Defined.

(** [reset] undoes sampling: after any run of samples, [reset] gives
    back the object the constructor built. *)
Theorem ou_reset_restores {num : Type} `{NumOps num}
    (mean_ std_deviation : list num) (theta_ dt_ : num)
    (x_initial_ : option (list num)) (zs xs : list (list num))
    (self' : @OUActionNoise num) :
  OU_calls (OU_init mean_ std_deviation theta_ dt_ x_initial_) zs = Ok (xs, self') →
  OU_reset self' = OU_init mean_ std_deviation theta_ dt_ x_initial_.
Proof.
  intros Hcalls.
  apply OU_calls_config in Hcalls as (Ht & Hm & Hs & Hd & Hx).
  unfold OU_init, OU_reset in *.
  destruct self' as [t m s d x p]; simpl in *.
  destruct x_initial_ as [x0|]; simpl in *; subst; done.
Qed.

Lemma ou_reset_restores_witness :
  OU_calls (OU_init [0%Z] [1%Z] 0%Z 1%Z None) [[4%Z]; [5%Z]]
  = Ok ([[4%Z]; [9%Z]], mkOU 0%Z [0%Z] [1%Z] 1%Z None [9%Z])
  ∧ OU_reset (mkOU 0%Z [0%Z] [1%Z] 1%Z None [9%Z])
    = OU_init [0%Z] [1%Z] 0%Z 1%Z None.
Proof.
  split; [reflexivity|].
  exact (ou_reset_restores [0%Z] [1%Z] 0%Z 1%Z None [[4%Z]; [5%Z]]
           [[4%Z]; [9%Z]] (mkOU 0%Z [0%Z] [1%Z] 1%Z None [9%Z]) eq_refl).
Defined.

(** A configured initial value whose shape can be neither matched nor
    broadcast against [mean] makes the very first sample raise
    [ValueError]. *)
Theorem ou_bad_initial_shape {num : Type} `{NumOps num}
    (mean_ std_deviation x0 : list num) (theta_ dt_ : num) (z : list num) :
  length x0 ≠ length mean_ → length x0 ≠ 1 → length mean_ ≠ 1 →
  OU_call (OU_init mean_ std_deviation theta_ dt_ (Some x0)) z
  = Raise ValueError.
Proof.
  intros Hne Hx Hm.
  assert (Hvv : vv nsub mean_ x0 = Raise ValueError).
  { unfold vv. rewrite decide_False by done.
    destruct mean_ as [|m0 [|m1 ms]]; destruct x0 as [|y0 [|y1 ys]];
      simpl in *; done. }
  unfold OU_call, OU_next, OU_init, OU_reset.
  cbn [x_initial set_x_prev mean x_prev]. by rewrite Hvv.
Qed.

Lemma ou_bad_initial_shape_witness :
  length [1%Z; 2%Z] ≠ length [0%Z; 0%Z; 0%Z]
  ∧ length [1%Z; 2%Z] ≠ 1 ∧ length [0%Z; 0%Z; 0%Z] ≠ 1
  ∧ OU_call (OU_init [0%Z; 0%Z; 0%Z] [1%Z; 1%Z; 1%Z] 0%Z 1%Z (Some [1%Z; 2%Z]))
      [0%Z; 0%Z; 0%Z]
    = Raise ValueError.
Proof.
  do 3 (split; [simpl; lia|]).
  apply (ou_bad_initial_shape [0%Z; 0%Z; 0%Z] [1%Z; 1%Z; 1%Z] [1%Z; 2%Z]);
    simpl; lia.
Defined.

(** Over the real numbers a sample moves every component towards
    [mean] by the factor [1 - theta * dt] and adds the scaled draw; with
    a zero draw and [0 <= theta * dt <= 2] no component gets farther from
    [mean] than it was. *)
Theorem ou_mean_reverting (self : @OUActionNoise R) (z x : list R) :
  noise_ok self → length z = length (mean self) →
  OU_call self z = Ok (x, set_x_prev self x) →
  ∀ i xp m sd zi,
    x_prev self !! i = Some xp → mean self !! i = Some m →
    std_dev self !! i = Some sd → z !! i = Some zi →
    ∃ xi, x !! i = Some xi
          ∧ (xi - m = (1 - theta self * dt self) * (xp - m)
                      + sd * sqrt (dt self) * zi)%R
          ∧ (zi = 0%R → (0 <= theta self * dt self <= 2)%R →
             (Rabs (xi - m) <= Rabs (xp - m))%R).
Proof.
  intros Hok Hz Hcall i xp m sd zi Hxp Hm Hsd Hzi.
  destruct (OU_call_same_shape self z Hok Hz) as (x' & Hx' & _ & _ & Hform).
  rewrite Hcall in Hx'. injection Hx' as <-.
  specialize (Hform i xp m sd zi Hxp Hm Hsd Hzi).
  eexists. split; [exact Hform|]. simpl. split; [ring|].
  intros -> Hrange.
  replace (xp + theta self * (m - xp) * dt self + sd * sqrt (dt self) * 0 - m)%R
    with ((1 - theta self * dt self) * (xp - m))%R by ring.
  rewrite Rabs_mult.
  rewrite <- (Rmult_1_l (Rabs (xp - m))) at 2.
  apply Rmult_le_compat_r; [apply Rabs_pos|].
  apply Rabs_le. lra.
Qed.

Lemma ou_mean_reverting_witness :
  let self := mkOU (/ 2)%R [0%R] [1%R] 1%R None [4%R] in
  noise_ok self ∧ length [0%R] = length (mean self)
  ∧ ∃ x, OU_call self [0%R] = Ok (x, set_x_prev self x)
         ∧ ∃ xi, x !! 0 = Some xi ∧ (Rabs (xi - 0) <= Rabs (4 - 0))%R.
Proof.
  intros self.
  assert (Hok : noise_ok self) by (by split).
  split; [exact Hok|]. split; [reflexivity|].
  destruct (OU_call_same_shape self [0%R] Hok eq_refl) as (x & Hcall & _).
  exists x. split; [exact Hcall|].
  destruct (ou_mean_reverting self [0%R] x Hok eq_refl Hcall 0 4%R 0%R 1%R 0%R
              eq_refl eq_refl eq_refl eq_refl) as (xi & Hxi & _ & Hle).
  exists xi. split; [exact Hxi|]. apply Hle; [reflexivity|]. simpl. lra.
Defined.

(** ** [update_target] on networks that do not match, and at the ends of
    the range of [tau] *)

Section TargetEdges.
Context {num : Type} `{NumOps num}.

Lemma update_target_loop_app (original : list (list num)) (tau : num)
    (tw : list (list num)) (l1 l2 : list nat) :
  update_target_loop original tau tw (l1 ++ l2)
  = (tw1 ← update_target_loop original tau tw l1;
     update_target_loop original tau tw1 l2).
Proof.
  revert tw. induction l1 as [|i l1 IH]; intros tw; simpl; [done|].
  destruct (update_target_at original tau tw i) as [tw1|]; [|done].
  cbn [mbind res_bind]. apply IH.
Qed.

(** The loop blends the arrays it visits and leaves what lies beyond
    them, on either side, alone. *)
Lemma update_target_loop_window (tau : num) (opost post : list (list num)) :
  same_shapes opost post →
  ∀ opre pre oextra extra, length opre = length pre →
    update_target_loop (opre ++ opost ++ oextra) tau (pre ++ post ++ extra)
      (seq (length pre) (length post))
    = Ok (pre ++ zip_with (zip_with (polyak tau)) opost post ++ extra).
Proof.
  induction 1 as [|o t opost post Hot _ IH]; intros opre pre oextra extra Hpre;
    simpl; [done|].
  rewrite update_target_at_middle by done. cbn [mbind res_bind].
  specialize (IH (opre ++ [o]) (pre ++ [zip_with (polyak tau) o t]) oextra extra).
  rewrite !length_app, <- !app_assoc in IH. simpl in IH.
  rewrite !Nat.add_1_r in IH. rewrite IH by lia. done.
Qed.

Lemma update_target_at_missing (original : list (list num)) (tau : num)
    (tw : list (list num)) (i : nat) :
  length original ≤ i →
  update_target_at original tau tw i = Raise IndexError.
Proof.
  intros Hi. unfold update_target_at, get_row.
  rewrite (lookup_ge_None_2 original i Hi). done.
Qed.

Lemma update_target_loop_missing (original : list (list num)) (tau : num)
    (idxs : list nat) :
  (∃ i, i ∈ idxs ∧ length original ≤ i) →
  ∀ tw, ∃ e, update_target_loop original tau tw idxs = Raise e.
Proof.
  induction idxs as [|i0 idxs IH]; intros (i & Hin & Hi) tw.
  - by apply elem_of_nil in Hin.
  - simpl. destruct (update_target_at original tau tw i0) as [tw1|e] eqn:Hat;
      cbn [mbind res_bind]; [|by eexists].
    apply IH. exists i. split; [|done].
    apply elem_of_cons in Hin as [->|Hin]; [|done].
    by rewrite update_target_at_missing in Hat.
Qed.

Lemma zip_with_left_id {A B : Type} (f : A → B → A) (l : list A) (k : list B) :
  length l = length k → (∀ x y, f x y = x) → zip_with f l k = l.
Proof.
  intros Hl Hf. revert k Hl.
  induction l as [|x l IH]; intros [|y k] Hl; simpl in *; try done.
  rewrite Hf, IH; [done|lia].
Qed.

Lemma zip_with_right_id {A B : Type} (f : A → B → B) (l : list A) (k : list B) :
  length l = length k → (∀ x y, f x y = y) → zip_with f l k = k.
Proof.
  intros Hl Hf. revert k Hl.
  induction l as [|x l IH]; intros [|y k] Hl; simpl in *; try done.
  rewrite Hf, IH; [done|lia].
Qed.

Lemma zip2_left_id (f : num → num → num) (original target : list (list num)) :
  same_shapes original target → (∀ x y, f x y = x) →
  zip_with (zip_with f) original target = original.
Proof.
  intros Hsh Hf. induction Hsh as [|o t os ts Hot _ IH]; simpl; [done|].
  by rewrite IH, zip_with_left_id.
Qed.

Lemma zip2_right_id (f : num → num → num) (original target : list (list num)) :
  same_shapes original target → (∀ x y, f x y = y) →
  zip_with (zip_with f) original target = target.
Proof.
  intros Hsh Hf. induction Hsh as [|o t os ts Hot _ IH]; simpl; [done|].
  by rewrite IH, zip_with_right_id.
Qed.

Lemma same_shapes_refl (ws : list (list num)) : same_shapes ws ws.
Proof. induction ws; by constructor. Qed.

Lemma zip2_diag_id (f : num → num → num) (ws : list (list num)) :
  (∀ x, f x x = x) → zip_with (zip_with f) ws ws = ws.
Proof.
  intros Hf. induction ws as [|w ws IH]; simpl; [done|]. rewrite IH. f_equal.
  induction w as [|x w IHw]; simpl; [done|]. by rewrite Hf, IHw.
Qed.
End TargetEdges.

(** [update_target] reads only as many weight arrays of the live network
    as the target has: arrays the live network has beyond them change
    nothing. *)
Theorem update_target_ignores_extra {num : Type} `{NumOps num}
    (target original oextra : list (list num)) (tau : num) :
  same_shapes original target →
  update_target target (original ++ oextra) tau
  = update_target target original tau
  ∧ update_target target original tau
    = Ok (zip_with (zip_with (polyak tau)) original target).
Proof.
  intros Hsh. split; [|by apply update_target_Ok].
  rewrite (update_target_Ok target original tau Hsh).
  unfold update_target.
  pose proof (update_target_loop_window tau original target Hsh [] [] oextra []
                eq_refl) as Hloop.
  simpl in Hloop. rewrite app_nil_r in Hloop. rewrite Hloop.
  cbn [mbind res_bind]. rewrite app_nil_r. unfold set_weights.
  rewrite decide_True; [done|].
  clear Hloop. induction Hsh as [|o t os ts Hot _ IH]; [done|].
  cbn [zip_with map]. rewrite IH, length_zip_with. f_equal. lia.
Qed.

Lemma update_target_ignores_extra_witness :
  same_shapes [[10%Z; 20%Z]] [[2%Z; 4%Z]]
  ∧ update_target [[2%Z; 4%Z]] ([[10%Z; 20%Z]] ++ [[7%Z]]) 1%Z
    = Ok [[10%Z; 20%Z]].
Proof.
  assert (Hsh : same_shapes [[10%Z; 20%Z]] [[2%Z; 4%Z]]) by (repeat constructor).
  split; [exact Hsh|].
  destruct (update_target_ignores_extra [[2%Z; 4%Z]] [[10%Z; 20%Z]] [[7%Z]] 1%Z Hsh)
    as [-> ->].
  reflexivity.
Defined.

(** When the live network has fewer weight arrays than the target,
    [update_target] raises and the target is not updated; if the arrays
    agree in shape, the exception is the [IndexError] of the
    first missing array. *)
Theorem update_target_missing_arrays {num : Type} `{NumOps num}
    (target original : list (list num)) (tau : num) :
  length original < length target →
  (∃ e, update_target target original tau = Raise e)
  ∧ (same_shapes original (take (length original) target) →
     update_target target original tau = Raise IndexError).
Proof.
  intros Hlt. split.
  - unfold update_target.
    destruct (update_target_loop_missing original tau (seq 0 (length target))
                (ex_intro _ (length original)
                   (conj (proj2 (elem_of_seq 0 (length target) (length original))
                            ltac:(lia)) (le_n _))) target) as [e ->].
    by exists e.
  - intros Hsh.
    assert (Hlen : length (take (length original) target) = length original)
      by (rewrite length_take; lia).
    destruct (drop (length original) target) as [|t rest] eqn:Hdrop.
    { apply (f_equal length) in Hdrop. rewrite length_drop in Hdrop.
      simpl in Hdrop. lia. }
    pose proof (update_target_loop_window tau original
                  (take (length original) target) Hsh [] [] [] (t :: rest)
                  eq_refl) as Hloop.
    simpl in Hloop. rewrite app_nil_r, Hlen in Hloop.
    unfold update_target.
    rewrite <- (take_drop (length original) target), Hdrop.
    rewrite length_app, Hlen, seq_app, update_target_loop_app, Hloop.
    cbn [mbind res_bind]. simpl.
    rewrite update_target_at_missing by lia. done.
Qed.

Lemma update_target_missing_arrays_witness :
  length [[10%Z]] < length [[2%Z]; [3%Z]]
  ∧ same_shapes [[10%Z]] (take (length [[10%Z]]) [[2%Z]; [3%Z]])
  ∧ update_target [[2%Z]; [3%Z]] [[10%Z]] 1%Z = Raise IndexError.
Proof.
  assert (Hlt : length [[10%Z]] < length [[2%Z]; [3%Z]]) by (simpl; lia).
  assert (Hsh : same_shapes [[10%Z]] (take (length [[10%Z]]) [[2%Z]; [3%Z]]))
    by (repeat constructor).
  split; [exact Hlt|]. split; [exact Hsh|].
  exact (proj2 (update_target_missing_arrays [[2%Z]; [3%Z]] [[10%Z]] 1%Z Hlt) Hsh).
Defined.

(** The ends of the range of [tau], over the real numbers, for networks
    of the same architecture: [tau = 1] is the hard copy of the live
    weights, [tau = 0] leaves the target as it is, and a target that
    already equals the live network is a fixed point for every [tau]. *)
Theorem update_target_tau_edges (target original : list (list R)) (tau : R) :
  same_shapes original target →
  update_target target original 1%R = Ok original
  ∧ update_target target original 0%R = Ok target
  ∧ update_target original original tau = Ok original.
Proof.
  intros Hsh.
  rewrite !update_target_Ok by (done || apply same_shapes_refl).
  split; [|split]; f_equal.
  - apply zip2_left_id; [done|]. intros x y. rewrite polyak_R. ring.
  - apply zip2_right_id; [done|]. intros x y. rewrite polyak_R. ring.
  - apply zip2_diag_id. intros x. rewrite polyak_R. ring.
Qed.

Lemma update_target_tau_edges_witness :
  same_shapes [[10%R]] [[2%R]]
  ∧ update_target [[2%R]] [[10%R]] 1%R = Ok [[10%R]]
  ∧ update_target [[2%R]] [[10%R]] 0%R = Ok [[2%R]].
Proof.
  assert (Hsh : same_shapes [[10%R]] [[2%R]]) by (repeat constructor).
  split; [exact Hsh|].
  destruct (update_target_tau_edges [[2%R]] [[10%R]] 0%R Hsh) as (H1 & H0 & _).
  by split.
Defined.


(** ** Running loops without exceptions *)

Section SafeFacts.
Context {St : Type} (P : St → Prop).

Lemma safe_exec (f : St → St) : (∀ s, P s → P (f s)) → safe P (exec f).
Proof. intros Hf s Hs. split; [done|]. by apply Hf. Qed.

Lemma safe_try (f : St → res St) :
  (∀ s, P s → ∃ s', f s = Ok s' ∧ P s') → safe P (try f).
Proof.
  intros Hf s Hs. unfold try. destruct (Hf s Hs) as (s' & -> & Hs'). done.
Qed.

Lemma safe_attempt (f : St → run St) :
  (∀ s, P s → match f s with
              | Done s' => P s'
              | Failed _ => False
              | Unfinished => True
              end) →
  safe P (attempt f).
Proof.
  intros Hf s Hs. unfold attempt. specialize (Hf s Hs).
  by destruct (f s) as [s'|e|].
Qed.

Lemma safe_if_then (cond : St → bool) (body : stmt St) :
  (∀ s, P s → cond s = true → no_throw (body s) ∧ P (ctl_state (body s))) →
  safe P (if_then cond body).
Proof.
  intros Hb s Hs. unfold if_then. destruct (cond s) eqn:E; [by apply Hb|done].
Qed.

Lemma safe_block (body : list (stmt St)) :
  Forall (safe P) body → safe P (block body).
Proof.
  induction 1 as [|c rest Hc _ IH]; intros s Hs; simpl; [done|].
  destruct (Hc s Hs) as [Hnt Hp].
  destruct (c s) as [s'| | |]; simpl in *; try done. by apply IH.
Qed.

(** A statement that always falls through and establishes [Q], followed
    by statements that are safe from [Q]. *)
Lemma safe_block_seq (Q : St → Prop) (c : stmt St) (rest : list (stmt St)) :
  (∀ s, P s → ∃ s', c s = Next s' ∧ Q s') →
  (∀ s, Q s → no_throw (block rest s) ∧ P (ctl_state (block rest s))) →
  safe P (block (c :: rest)).
Proof.
  intros Hc Hrest s Hs. simpl. destruct (Hc s Hs) as (s' & -> & Hq).
  by apply Hrest.
Qed.

Lemma safe_block_cons (c : stmt St) (rest : list (stmt St)) :
  safe P c → safe P (block rest) → safe P (block (c :: rest)).
Proof.
  intros Hc Hrest s Hs. simpl. destruct (Hc s Hs) as [Hnt Hp].
  destruct (c s) as [s'| | |]; simpl in *; try done. by apply Hrest.
Qed.

Lemma safe_for_range (start n : nat) (body : nat → stmt St) :
  (∀ t, safe P (body t)) → safe P (for_range start n body).
Proof.
  intros Hb. revert start. induction n as [|n IH]; intros start s Hs; simpl;
    [done|].
  destruct (Hb start s Hs) as [Hnt Hp].
  destruct (body start s) as [s'| | |]; simpl in *; try done. by apply IH.
Qed.

Lemma safe_while_true (fuel : nat) (body : stmt St) :
  safe P body → safe P (while_true fuel body).
Proof.
  intros Hb. induction fuel as [|fuel IH]; intros s Hs; simpl; [done|].
  destruct (Hb s Hs) as [Hnt Hp].
  destruct (body s) as [s'| | |]; simpl in *; try done. by apply IH.
Qed.

(** A [for] loop whose body never ends in [break] and that runs to its
    end has run its body [n] times. *)
Lemma for_range_Next (Q : nat → St → Prop) (body : nat → stmt St)
    (start n : nat) (s s' : St) :
  (∀ t x x', Q t x → body t x = Next x' → Q (S t) x') →
  (∀ t x x', body t x ≠ Break x') →
  Q start s → for_range start n body s = Next s' → Q (start + n) s'.
Proof.
  intros Hstep Hnb. revert start s.
  induction n as [|n IH]; intros start s Hs; simpl.
  - intros [= <-]. by rewrite Nat.add_0_r.
  - destruct (body start s) as [x| x | |] eqn:E; try done.
    + intros Hrest. rewrite <- Nat.add_succ_comm.
      apply (IH (S start) x); [|done]. by eapply Hstep.
    + by apply Hnb in E.
Qed.
End SafeFacts.

Lemma same_shapes_map_length {num : Type} (a b : list (list num)) :
  same_shapes a b ↔ map length a = map length b.
Proof.
  split.
  - induction 1 as [|x y xs ys Hxy _ IH]; simpl; [done|]. by rewrite Hxy, IH.
  - revert b. induction a as [|x xs IH]; intros [|y ys]; simpl; try done.
    + constructor.
    + intros [= Hxy Hrest]. constructor; [done|]. by apply IH.
Qed.

(** ** [Buffer.record] with the shape checks of numpy *)

Section RecordRowsFacts.
Context {num : Type} `{NumOps num}.

Lemma broadcast_to_fit (width : nat) (value : list num) :
  length value = width → broadcast_to width value = Ok value.
Proof. intros Hl. unfold broadcast_to. by rewrite decide_True. Qed.

Lemma broadcast_to_inv (width : nat) (value row : list num) :
  broadcast_to width value = Ok row →
  length row = width ∧ ∀ P : num → Prop, Forall P value → Forall P row.
Proof.
  unfold broadcast_to. case_decide as Hl.
  - intros [= <-]. done.
  - destruct value as [|x [|y rest]]; try done.
    intros [= <-]. split; [by rewrite length_replicate|].
    intros P HP. apply Forall_replicate. by inversion HP.
Qed.

Lemma Forall_width_map_length (n : nat) (arr arr' : list (list num)) :
  map length arr' = map length arr →
  Forall (fun row => length row = n) arr →
  Forall (fun row => length row = n) arr'.
Proof.
  intros Hmap Harr. revert arr' Hmap.
  induction Harr as [|row arr Hrow _ IH]; intros [|row' arr']; simpl; try done.
  intros [= Hl Hrest]. constructor; [lia|by apply IH].
Qed.

Lemma assign_row_fit (width : nat) (arr : list (list num)) (index : nat)
    (value : list num) :
  Forall (fun row => length row = width) arr → length value = width →
  assign_row arr index value = set_row arr index value.
Proof.
  intros Harr Hl. unfold assign_row, get_row, set_row.
  destruct (arr !! index) as [old|] eqn:E.
  - cbn [mbind res_bind].
    rewrite (Forall_lookup_1 _ _ _ _ Harr E), broadcast_to_fit by done.
    done.
  - apply lookup_ge_None in E. rewrite decide_False by lia. done.
Qed.

Lemma assign_row_inv (arr arr' : list (list num)) (index : nat)
    (value : list num) :
  assign_row arr index value = Ok arr' →
  ∃ row, set_row arr index row = Ok arr'
         ∧ map length arr' = map length arr
         ∧ ∀ P : num → Prop, Forall P value → Forall P row.
Proof.
  unfold assign_row, get_row.
  destruct (arr !! index) as [old|] eqn:E; [|done]. cbn [mbind res_bind].
  destruct (broadcast_to (length old) value) as [row|] eqn:Hb; [|done].
  cbn [mbind res_bind]. intros Hset. exists row. split; [done|].
  apply broadcast_to_inv in Hb as [Hlen HP]. split; [|done].
  unfold set_row in Hset. case_decide; [|done]. injection Hset as <-.
  change (length <$> <[index:=row]> arr = length <$> arr).
  rewrite list_fmap_insert, Hlen. apply list_insert_id.
  by rewrite list_lookup_fmap, E.
Qed.

(** On values of the shapes of the rows, the checked [record] is
    [record]. *)
Lemma record_rows_fit (ns na : nat) (b : Buffer (list num) (list num) num)
    (s a : list num) (r : num) (s' : list num) :
  rows_have_width ns na b →
  length s = ns → length a = na → length s' = ns →
  record_rows b (s, a, r, s') = record b (s, a, r, s').
Proof.
  intros (Hs & Ha & Hn) Ls La Ln. unfold record_rows, record.
  destruct (py_mod _ _) as [index|]; [|done]. cbn [mbind res_bind].
  rewrite (assign_row_fit ns), (assign_row_fit na), (assign_row_fit ns) by done.
  done.
Qed.

(** What the checked [record] stores is what [record] stores for the
    rows numpy broadcasts the values to; no row changes its shape. *)
Lemma record_rows_inv (b b' : Buffer (list num) (list num) num)
    (s a : list num) (r : num) (s' : list num) :
  record_rows b (s, a, r, s') = Ok b' →
  ∃ s0 a0 s1,
    record b (s0, a0, r, s1) = Ok b'
    ∧ (∀ P : num → Prop, Forall P a → Forall P a0)
    ∧ map length (state_buffer b') = map length (state_buffer b)
    ∧ map length (action_buffer b') = map length (action_buffer b)
    ∧ map length (next_state_buffer b') = map length (next_state_buffer b).
Proof.
  unfold record_rows.
  destruct (py_mod _ _) as [index|] eqn:Em; [|done]. cbn [mbind res_bind].
  destruct (assign_row (state_buffer b) index s) as [sb|] eqn:Es; [|done].
  cbn [mbind res_bind].
  destruct (assign_row (action_buffer b) index a) as [ab|] eqn:Ea; [|done].
  cbn [mbind res_bind].
  destruct (set_row (reward_buffer b) index r) as [rb|] eqn:Er; [|done].
  cbn [mbind res_bind].
  destruct (assign_row (next_state_buffer b) index s') as [nb|] eqn:En; [|done].
  cbn [mbind res_bind]. intros [= <-].
  apply assign_row_inv in Es as (s0 & Hs0 & Ms & _).
  apply assign_row_inv in Ea as (a0 & Ha0 & Ma & Pa).
  apply assign_row_inv in En as (s1 & Hs1 & Mn & _).
  exists s0, a0, s1. unfold record. rewrite Em. cbn [mbind res_bind].
  rewrite Hs0. cbn [mbind res_bind]. rewrite Ha0. cbn [mbind res_bind].
  rewrite Er. cbn [mbind res_bind]. rewrite Hs1. done.
Qed.

Lemma rows_have_width_map_length (ns na : nat)
    (b b' : Buffer (list num) (list num) num) :
  map length (state_buffer b') = map length (state_buffer b) →
  map length (action_buffer b') = map length (action_buffer b) →
  map length (next_state_buffer b') = map length (next_state_buffer b) →
  rows_have_width ns na b → rows_have_width ns na b'.
Proof.
  intros Ms Ma Mn (Hs & Ha & Hn).
  split; [|split]; by eapply Forall_width_map_length.
Qed.
End RecordRowsFacts.

(** ** One iteration of the continuous training loop *)

Section StepFacts.
Context {num : Type} `{NumOps num} {Opt : Type} `{!@ActorCritic num Opt}.
Context {W : Type} `{!@World num W}.
Hypothesis nleb_total : ∀ a b : num, nleb a b = false → nleb b a = true.
Hypothesis keep : steps_keep_shapes.

Lemma update_fields (g : num) (m : @Models num Opt) (sb ab : list (list num))
    (rb : list num) (nb : list (list num)) :
  target_actor (update g m sb ab rb nb) = target_actor m
  ∧ target_critic (update g m sb ab rb nb) = target_critic m
  ∧ map length (actor_model (update g m sb ab rb nb)) = map length (actor_model m)
  ∧ map length (critic_model (update g m sb ab rb nb)) = map length (critic_model m).
Proof using keep.
  destruct keep as [Hc Ha]. unfold update.
  specialize (Hc (critic_optimizer m) (critic_model m) sb ab
                (bootstrap_y g m rb nb)).
  destruct (critic_step _ _ _ _ _) as [copt cw]. simpl in Hc.
  specialize (Ha (actor_optimizer m) (actor_model m) cw sb).
  destruct (actor_step _ _ _ _) as [aopt aw]. simpl in Ha. done.
Qed.

Lemma learn_ok (g : num) (zs za : list num) (zr : num) (C : nat)
    (ts : list (Transition (list num) (list num) num))
    (b : Buffer (list num) (list num) num) (m : @Models num Opt) (w : W) :
  0 < C → 0 < length ts → ring_inv zs za zr C ts b →
  ∃ sb ab rb nb w',
    learn g b m w = Ok (update g m sb ab rb nb, w').
Proof.
  intros HC Hts Hinv. unfold learn.
  assert (Hrange : 0 < record_range b).
  { unfold record_range.
    rewrite (ri_counter _ _ _ _ _ _ Hinv), (ri_capacity _ _ _ _ _ _ Hinv). lia. }
  fold (record_range b). rewrite np_random_choice_Ok by done.
  cbn [mbind res_bind].
  destruct (learn_batch_valid zs za zr C ts b
              (choice_of_draws (record_range b)
                 (raw_draws (record_range b) (batch_size b) w).1) HC Hinv
              (choice_of_draws_bound _ _ Hrange))
    as [[[[[sb ab] rb] nb] ->] _].
  cbn [mbind res_bind]. by eexists _, _, _, _, _.
Qed.

(** From a well-formed noise object the policy raises nothing: its
    action has one component per component of the noise and lies within
    the bounds. *)
Lemma policy_ok (cfg : @Config num) (st : @Trainer num Opt W) :
  nleb (lower_bound cfg) (upper_bound cfg) = true →
  noise_ok (ou_noise st) →
  ∃ action noise' w1,
    policy (actor_model (models st)) (lower_bound cfg) (upper_bound cfg)
      (prev_state st) (ou_noise st) (world st) = Ok (action, noise', w1)
    ∧ in_bounds (lower_bound cfg) (upper_bound cfg) action
    ∧ length action = length (mean (ou_noise st))
    ∧ noise_ok noise'
    ∧ mean noise' = mean (ou_noise st).
Proof using nleb_total.
  intros Hb Hnoise. unfold policy.
  pose proof (np_random_normal_length (length (mean (ou_noise st))) (world st))
    as Hz.
  destruct (np_random_normal (length (mean (ou_noise st))) (world st)) as [z w1].
  simpl in Hz.
  destruct (OU_call_same_shape (ou_noise st) z Hnoise Hz)
    as (x & -> & Hlen & Hok1 & _).
  cbn [mbind res_bind]. eexists _, _, _. split; [reflexivity|].
  split; [|split; [|split]].
  - apply Forall_forall. intros a Hin.
    apply list_elem_of_fmap in Hin as (y & -> & _). by apply clip_in_range.
  - by rewrite !length_map.
  - done.
  - by destruct (ou_noise st).
Qed.

(** Once the transition is recorded, the rest of the iteration raises
    nothing and gives a well-formed state; each target network is
    blended with the live weights the gradient step of this iteration
    produced. *)
Lemma after_step_ok (cfg : @Config num) (zs za : list num) (zr : num)
    (C : nat) (ts : list (Transition (list num) (list num) num))
    (st : @Trainer num Opt W) (action : list num) (noise' : OUActionNoise)
    (state : list num) (reward : num) (done truncated : bool) (w : W)
    (b' : Buffer (list num) (list num) num)
    (t' : Transition (list num) (list num) num) :
  trainer_ok cfg zs za zr C ts st →
  noise_ok noise' →
  record_rows (buffer st) (prev_state st, action, reward, state) = Ok b' →
  record (buffer st) t' = Ok b' →
  in_bounds (lower_bound cfg) (upper_bound cfg) t'.1.1.2 →
  ∃ st',
    after_step cfg st action noise' state reward done truncated w
    = Ok (st', done || truncated)
    ∧ trainer_ok cfg zs za zr C (ts ++ [t']) st'
    ∧ buffer st' = b'
    ∧ ou_noise st' = noise'
    ∧ prev_state st' = (if done || truncated then prev_state st else state)
    ∧ ep_reward_list st' = ep_reward_list st
    ∧ avg_reward_list st' = avg_reward_list st
    ∧ stdout st' = stdout st
    ∧ episodic_reward st' = episodic_reward st ⊕ reward
    ∧ target_actor (models st')
      = zip_with (zip_with (polyak (tau cfg)))
          (actor_model (models st')) (target_actor (models st))
    ∧ target_critic (models st')
      = zip_with (zip_with (polyak (tau cfg)))
          (critic_model (models st')) (target_critic (models st)).
Proof using keep.
  intros [HC Hbuf Hnoise Hacts Ha Hc] Hnoise' Hrows Hrec Hact.
  unfold after_step. rewrite Hrows. cbn [mbind res_bind].
  destruct (record_spec zs za zr C ts (buffer st) t' HC Hbuf)
    as (b'' & Hrec' & _ & _ & _ & Hinv').
  rewrite Hrec in Hrec'. injection Hrec' as <-.
  destruct (learn_ok (gamma cfg) zs za zr C (ts ++ [t']) b' (models st)
              w HC ltac:(rewrite length_app; simpl; lia) Hinv')
    as (sb & ab & rb & nb & w' & ->).
  cbn [mbind res_bind].
  destruct (update_fields (gamma cfg) (models st) sb ab rb nb)
    as (Hta & Htc & Hla & Hlc).
  set (m1 := update (gamma cfg) (models st) sb ab rb nb) in *.
  assert (Ha1 : same_shapes (actor_model m1) (target_actor m1)).
  { apply same_shapes_map_length. rewrite Hla, Hta.
    by apply same_shapes_map_length. }
  assert (Hc1 : same_shapes (critic_model m1) (target_critic m1)).
  { apply same_shapes_map_length. rewrite Hlc, Htc.
    by apply same_shapes_map_length. }
  rewrite !update_target_Ok by done. cbn [mbind res_bind].
  eexists. split; [reflexivity|].
  split.
  { split; simpl; try done.
    - apply Forall_app. split; [done|]. by repeat constructor.
    - by apply same_shapes_zip.
    - by apply same_shapes_zip. }
  simpl. rewrite Hta, Htc. done.
Qed.

(** An iteration that raises nothing, from a well-formed state, has
    recorded one transition, whose action is within the bounds, and gives
    a well-formed state whose buffer rows have the shapes they had. *)
Lemma episode_step_Ok_inv (cfg : @Config num) (zs za : list num) (zr : num)
    (C : nat) (ts : list (Transition (list num) (list num) num))
    (st st' : @Trainer num Opt W) (brk : bool) :
  nleb (lower_bound cfg) (upper_bound cfg) = true →
  trainer_ok cfg zs za zr C ts st →
  episode_step_res cfg st = Ok (st', brk) →
  ∃ t',
    trainer_ok cfg zs za zr C (ts ++ [t']) st'
    ∧ target_actor (models st')
      = zip_with (zip_with (polyak (tau cfg)))
          (actor_model (models st')) (target_actor (models st))
    ∧ target_critic (models st')
      = zip_with (zip_with (polyak (tau cfg)))
          (critic_model (models st')) (target_critic (models st)).
Proof using nleb_total keep.
  intros Hb Hok Hstep.
  destruct (policy_ok cfg st Hb (tk_noise _ _ _ _ _ _ _ Hok))
    as (action & noise' & w1 & Hpol & Hact & _ & Hnoise' & _).
  unfold episode_step_res in Hstep. rewrite Hpol in Hstep.
  cbn [mbind res_bind] in Hstep.
  destruct (env_step w1 action) as [[[[state reward] done] truncated] w2].
  destruct (record_rows (buffer st) (prev_state st, action, reward, state))
    as [b'|e] eqn:Hrows.
  - destruct (record_rows_inv _ _ _ _ _ _ Hrows)
      as (s0 & a0 & s1 & Hrec & Pa & _).
    destruct (after_step_ok cfg zs za zr C ts st action noise' state reward
                done truncated w2 b' (s0, a0, reward, s1) Hok Hnoise' Hrows Hrec
                (Pa _ Hact))
      as (st1 & Hafter & Hok1 & _ & _ & _ & _ & _ & _ & _ & Hta & Htc).
    rewrite Hafter in Hstep. injection Hstep as <- <-.
    by exists (s0, a0, reward, s1).
  - unfold after_step in Hstep. rewrite Hrows in Hstep. done.
Qed.

(** From a well-formed state whose arrays have the shapes of the
    observations and of the noise, an iteration raises nothing and
    records the transition it observed. *)
Lemma episode_step_ok (cfg : @Config num) (zs za : list num) (zr : num)
    (C : nat) (ts : list (Transition (list num) (list num) num))
    (st : @Trainer num Opt W) (ns na : nat) :
  nleb (lower_bound cfg) (upper_bound cfg) = true →
  trainer_ok cfg zs za zr C ts st →
  shapes_ok ns na st →
  length (prev_state st) = ns →
  (∀ (w : W) (a : list num), length (env_step w a).1.1.1.1 = ns) →
  ∃ st' brk action reward state,
    episode_step_res cfg st = Ok (st', brk)
    ∧ trainer_ok cfg zs za zr C
        (ts ++ [(prev_state st, action, reward, state)]) st'
    ∧ episodic_reward st' = episodic_reward st ⊕ reward
    ∧ shapes_ok ns na st'
    ∧ length (prev_state st') = ns.
Proof using nleb_total keep.
  intros Hb Hok [Hrowsw Hmean] Hprev Hobs.
  destruct (policy_ok cfg st Hb (tk_noise _ _ _ _ _ _ _ Hok))
    as (action & noise' & w1 & Hpol & Hact & Hlen & Hnoise' & Hmean').
  unfold episode_step_res. rewrite Hpol. cbn [mbind res_bind].
  pose proof (Hobs w1 action) as Hstate.
  destruct (env_step w1 action) as [[[[state reward] done] truncated] w2].
  simpl in Hstate.
  pose proof (record_rows_fit ns na (buffer st) (prev_state st) action reward
                state Hrowsw Hprev ltac:(lia) Hstate) as Hfit.
  destruct (record_spec zs za zr C ts (buffer st)
              (prev_state st, action, reward, state)
              (tk_capacity _ _ _ _ _ _ _ Hok) (tk_buffer _ _ _ _ _ _ _ Hok))
    as (b' & Hrec & _).
  rewrite Hrec in Hfit.
  destruct (record_rows_inv _ _ _ _ _ _ Hfit) as (_ & _ & _ & _ & _ & Ms & Ma & Mn).
  destruct (after_step_ok cfg zs za zr C ts st action noise' state reward
              done truncated w2 b' _ Hok Hnoise' Hfit Hrec Hact)
    as (st' & Hafter & Hok' & Hbuf & Hou & Hps & _ & _ & _ & Hr & _).
  exists st', (done || truncated), action, reward, state.
  split; [done|]. split; [done|]. split; [done|]. split.
  - split.
    + rewrite Hbuf. by eapply rows_have_width_map_length.
    + by rewrite Hou, Hmean'.
  - rewrite Hps. by destruct (done || truncated).
Qed.
End StepFacts.

Section LoopFacts2.
Context {num : Type} `{NumOps num} {Opt : Type} `{!@ActorCritic num Opt}.
Context {W : Type} `{!@World num W}.

Lemma trainer_ok_reset (cfg : @Config num) (zs za : list num) (zr : num)
    (C : nat) (ts : list (Transition (list num) (list num) num))
    (st : @Trainer num Opt W) :
  trainer_ok cfg zs za zr C ts st → trainer_ok cfg zs za zr C ts (episode_reset st).
Proof.
  intros [? ? ? ? ? ?]. unfold episode_reset.
  destruct (env_reset (world st)). by split.
Qed.

Lemma trainer_ok_end (cfg : @Config num) (zs za : list num) (zr : num)
    (C : nat) (ts : list (Transition (list num) (list num) num))
    (st : @Trainer num Opt W) (ep : nat) :
  trainer_ok cfg zs za zr C ts st → trainer_ok cfg zs za zr C ts (episode_end ep st).
Proof. intros [? ? ? ? ? ?]. by split. Qed.

Lemma after_step_lists (cfg : @Config num) (st st' : @Trainer num Opt W)
    (action : list num) (noise' : OUActionNoise) (state : list num)
    (reward : num) (done truncated brk : bool) (w : W) :
  after_step cfg st action noise' state reward done truncated w = Ok (st', brk) →
  ep_reward_list st' = ep_reward_list st
  ∧ avg_reward_list st' = avg_reward_list st
  ∧ stdout st' = stdout st.
Proof.
  unfold after_step.
  destruct (record_rows _ _) as [b'|]; [|done]. cbn [mbind res_bind].
  destruct (learn _ _ _ _) as [[m1 w']|]; [|done]. cbn [mbind res_bind].
  destruct (update_target (target_actor m1) _ _) as [ta|]; [|done].
  cbn [mbind res_bind].
  destruct (update_target (target_critic m1) _ _) as [tc|]; [|done].
  cbn [mbind res_bind]. by intros [= <- <-].
Qed.

Lemma episode_step_res_lists (cfg : @Config num) (st st' : @Trainer num Opt W)
    (brk : bool) :
  episode_step_res cfg st = Ok (st', brk) →
  ep_reward_list st' = ep_reward_list st
  ∧ avg_reward_list st' = avg_reward_list st
  ∧ stdout st' = stdout st.
Proof.
  unfold episode_step_res, policy.
  destruct (np_random_normal _ _) as [z w1].
  destruct (OU_call (ou_noise st) z) as [[noise n']|]; [|done].
  cbn [mbind res_bind].
  destruct (env_step _ _) as [[[[state reward] done] truncated] w2].
  apply after_step_lists.
Qed.

Lemma episode_step_lists (cfg : @Config num) (st : @Trainer num Opt W) :
  let st' := ctl_state (episode_step cfg st) in
  ep_reward_list st' = ep_reward_list st
  ∧ avg_reward_list st' = avg_reward_list st
  ∧ stdout st' = stdout st.
Proof.
  unfold episode_step.
  destruct (episode_step_res cfg st) as [[st' [|]]|] eqn:E; simpl; try done.
  all: by apply episode_step_res_lists in E.
Qed.

Lemma while_true_not_Break {St : Type} (fuel : nat) (body : stmt St) (s s' : St) :
  while_true fuel body s ≠ Break s'.
Proof.
  revert s. induction fuel as [|fuel IH]; intros s; simpl.
  - discriminate.
  - destruct (body s); try discriminate. apply IH.
Qed.

Lemma while_step_lists (cfg : @Config num) (fuel : nat) (st : @Trainer num Opt W) :
  let st' := ctl_state (while_true fuel (episode_step cfg) st) in
  ep_reward_list st' = ep_reward_list st
  ∧ avg_reward_list st' = avg_reward_list st
  ∧ stdout st' = stdout st.
Proof.
  revert st. induction fuel as [|fuel IH]; intros st; simpl; [done|].
  pose proof (episode_step_lists cfg st) as Hstep. simpl in Hstep.
  destruct (episode_step cfg st) as [s1|s1|e s1|s1]; simpl in *; try done.
  destruct (IH s1) as (-> & -> & ->). done.
Qed.

Lemma episode_not_Break (cfg : @Config num) (fuel ep : nat)
    (st st' : @Trainer num Opt W) :
  episode cfg fuel ep st ≠ Break st'.
Proof.
  unfold episode, block, exec.
  pose proof (while_true_not_Break fuel (episode_step cfg) (episode_reset st)) as Hnb.
  destruct (while_true fuel (episode_step cfg) (episode_reset st)) eqn:E;
    try done.
Qed.
End LoopFacts2.

(** ** The continuous training loop as a whole *)

(** From a well-formed state (positive capacity, a buffer that recorded
    [ts], noise arrays of the shape of [mean], targets of the
    architecture of their live networks) whose arrays fit each other
    (buffer rows of [ns] and [na] components, a previous observation and
    simulator observations of [ns] components, a noise process of [na]
    components), with shape-preserving gradient steps, one iteration of
    the loop raises nothing: the policy, the record with the shape checks
    of numpy, the sampling, both gradient steps and both soft updates go
    through, the buffer has recorded one more transition, and the state
    is well-formed with arrays of the same shapes again. *)
Theorem episode_step_never_raises {num : Type} `{NumOps num} {Opt : Type}
    `{!@ActorCritic num Opt} {W : Type} `{!@World num W}
    (cfg : @Config num) (zs za : list num) (zr : num) (C : nat)
    (ts : list (Transition (list num) (list num) num))
    (st : @Trainer num Opt W) (ns na : nat) :
  (∀ a b : num, nleb a b = false → nleb b a = true) →
  steps_keep_shapes →
  nleb (lower_bound cfg) (upper_bound cfg) = true →
  trainer_ok cfg zs za zr C ts st →
  shapes_ok ns na st →
  length (prev_state st) = ns →
  (∀ (w : W) (a : list num), length (env_step w a).1.1.1.1 = ns) →
  ∃ st' brk action reward state,
    episode_step_res cfg st = Ok (st', brk)
    ∧ trainer_ok cfg zs za zr C
        (ts ++ [(prev_state st, action, reward, state)]) st'
    ∧ buffer_counter (buffer st') = S (length ts)
    ∧ episodic_reward st' = episodic_reward st ⊕ reward
    ∧ shapes_ok ns na st'
    ∧ length (prev_state st') = ns.
Proof.
  intros Htotal Hkeep Hb Hok Hshapes Hprev Hobs.
  destruct (episode_step_ok Htotal Hkeep cfg zs za zr C ts st ns na Hb Hok
              Hshapes Hprev Hobs)
    as (st' & brk & action & reward & state & Hstep & Hok' & Hr & Hsh' & Hprev').
  exists st', brk, action, reward, state.
  split; [done|]. split; [done|]. split; [|done].
  rewrite (ri_counter _ _ _ _ _ _ (tk_buffer _ _ _ _ _ _ _ Hok')).
  rewrite length_app. simpl. lia.
Qed.

(** The soft updates of an iteration see the live weights after the
    gradient steps of the same iteration: each target network ends as
    the blend of its old weights with the new live weights. *)
Theorem soft_update_follows_gradient_step {num : Type} `{NumOps num}
    {Opt : Type} `{!@ActorCritic num Opt} {W : Type} `{!@World num W}
    (cfg : @Config num) (zs za : list num) (zr : num) (C : nat)
    (ts : list (Transition (list num) (list num) num))
    (st st' : @Trainer num Opt W) (brk : bool) :
  (∀ a b : num, nleb a b = false → nleb b a = true) →
  steps_keep_shapes →
  nleb (lower_bound cfg) (upper_bound cfg) = true →
  trainer_ok cfg zs za zr C ts st →
  episode_step_res cfg st = Ok (st', brk) →
  target_actor (models st')
  = zip_with (zip_with (polyak (tau cfg)))
      (actor_model (models st')) (target_actor (models st))
  ∧ target_critic (models st')
    = zip_with (zip_with (polyak (tau cfg)))
        (critic_model (models st')) (target_critic (models st)).
Proof.
  intros Htotal Hkeep Hb Hok Hstep.
  by destruct (episode_step_Ok_inv Htotal Hkeep cfg zs za zr C ts st st' brk
                 Hb Hok Hstep) as (_ & _ & Hta & Htc).
Qed.

Section LoopSafety.
Context {num : Type} `{NumOps num} {Opt : Type} `{!@ActorCritic num Opt}.
Context {W : Type} `{!@World num W}.
Hypothesis nleb_total : ∀ a b : num, nleb a b = false → nleb b a = true.
Hypothesis keep : steps_keep_shapes.

Lemma episode_step_safe (cfg : @Config num) (zs za : list num) (zr : num)
    (C ns na : nat) :
  nleb (lower_bound cfg) (upper_bound cfg) = true →
  observations_have_width ns →
  safe (fun st => loop_inv cfg zs za zr C ns na st ∧ length (prev_state st) = ns)
    (episode_step cfg).
Proof using nleb_total keep.
  intros Hb [_ Hobs] st [[[ts Hok] Hshapes] Hprev]. unfold episode_step.
  destruct (episode_step_ok nleb_total keep cfg zs za zr C ts st ns na Hb Hok
              Hshapes Hprev Hobs)
    as (st' & brk & action & reward & state & -> & Hok' & _ & Hsh' & Hprev').
  destruct brk; (split; [done|]); simpl; (split; [|done]);
    (split; [by eexists|done]).
Qed.

Lemma training_loop_safe (cfg : @Config num) (zs za : list num) (zr : num)
    (C ns na fuel : nat) :
  nleb (lower_bound cfg) (upper_bound cfg) = true →
  observations_have_width ns →
  safe (loop_inv cfg zs za zr C ns na) (training_loop cfg fuel).
Proof using nleb_total keep.
  intros Hb Hobs. unfold training_loop. apply safe_for_range. intros ep.
  unfold episode.
  apply (safe_block_seq _
           (fun st => loop_inv cfg zs za zr C ns na st
                      ∧ length (prev_state st) = ns)).
  - intros s [[ts Hok] Hshapes]. eexists. split; [reflexivity|].
    pose proof (proj1 Hobs (world s)) as Hlen.
    pose proof (trainer_ok_reset cfg zs za zr C ts s Hok) as Hok'.
    unfold episode_reset in *.
    destruct (env_reset (world s)) as [obs w']. simpl in *.
    split; [|done]. split; [by exists ts|done].
  - intros s Hs.
    assert (Hrest : safe (fun st => loop_inv cfg zs za zr C ns na st
                                    ∧ length (prev_state st) = ns)
                      (block [ while_true fuel (episode_step cfg);
                               exec (episode_end ep) ])).
    { apply safe_block. repeat apply Forall_cons_2; try apply Forall_nil_2.
      - apply safe_while_true. by apply episode_step_safe.
      - apply safe_exec. intros x [[[ts Hok] Hshapes] Hprev].
        split; [|done]. split; [|done]. exists ts. by apply trainer_ok_end. }
    destruct (Hrest s Hs) as [Hnt [Hinv _]]. done.
Qed.

Lemma episode_step_preserves (cfg : @Config num) (zs za : list num) (zr : num)
    (C : nat) :
  nleb (lower_bound cfg) (upper_bound cfg) = true →
  preserves (trainer_inv cfg zs za zr C) (episode_step cfg).
Proof using nleb_total keep.
  intros Hb st [ts Hok]. unfold episode_step.
  destruct (episode_step_res cfg st) as [[st' brk]|e] eqn:Hstep; [|by exists ts].
  destruct (episode_step_Ok_inv nleb_total keep cfg zs za zr C ts st st' brk
              Hb Hok Hstep) as (t' & Hok' & _).
  destruct brk; simpl; by eexists.
Qed.

Lemma training_loop_preserves (cfg : @Config num) (zs za : list num) (zr : num)
    (C fuel : nat) :
  nleb (lower_bound cfg) (upper_bound cfg) = true →
  preserves (trainer_inv cfg zs za zr C) (training_loop cfg fuel).
Proof using nleb_total keep.
  intros Hb. unfold training_loop. apply preserves_for_range. intros ep.
  unfold episode. apply preserves_block.
  repeat apply Forall_cons_2; try apply Forall_nil_2.
  - apply preserves_exec. intros s [ts Hok]. exists ts. by apply trainer_ok_reset.
  - apply preserves_while_true. by apply episode_step_preserves.
  - apply preserves_exec. intros s [ts Hok]. exists ts. by apply trainer_ok_end.
Qed.
End LoopSafety.

(** From a well-formed state whose buffer rows have [ns] and [na]
    components and whose noise process has [na], with a simulator whose
    observations have [ns] components, the whole training loop raises
    nothing, whatever values the simulator and the generator return and
    however many iterations the episodes take: it runs to its end or is
    still running when the iteration budget is used up, and the state it
    reaches is well-formed with arrays of the same shapes. *)
Theorem training_loop_never_raises {num : Type} `{NumOps num} {Opt : Type}
    `{!@ActorCritic num Opt} {W : Type} `{!@World num W}
    (cfg : @Config num) (zs za : list num) (zr : num) (C fuel : nat)
    (st : @Trainer num Opt W) (ns na : nat) :
  (∀ a b : num, nleb a b = false → nleb b a = true) →
  steps_keep_shapes →
  nleb (lower_bound cfg) (upper_bound cfg) = true →
  observations_have_width ns →
  trainer_inv cfg zs za zr C st →
  shapes_ok ns na st →
  no_throw (training_loop cfg fuel st)
  ∧ trainer_inv cfg zs za zr C (ctl_state (training_loop cfg fuel st))
  ∧ shapes_ok ns na (ctl_state (training_loop cfg fuel st)).
Proof.
  intros Htotal Hkeep Hb Hobs Hinv Hshapes.
  destruct (training_loop_safe Htotal Hkeep cfg zs za zr C ns na fuel Hb Hobs
              st (conj Hinv Hshapes)) as [Hnt [Hinv' Hsh']].
  done.
Qed.

(** Every action the training loop leaves in a valid slot of the buffer
    lies within the action bounds. *)
Theorem stored_actions_within_bounds {num : Type} `{NumOps num} {Opt : Type}
    `{!@ActorCritic num Opt} {W : Type} `{!@World num W}
    (cfg : @Config num) (zs za : list num) (zr : num) (C fuel : nat)
    (st : @Trainer num Opt W) :
  (∀ a b : num, nleb a b = false → nleb b a = true) →
  steps_keep_shapes →
  nleb (lower_bound cfg) (upper_bound cfg) = true →
  trainer_inv cfg zs za zr C st →
  ∀ j s a r s',
    j < record_range (buffer (ctl_state (training_loop cfg fuel st))) →
    slot (buffer (ctl_state (training_loop cfg fuel st))) j = Some (s, a, r, s') →
    in_bounds (lower_bound cfg) (upper_bound cfg) a.
Proof.
  intros Htotal Hkeep Hb Hinv j s a r s' Hj Hslot.
  destruct (training_loop_preserves Htotal Hkeep cfg zs za zr C fuel Hb st Hinv)
    as [ts Hok].
  destruct Hok as [HC Hbuf _ Hacts _ _].
  unfold record_range in Hj.
  rewrite (ri_counter _ _ _ _ _ _ Hbuf), (ri_capacity _ _ _ _ _ _ Hbuf) in Hj.
  destruct (ring_inv_latest zs za zr C ts _ j HC Hbuf ltac:(lia))
    as (i' & Hi' & _ & _ & Hlatest).
  rewrite Nat.mod_small in Hlatest by lia.
  rewrite Hslot in Hlatest. symmetry in Hlatest.
  rewrite Forall_forall in Hacts.
  apply list_elem_of_lookup_2 in Hlatest. by apply Hacts in Hlatest.
Qed.

Lemma Z_leb_total (a b : Z) : (a <=? b)%Z = false → (b <=? a)%Z = true.
Proof. intros Hab. apply Z.leb_le. apply Z.leb_gt in Hab. lia. Qed.

Lemma Z_leb_trans (a b c : Z) :
  (a <=? b)%Z = true → (b <=? c)%Z = true → (a <=? c)%Z = true.
Proof. intros Hab Hbc. apply Z.leb_le. apply Z.leb_le in Hab, Hbc. lia. Qed.

Lemma toy_steps_keep_shapes : @steps_keep_shapes Z unit Toy.toy_nets.
Proof. split; intros; reflexivity. Qed.

Lemma toy_trainer_ok :
  trainer_ok Toy.cfg [0; 0; 0]%Z [0%Z] 0%Z 4 [] Toy.st0.
Proof.
  split; simpl.
  - lia.
  - apply (ring_inv_init [0; 0; 0]%Z [0%Z] 0%Z 4 2).
  - by split.
  - constructor.
  - repeat constructor.
  - repeat constructor.
Qed.

Lemma toy_reset_ok :
  trainer_ok Toy.cfg [0; 0; 0]%Z [0%Z] 0%Z 4 [] (episode_reset Toy.st0).
Proof. apply trainer_ok_reset, toy_trainer_ok. Qed.

Lemma toy_shapes_ok : shapes_ok 3 1 Toy.st0.
Proof. split; [|reflexivity]. repeat split; by repeat constructor. Qed.

Lemma toy_observations : @observations_have_width Z Toy.world Toy.toy_world 3.
Proof. split; intros; reflexivity. Qed.

Lemma episode_step_never_raises_witness :
  (∀ a b : Z, (a <=? b)%Z = false → (b <=? a)%Z = true)
  ∧ @steps_keep_shapes Z unit Toy.toy_nets
  ∧ (-2 <=? 2)%Z = true
  ∧ trainer_ok Toy.cfg [0; 0; 0]%Z [0%Z] 0%Z 4 [] (episode_reset Toy.st0)
  ∧ shapes_ok 3 1 (episode_reset Toy.st0)
  ∧ length (prev_state (episode_reset Toy.st0)) = 3
  ∧ (∀ (w : Toy.world) (a : list Z), length (env_step w a).1.1.1.1 = 3)
  ∧ ∃ st' brk, episode_step_res Toy.cfg (episode_reset Toy.st0) = Ok (st', brk)
               ∧ buffer_counter (buffer st') = 1.
Proof.
  split; [exact Z_leb_total|]. split; [exact toy_steps_keep_shapes|].
  split; [reflexivity|]. split; [exact toy_reset_ok|].
  split; [exact toy_shapes_ok|]. split; [reflexivity|].
  split; [exact (proj2 toy_observations)|].
  destruct (@episode_step_never_raises Z Z_NumOps unit Toy.toy_nets Toy.world
              Toy.toy_world Toy.cfg [0; 0; 0]%Z [0%Z] 0%Z 4 []
              (episode_reset Toy.st0) 3 1
              Z_leb_total toy_steps_keep_shapes eq_refl toy_reset_ok
              toy_shapes_ok eq_refl (proj2 toy_observations))
    as (st' & brk & _ & _ & _ & Hstep & _ & Hcnt & _).
  by exists st', brk.
Defined.

Lemma soft_update_follows_gradient_step_witness :
  ∃ st' brk,
    episode_step_res Toy.cfg (episode_reset Toy.st0) = Ok (st', brk)
    ∧ target_actor (models st')
      = zip_with (zip_with (polyak 0%Z)) (actor_model (models st')) [[5%Z]].
Proof.
  destruct (episode_step_res Toy.cfg (episode_reset Toy.st0))
    as [[st' brk]|] eqn:Hstep; [|discriminate Hstep].
  exists st', brk. split; [reflexivity|].
  exact (proj1 (@soft_update_follows_gradient_step Z Z_NumOps unit Toy.toy_nets
                  Toy.world Toy.toy_world Toy.cfg [0; 0; 0]%Z [0%Z] 0%Z 4
                  [] (episode_reset Toy.st0) st' brk Z_leb_total
                  toy_steps_keep_shapes eq_refl toy_reset_ok Hstep)).
Defined.

Lemma training_loop_never_raises_witness :
  @observations_have_width Z Toy.world Toy.toy_world 3
  ∧ trainer_inv Toy.cfg [0; 0; 0]%Z [0%Z] 0%Z 4 Toy.st0
  ∧ shapes_ok 3 1 Toy.st0
  ∧ no_throw (training_loop Toy.cfg 3 Toy.st0).
Proof.
  assert (Hinv : trainer_inv Toy.cfg [0; 0; 0]%Z [0%Z] 0%Z 4 Toy.st0)
    by (exists []; exact toy_trainer_ok).
  split; [exact toy_observations|]. split; [exact Hinv|].
  split; [exact toy_shapes_ok|].
  exact (proj1 (@training_loop_never_raises Z Z_NumOps unit Toy.toy_nets
                  Toy.world Toy.toy_world Toy.cfg [0; 0; 0]%Z [0%Z] 0%Z 4 3
                  Toy.st0 3 1 Z_leb_total toy_steps_keep_shapes eq_refl
                  toy_observations Hinv toy_shapes_ok)).
Defined.

Lemma stored_actions_within_bounds_witness :
  trainer_inv Toy.cfg [0; 0; 0]%Z [0%Z] 0%Z 4 Toy.st0
  ∧ slot (buffer (ctl_state (training_loop Toy.cfg 3 Toy.st0))) 0
    = Some ([0; 0; 0]%Z, [2%Z], 0%Z, [0; 0; 0]%Z)
  ∧ in_bounds (-2)%Z 2%Z [2%Z].
Proof.
  assert (Hinv : trainer_inv Toy.cfg [0; 0; 0]%Z [0%Z] 0%Z 4 Toy.st0)
    by (exists []; exact toy_trainer_ok).
  split; [exact Hinv|]. split; [reflexivity|].
  apply (@stored_actions_within_bounds Z Z_NumOps unit Toy.toy_nets Toy.world Toy.toy_world
              Toy.cfg [0; 0; 0]%Z [0%Z] 0%Z 4 3 Toy.st0
           Z_leb_total toy_steps_keep_shapes eq_refl Hinv
           0 [0; 0; 0]%Z [2%Z] 0%Z [0; 0; 0]%Z).
  - vm_compute. lia.
  - reflexivity.
Defined.

(** A training loop that runs to its end, started with empty lists,
    has appended one return and one average per episode; the [k]-th
    average is the mean of the returns of the last 40 episodes (or of
    all of them while fewer than 40 were played) up to episode [k], and
    it is what was printed for that episode. *)
Theorem reward_lists_after_training {num : Type} `{NumOps num} {Opt : Type}
    `{!@ActorCritic num Opt} {W : Type} `{!@World num W}
    (cfg : @Config num) (fuel : nat) (st st' : @Trainer num Opt W) :
  ep_reward_list st = [] → avg_reward_list st = [] → stdout st = [] →
  training_loop cfg fuel st = Next st' →
  length (ep_reward_list st') = total_episodes cfg
  ∧ length (avg_reward_list st') = total_episodes cfg
  ∧ (∀ k, k < total_episodes cfg →
       avg_reward_list st' !! k
       = Some (mean_of (drop (S k - 40) (take (S k) (ep_reward_list st')))))
  ∧ stdout st' = imap (fun k avg => (k, avg)) (avg_reward_list st').
Proof.
  intros He Ha Hs Hloop.
  pose (Q := fun (t : nat) (s : @Trainer num Opt W) =>
    length (ep_reward_list s) = t
    ∧ length (avg_reward_list s) = t
    ∧ (∀ k, k < t →
         avg_reward_list s !! k
         = Some (mean_of (drop (S k - 40) (take (S k) (ep_reward_list s)))))
    ∧ stdout s = imap (fun k avg => (k, avg)) (avg_reward_list s)).
  assert (HQ : Q (0 + total_episodes cfg) st').
  { apply (for_range_Next Q (episode cfg fuel) 0 (total_episodes cfg) st st').
    - intros t x x' (Hl1 & Hl2 & Havg & Hout) Hep.
      apply episode_Next_inv in Hep as (s_last & Hwhile & ->).
      pose proof (while_step_lists cfg fuel (episode_reset x)) as Hlists.
      rewrite Hwhile in Hlists. simpl in Hlists.
      destruct Hlists as (E1 & E2 & E3).
      assert (R1 : ep_reward_list (episode_reset x) = ep_reward_list x)
        by (unfold episode_reset; by destruct (env_reset (world x))).
      assert (R2 : avg_reward_list (episode_reset x) = avg_reward_list x)
        by (unfold episode_reset; by destruct (env_reset (world x))).
      assert (R3 : stdout (episode_reset x) = stdout x)
        by (unfold episode_reset; by destruct (env_reset (world x))).
      rewrite R1 in E1. rewrite R2 in E2. rewrite R3 in E3.
      unfold Q, episode_end. simpl. rewrite E1, E2, E3.
      rewrite !length_app, Hl1, Hl2. simpl.
      split; [lia|]. split; [lia|]. split.
      + intros k Hk. destruct (decide (k = t)) as [->|Hne].
        * rewrite lookup_app_r by lia. rewrite Hl2, Nat.sub_diag. simpl.
          rewrite take_ge by (rewrite length_app; simpl; lia).
          do 3 f_equal. lia.
        * rewrite lookup_app_l by lia.
          rewrite take_app_le by lia. apply Havg. lia.
      + rewrite imap_app. simpl. rewrite Hout, Hl2. do 3 f_equal; lia.
    - intros t x x'. apply episode_not_Break.
    - unfold Q. rewrite He, Ha, Hs. simpl. split; [done|]. split; [done|].
      split; [intros k Hk; lia|done].
    - exact Hloop. }
  simpl in HQ. exact HQ.
Qed.

Lemma reward_lists_after_training_witness :
  ep_reward_list Toy.st0 = [] ∧ avg_reward_list Toy.st0 = []
  ∧ stdout Toy.st0 = []
  ∧ ∃ st', training_loop Toy.cfg 3 Toy.st0 = Next st'
           ∧ length (ep_reward_list st') = 2
           ∧ length (avg_reward_list st') = 2.
Proof.
  do 3 (split; [reflexivity|]).
  eexists. split; [vm_compute; reflexivity|].
  match goal with |- length (ep_reward_list ?s) = _ ∧ _ =>
    destruct (@reward_lists_after_training Z Z_NumOps unit Toy.toy_nets Toy.world Toy.toy_world
              Toy.cfg 3 Toy.st0 s eq_refl eq_refl
                eq_refl eq_refl) as (H1 & H2 & _)
  end.
  split; [exact H1 | exact H2].
Defined.

(** ** Action selection in the discrete variant *)

Section ArgmaxFacts.
Context {num : Type} `{NumOps num}.

Lemma argmax_from_bound (best : num) (besti i : nat) (l : list num) :
  besti < i → argmax_from best besti i l < i + length l.
Proof.
  revert best besti i. induction l as [|x l IH]; intros best besti i Hlt; simpl.
  - lia.
  - destruct (nltb best x).
    + specialize (IH x i (S i) ltac:(lia)). lia.
    + specialize (IH best besti (S i) ltac:(lia)). lia.
Qed.

Lemma argmax_bound (l : list num) (a : nat) : argmax l = Ok a → a < length l.
Proof.
  destruct l as [|x xs]; [done|]. simpl. intros [= <-].
  pose proof (argmax_from_bound x 0 1 xs ltac:(lia)). lia.
Qed.

Hypothesis nltb_irrefl : ∀ a : num, nltb a a = false.
Hypothesis nltb_asym : ∀ a b : num, nltb a b = true → nltb b a = false.
Hypothesis nltb_below :
  ∀ a b c : num, nltb a b = true → nltb a c = false → nltb c b = true.

(** The scan keeps the first largest entry seen so far. *)
Lemma argmax_from_spec (pre l : list num) (best : num) (besti : nat) :
  pre !! besti = Some best →
  (∀ j y, pre !! j = Some y → nltb best y = false) →
  (∀ j y, j < besti → pre !! j = Some y → nltb y best = true) →
  ∃ q, (pre ++ l) !! argmax_from best besti (length pre) l = Some q
       ∧ (∀ j y, (pre ++ l) !! j = Some y → nltb q y = false)
       ∧ (∀ j y, j < argmax_from best besti (length pre) l →
            (pre ++ l) !! j = Some y → nltb y q = true).
Proof using nltb_irrefl nltb_asym nltb_below.
  revert pre best besti. induction l as [|x l IH]; intros pre best besti Hb Hmax Hfirst.
  - simpl. rewrite app_nil_r. by exists best.
  - simpl. destruct (nltb best x) eqn:E.
    + specialize (IH (pre ++ [x]) x (length pre)).
      rewrite length_app, <- app_assoc in IH. simpl in IH.
      rewrite Nat.add_1_r in IH. apply IH.
      * by rewrite lookup_app_r, Nat.sub_diag.
      * intros j y Hj. destruct (decide (j < length pre)) as [Hlt|Hge].
        -- rewrite lookup_app_l in Hj by done.
           apply nltb_asym. eapply nltb_below; [exact E|]. by eapply Hmax.
        -- rewrite lookup_app_r in Hj by lia.
           destruct (j - length pre) as [|n]; simpl in Hj; [|done].
           injection Hj as <-. apply nltb_irrefl.
      * intros j y Hj Hy. rewrite lookup_app_l in Hy by done.
        eapply nltb_below; [exact E|]. by eapply Hmax.
    + specialize (IH (pre ++ [x]) best besti).
      rewrite length_app, <- app_assoc in IH. simpl in IH.
      rewrite Nat.add_1_r in IH. apply IH.
      * apply lookup_lt_Some in Hb as Hlt. by rewrite lookup_app_l.
      * intros j y Hj. destruct (decide (j < length pre)) as [Hlt|Hge].
        -- rewrite lookup_app_l in Hj by done. by eapply Hmax.
        -- rewrite lookup_app_r in Hj by lia.
           destruct (j - length pre) as [|n]; simpl in Hj; [|done].
           by injection Hj as <-.
      * intros j y Hj Hy. apply lookup_lt_Some in Hb as Hlt.
        rewrite lookup_app_l in Hy by lia. by eapply Hfirst.
Qed.

Lemma argmax_spec (l : list num) (a : nat) :
  argmax l = Ok a →
  ∃ q, l !! a = Some q
       ∧ (∀ j y, l !! j = Some y → nltb q y = false)
       ∧ (∀ j y, j < a → l !! j = Some y → nltb y q = true).
Proof using nltb_irrefl nltb_asym nltb_below.
  destruct l as [|x xs]; [done|]. simpl. intros [= <-].
  apply (argmax_from_spec [x] xs x 0).
  - done.
  - intros [|j] y Hj; simpl in Hj; [|done]. injection Hj as <-. apply nltb_irrefl.
  - intros j y Hj. lia.
Qed.
End ArgmaxFacts.

Section GreedyFacts.
Context {num : Type} `{NumOps num}.
Context {Frame State Model Weights W : Type}.
Context `{!@Breakout.QNetwork num Frame State Model Weights}.
Context `{!@Breakout.World num Frame W}.

Lemma np_random_randint_bound (high : nat) (w : W) :
  0 < high →
  ∃ a w', Breakout.np_random_randint high w = Ok (a, w') ∧ a < high.
Proof.
  intros Hh. unfold Breakout.np_random_randint. rewrite decide_False by lia.
  destruct (Breakout.random_below w high) as [r w'].
  exists (r mod high), w'. split; [done|]. apply Nat.mod_upper_bound. lia.
Qed.

Lemma epsilon_greedy_bound (A : nat) (self : @Breakout.DQN num State Model)
    (state : State) (w : W) :
  outputs_per_action A → Breakout.action_size self = A → 0 < A →
  ∃ a w', Breakout.epsilon_greedy self state w = Ok (a, w') ∧ a < A.
Proof.
  intros Hout HA Hpos. unfold Breakout.epsilon_greedy.
  destruct (Breakout.random_uniform w) as [u w1].
  destruct (nltb u (Breakout.epsilon self)).
  - rewrite HA. by apply np_random_randint_bound.
  - destruct (argmax (Breakout.predict (Breakout.main_network self) state))
      as [a|e] eqn:Ha.
    + cbn [mbind res_bind]. exists a, w1. split; [done|].
      apply argmax_bound in Ha. by rewrite Hout in Ha.
    + specialize (Hout (Breakout.main_network self) state).
      destruct (Breakout.predict (Breakout.main_network self) state);
        simpl in *; [lia|done].
Qed.
End GreedyFacts.

(** [epsilon_greedy] always returns a valid action index when the agent
    has at least one action and the network outputs one Q-value per
    action, whichever branch the generator selects.  With no action at
    all it raises [ValueError] in both branches. *)
Theorem epsilon_greedy_valid_action {num : Type} `{NumOps num}
    {Frame State Model Weights W : Type}
    `{!@Breakout.QNetwork num Frame State Model Weights}
    `{!@Breakout.World num Frame W}
    (A : nat) (self : @Breakout.DQN num State Model) (state : State) (w : W) :
  outputs_per_action A → Breakout.action_size self = A →
  (0 < A → ∃ a w', Breakout.epsilon_greedy self state w = Ok (a, w') ∧ a < A)
  ∧ (A = 0 → Breakout.epsilon_greedy self state w = Raise ValueError).
Proof.
  intros Hout HA. split; [by apply epsilon_greedy_bound|].
  intros ->. unfold Breakout.epsilon_greedy.
  destruct (Breakout.random_uniform w) as [u w1].
  destruct (nltb u (Breakout.epsilon self)).
  - unfold Breakout.np_random_randint. by rewrite HA, decide_True.
  - specialize (Hout (Breakout.main_network self) state).
    destruct (Breakout.predict (Breakout.main_network self) state); [done|].
    simpl in Hout. lia.
Qed.

Lemma toy_outputs_per_action :
  @outputs_per_action Z unit unit (Z * Z) (Z * Z) Toy.pair_qnet 2.
Proof. intros m s. reflexivity. Qed.

Lemma epsilon_greedy_valid_action_witness :
  let self := Breakout.mkDQN 2 [] 9%Z 8%Z 1000 (10%Z, 20%Z) (30%Z, 40%Z) in
  @outputs_per_action Z unit unit (Z * Z) (Z * Z) Toy.pair_qnet 2
  ∧ Breakout.action_size self = 2
  ∧ ∃ a w', @Breakout.epsilon_greedy Z Z_NumOps unit unit (Z * Z) (Z * Z)
              Toy.pair_qnet (list nat) Toy.toy_game self tt [3] = Ok (a, w')
            ∧ a < 2.
Proof.
  intros self. split; [exact toy_outputs_per_action|]. split; [reflexivity|].
  exact (proj1 (@epsilon_greedy_valid_action Z Z_NumOps unit unit (Z * Z) (Z * Z)
                  (list nat) Toy.pair_qnet Toy.toy_game 2 self tt [3]
                  toy_outputs_per_action eq_refl) ltac:(lia)).
Defined.

(** When the generator selects the greedy branch, the action returned is
    the first index whose Q-value no other Q-value exceeds, and the
    generator is not consulted again. *)
Theorem greedy_action_is_first_maximum {num : Type} `{NumOps num}
    {Frame State Model Weights W : Type}
    `{!@Breakout.QNetwork num Frame State Model Weights}
    `{!@Breakout.World num Frame W}
    (self : @Breakout.DQN num State Model) (state : State) (w w' : W) (a : nat) :
  (∀ x : num, nltb x x = false) →
  (∀ x y : num, nltb x y = true → nltb y x = false) →
  (∀ x y z : num, nltb x y = true → nltb x z = false → nltb z y = true) →
  nltb (Breakout.random_uniform w).1 (Breakout.epsilon self) = false →
  Breakout.epsilon_greedy self state w = Ok (a, w') →
  let Q_values := Breakout.predict (Breakout.main_network self) state in
  w' = (Breakout.random_uniform w).2
  ∧ ∃ q, Q_values !! a = Some q
         ∧ (∀ j y, Q_values !! j = Some y → nltb q y = false)
         ∧ (∀ j y, j < a → Q_values !! j = Some y → nltb y q = true).
Proof.
  intros Hirr Hasym Hbelow Hbranch. unfold Breakout.epsilon_greedy.
  destruct (Breakout.random_uniform w) as [u w1]. simpl in Hbranch.
  rewrite Hbranch.
  destruct (argmax (Breakout.predict (Breakout.main_network self) state))
    as [a'|e] eqn:Ha; [|done].
  cbn [mbind res_bind]. intros [= <- <-]. split; [done|].
  by apply (argmax_spec Hirr Hasym Hbelow).
Qed.

Lemma greedy_action_is_first_maximum_witness :
  let self := Breakout.mkDQN 2 [] 9%Z 0%Z 1000 (10%Z, 20%Z) (30%Z, 40%Z) in
  (∀ x : Z, (x <? x)%Z = false)
  ∧ (∀ x y : Z, (x <? y)%Z = true → (y <? x)%Z = false)
  ∧ (∀ x y z : Z, (x <? y)%Z = true → (x <? z)%Z = false → (z <? y)%Z = true)
  ∧ @Breakout.epsilon_greedy Z Z_NumOps unit unit (Z * Z) (Z * Z)
      Toy.pair_qnet (list nat) Toy.toy_game self tt [] = Ok (1, [])
  ∧ ∃ q, [10%Z; 20%Z] !! 1 = Some q
         ∧ ∀ j y, [10%Z; 20%Z] !! j = Some y → (q <? y)%Z = false.
Proof.
  intros self.
  assert (Hirr : ∀ x : Z, (x <? x)%Z = false) by (intros x; apply Z.ltb_irrefl).
  assert (Hasym : ∀ x y : Z, (x <? y)%Z = true → (y <? x)%Z = false).
  { intros x y Hxy. apply Z.ltb_ge. apply Z.ltb_lt in Hxy. lia. }
  assert (Hbelow : ∀ x y z : Z,
            (x <? y)%Z = true → (x <? z)%Z = false → (z <? y)%Z = true).
  { intros x y z Hxy Hxz. apply Z.ltb_lt. apply Z.ltb_lt in Hxy.
    apply Z.ltb_ge in Hxz. lia. }
  split; [exact Hirr|]. split; [exact Hasym|]. split; [exact Hbelow|].
  split; [reflexivity|].
  destruct (@greedy_action_is_first_maximum Z Z_NumOps unit unit (Z * Z) (Z * Z)
              (list nat) Toy.pair_qnet Toy.toy_game self tt [] [] 1
              Hirr Hasym Hbelow eq_refl eq_refl) as (_ & q & Hq & Hmax & _).
  exists q. split; [exact Hq | exact Hmax].
Defined.

(** ** Training in the discrete variant *)

Lemma deque_append_Forall {T : Type} (P : T → Prop) (maxlen : nat)
    (d : list T) (x : T) :
  Forall P d → P x → Forall P (deque_append maxlen d x).
Proof.
  intros Hd Hx. unfold deque_append.
  assert (Hall : Forall P (d ++ [x])) by (apply Forall_app; by repeat constructor).
  case_decide; [by apply Forall_drop|done].
Qed.

Lemma deque_append_bound {T : Type} (maxlen : nat) (d : list T) (x : T) :
  length d ≤ maxlen → length (deque_append maxlen d x) ≤ maxlen.
Proof.
  intros Hd. unfold deque_append.
  case_decide as Hc; rewrite ?length_drop; rewrite length_app in *; simpl in *; lia.
Qed.

Section TrainSafety.
Context {num : Type} `{NumOps num}.
Context {Frame State Model Weights W : Type}.
Context `{!@Breakout.QNetwork num Frame State Model Weights}.
Context `{!@Breakout.World num Frame W}.

Lemma train_one_fields (self self' : @Breakout.DQN num State Model)
    (tr : @Breakout.Transition num State) :
  Breakout.train_one self tr = Ok self' →
  Breakout.replay_buffer self' = Breakout.replay_buffer self
  ∧ Breakout.target_network self' = Breakout.target_network self
  ∧ Breakout.action_size self' = Breakout.action_size self
  ∧ Breakout.gamma self' = Breakout.gamma self
  ∧ Breakout.epsilon self' = Breakout.epsilon self
  ∧ Breakout.update_rate self' = Breakout.update_rate self.
Proof.
  unfold Breakout.train_one.
  destruct (Breakout.fit_target self tr) as [v|]; [|done].
  cbn [mbind res_bind]. by intros [= <-].
Qed.

Lemma train_loop_fields (self self' : @Breakout.DQN num State Model)
    (minibatch : list (@Breakout.Transition num State)) :
  Breakout.train_loop self minibatch = Ok self' →
  Breakout.replay_buffer self' = Breakout.replay_buffer self
  ∧ Breakout.target_network self' = Breakout.target_network self
  ∧ Breakout.action_size self' = Breakout.action_size self
  ∧ Breakout.gamma self' = Breakout.gamma self
  ∧ Breakout.epsilon self' = Breakout.epsilon self
  ∧ Breakout.update_rate self' = Breakout.update_rate self.
Proof.
  revert self. induction minibatch as [|tr rest IH]; intros self; simpl.
  - by intros [= <-].
  - destruct (Breakout.train_one self tr) as [s1|] eqn:E1; [|done].
    cbn [mbind res_bind]. intros Hrest.
    apply IH in Hrest as (-> & -> & -> & -> & -> & ->).
    by apply (train_one_fields self s1 tr).
Qed.

Lemma train_fields (self self' : @Breakout.DQN num State Model)
    (fuel k : nat) (w w' : W) :
  Breakout.train fuel self k w = Done (self', w') →
  Breakout.replay_buffer self' = Breakout.replay_buffer self
  ∧ Breakout.target_network self' = Breakout.target_network self
  ∧ Breakout.action_size self' = Breakout.action_size self
  ∧ Breakout.gamma self' = Breakout.gamma self
  ∧ Breakout.epsilon self' = Breakout.epsilon self
  ∧ Breakout.update_rate self' = Breakout.update_rate self.
Proof.
  unfold Breakout.train.
  destruct (Breakout.random_sample _ _ _ _) as [[mb w1]| |]; [|done..].
  cbn [mbind run_bind].
  destruct (Breakout.train_loop self mb) as [s1|] eqn:E; [|done].
  cbn [of_res mbind run_bind]. intros [= <- <-]. by apply train_loop_fields in E.
Qed.

Lemma train_loop_ok (A : nat) (self : @Breakout.DQN num State Model)
    (minibatch : list (@Breakout.Transition num State)) :
  outputs_per_action A → 0 < A →
  Forall (fun tr => action_of tr < A) minibatch →
  ∃ self', Breakout.train_loop self minibatch = Ok self'.
Proof.
  intros Hout Hpos Hmb. revert self.
  induction Hmb as [|tr rest Htr _ IH]; intros self; simpl; [by eexists|].
  destruct tr as [[[[state action] reward] next_state] done].
  unfold action_of in Htr. simpl in Htr.
  assert (Htq : ∃ tq, Breakout.target_Q_of self reward next_state done = Ok tq).
  { unfold Breakout.target_Q_of. destruct done; simpl; [by eexists|].
    pose proof (Hout (Breakout.target_network self) next_state) as Hl.
    destruct (Breakout.predict (Breakout.target_network self) next_state);
      simpl in *; [lia|]. by eexists. }
  destruct Htq as [tq Htq].
  unfold Breakout.train_one.
  rewrite (fit_target_Ok self state action reward next_state done tq Htq)
    by (by rewrite Hout).
  cbn [mbind res_bind]. apply IH.
Qed.

(** On a well-formed agent, once the minibatch is sampled the loop over
    it goes through and the agent stays well-formed. *)
Lemma train_after_sample (A : nat) (g e : num) (u : nat)
    (self : @Breakout.DQN num State Model) (fuel k : nat) (w w1 : W)
    (mb : list (@Breakout.Transition num State)) :
  outputs_per_action A → dqn_ok A g e u self →
  Breakout.random_sample fuel (Breakout.replay_buffer self) k w = Done (mb, w1) →
  ∃ self', Breakout.train fuel self k w = Done (self', w1)
           ∧ dqn_ok A g e u self'.
Proof.
  intros Hout Hok Hs. unfold Breakout.train. rewrite Hs. cbn [mbind run_bind].
  destruct (train_loop_ok A self mb Hout (dk_positive _ _ _ _ _ Hok))
    as [self' Hloop].
  { apply Forall_forall. intros tr Htr.
    apply (random_sample_subset _ _ _ _ _ _ _ Hs) in Htr.
    pose proof (dk_stored _ _ _ _ _ Hok) as Hst.
    rewrite Forall_forall in Hst. by apply Hst. }
  rewrite Hloop. cbn [of_res mbind run_bind]. exists self'. split; [done|].
  apply train_loop_fields in Hloop as (E1 & E2 & E3 & E4 & E5 & E6).
  destruct Hok. split; congruence.
Qed.

Lemma train_ok (A : nat) (g e : num) (u : nat)
    (self : @Breakout.DQN num State Model) (fuel k : nat) (w : W) :
  outputs_per_action A → dqn_ok A g e u self →
  k ≤ length (Breakout.replay_buffer self) →
  (∀ x, Breakout.train fuel self k w ≠ Failed x)
  ∧ (∀ self' w', Breakout.train fuel self k w = Done (self', w') →
                 dqn_ok A g e u self')
  ∧ (∀ mb w1,
       Breakout.random_sample fuel (Breakout.replay_buffer self) k w
       = Done (mb, w1) →
       ∃ self', Breakout.train fuel self k w = Done (self', w1))
  ∧ (length (Breakout.replay_buffer self) ≤ setsize k →
     ∃ self' w', Breakout.train fuel self k w = Done (self', w'))
  ∧ (redraws_end Breakout.randbelow →
     ∃ fuel0 self' w',
       dqn_ok A g e u self'
       ∧ ∀ fuel', fuel0 ≤ fuel' →
           Breakout.train fuel' self k w = Done (self', w')).
Proof.
  intros Hout Hok Hk.
  assert (Hafter : ∀ mb w1,
            Breakout.random_sample fuel (Breakout.replay_buffer self) k w
            = Done (mb, w1) →
            ∃ self', Breakout.train fuel self k w = Done (self', w1)
                     ∧ dqn_ok A g e u self')
    by (intros mb w1; by apply train_after_sample).
  split; [|split; [|split; [|split]]]; cycle 4.
  { intros Hend.
    destruct (random_sample_total (Breakout.replay_buffer self) k w Hend Hk)
      as (fuel0 & mb & w1 & Hs).
    destruct (train_after_sample A g e u self fuel0 k w w1 mb Hout Hok
                (Hs fuel0 ltac:(lia))) as (self' & Htrain & Hok').
    exists fuel0, self', w1. split; [done|]. intros fuel' Hle.
    destruct (train_after_sample A g e u self fuel' k w w1 mb Hout Hok
                (Hs fuel' Hle)) as (self'' & Htrain' & _).
    rewrite Htrain'. f_equal. f_equal.
    unfold Breakout.train in Htrain, Htrain'.
    rewrite (Hs fuel0 ltac:(lia)) in Htrain. rewrite (Hs fuel' Hle) in Htrain'.
    cbn [mbind run_bind] in Htrain, Htrain'.
    destruct (Breakout.train_loop self mb) as [s1|]; [|done].
    cbn [of_res mbind run_bind] in Htrain, Htrain'. congruence. }
  - intros x Hx.
    destruct (Breakout.random_sample fuel (Breakout.replay_buffer self) k w)
      as [[mb w1]|x'|] eqn:Hs.
    + destruct (Hafter mb w1 eq_refl) as (self' & Htrain & _). congruence.
    + by apply random_sample_not_Failed in Hs.
    + unfold Breakout.train in Hx. by rewrite Hs in Hx.
  - intros self' w' Htrain.
    destruct (Breakout.random_sample fuel (Breakout.replay_buffer self) k w)
      as [[mb w1]|x'|] eqn:Hs.
    + destruct (Hafter mb w1 eq_refl) as (self'' & Htrain' & Hok').
      rewrite Htrain in Htrain'. by injection Htrain' as -> _.
    + unfold Breakout.train in Htrain. by rewrite Hs in Htrain.
    + unfold Breakout.train in Htrain. by rewrite Hs in Htrain.
  - intros mb w1 Hs. destruct (Hafter mb w1 Hs) as (self' & Htrain & _).
    by exists self'.
  - intros Hn.
    destruct (random_sample_pool_Done fuel (Breakout.replay_buffer self) k w Hk Hn)
      as (mb & w1 & Hs).
    destruct (Hafter mb w1 Hs) as (self' & Htrain & _). by exists self', w1.
Qed.
End TrainSafety.

(** [train] changes the live network and nothing else of the agent: the
    replay buffer, the target network and the hyperparameters are what
    they were. *)
Theorem train_changes_only_main_network {num : Type} `{NumOps num}
    {Frame State Model Weights W : Type}
    `{!@Breakout.QNetwork num Frame State Model Weights}
    `{!@Breakout.World num Frame W}
    (self self' : @Breakout.DQN num State Model) (fuel k : nat) (w w' : W) :
  Breakout.train fuel self k w = Done (self', w') →
  Breakout.replay_buffer self' = Breakout.replay_buffer self
  ∧ Breakout.target_network self' = Breakout.target_network self
  ∧ Breakout.action_size self' = Breakout.action_size self
  ∧ Breakout.gamma self' = Breakout.gamma self
  ∧ Breakout.epsilon self' = Breakout.epsilon self
  ∧ Breakout.update_rate self' = Breakout.update_rate self.
Proof. apply train_fields. Qed.

(** On a well-formed agent whose networks output one Q-value per action,
    [train] with a batch size up to the number of stored transitions
    never raises, so the assignment [Q_values[0][action]] is always in
    range.  It returns as soon as its [random.sample] does, and the agent
    it returns is well-formed.  [random.sample] always returns for a
    store of at most [setsize] transitions; for a larger store it returns
    when the redraw loops of the generator end, and [train] then gives
    the same result for every budget from some budget on. *)
Theorem train_succeeds {num : Type} `{NumOps num}
    {Frame State Model Weights W : Type}
    `{!@Breakout.QNetwork num Frame State Model Weights}
    `{!@Breakout.World num Frame W}
    (A : nat) (g e : num) (u : nat)
    (self : @Breakout.DQN num State Model) (fuel k : nat) (w : W) :
  outputs_per_action A → dqn_ok A g e u self →
  k ≤ length (Breakout.replay_buffer self) →
  (∀ x, Breakout.train fuel self k w ≠ Failed x)
  ∧ (∀ self' w', Breakout.train fuel self k w = Done (self', w') →
                 dqn_ok A g e u self')
  ∧ (∀ mb w1,
       Breakout.random_sample fuel (Breakout.replay_buffer self) k w
       = Done (mb, w1) →
       ∃ self', Breakout.train fuel self k w = Done (self', w1))
  ∧ (length (Breakout.replay_buffer self) ≤ setsize k →
     ∃ self' w', Breakout.train fuel self k w = Done (self', w'))
  ∧ (redraws_end Breakout.randbelow →
     ∃ fuel0 self' w',
       dqn_ok A g e u self'
       ∧ ∀ fuel', fuel0 ≤ fuel' →
           Breakout.train fuel' self k w = Done (self', w')).
Proof. apply train_ok. Qed.

Lemma toy_dqn_ok :
  @dqn_ok Z unit (Z * Z) 2 9%Z 8%Z 1000
    (Breakout.mkDQN 2 [(tt, 1, 5%Z, tt, false); (tt, 0, 7%Z, tt, true)]
       9%Z 8%Z 1000 (10%Z, 20%Z) (30%Z, 40%Z)).
Proof.
  split; simpl; try done; try lia.
  - repeat constructor.
  - unfold Breakout.replay_maxlen. lia.
Qed.

(** Fewer than [n] selected positions leave one below [n] unselected. *)
Lemma unselected_position (n : nat) (selected : list nat) :
  length selected < n → ∃ r, r < n ∧ r ∉ selected.
Proof.
  intros Hlen.
  destruct (decide (Forall (fun r => r ∈ selected) (seq 0 n))) as [Hall|Hex].
  - assert (Hsub : seq 0 n ⊆+ selected).
    { apply NoDup_submseteq; [apply NoDup_seq|].
      intros x Hx. by eapply Forall_forall in Hall. }
    apply submseteq_length in Hsub. rewrite length_seq in Hsub. lia.
  - apply not_Forall_Exists in Hex; [|apply _].
    apply Exists_exists in Hex as (r & Hr%elem_of_seq & Hnot).
    exists r. split; [lia|done].
Qed.

(** The redraw loops of the counting generator end. *)
Lemma counter_game_redraws_end :
  redraws_end (@Breakout.randbelow Z unit nat Toy.counter_game).
Proof.
  intros n selected w Hlen.
  destruct (unselected_position n selected Hlen) as (r & Hr & Hnot).
  assert (Hrun : ∀ i w0, (w0 + i) mod n ∉ selected →
            ∃ j g', draw_unselected
                      (@Breakout.randbelow Z unit nat Toy.counter_game)
                      (S i) n selected w0 = Done (j, g')).
  { assert (Hdraw : ∀ w0, @Breakout.randbelow Z unit nat Toy.counter_game n w0
                          = Some (w0 mod n, S w0)) by done.
    induction i as [|i IH]; intros w0 Hi; cbn [draw_unselected];
      rewrite Hdraw; cbn [of_option mbind run_bind]; case_decide as Hin.
    - rewrite Nat.add_0_r in Hi. done.
    - by eexists _, _.
    - apply IH. by replace (S w0 + i) with (w0 + S i) by lia.
    - by eexists _, _. }
  destruct (Hrun (r + n - w mod n) w) as (j & g' & Hd).
  { pose proof (Nat.div_mod_eq w n) as Hdm.
    pose proof (Nat.mod_upper_bound w n ltac:(lia)) as Hm.
    replace (w + (r + n - w mod n)) with (r + (w / n + 1) * n) by nia.
    rewrite Nat.Div0.mod_add, Nat.mod_small by lia. done. }
  by eexists _, _, _.
Qed.

Lemma train_succeeds_witness :
  let self := Breakout.mkDQN 2 (replicate 30 (tt, 1, 5%Z, tt, false))
                9%Z 8%Z 1000 (10%Z, 20%Z) (30%Z, 40%Z) in
  @outputs_per_action Z unit unit (Z * Z) (Z * Z) Toy.pair_qnet 2
  ∧ @dqn_ok Z unit (Z * Z) 2 9%Z 8%Z 1000 self
  ∧ 2 ≤ length (Breakout.replay_buffer self)
  ∧ redraws_end (@Breakout.randbelow Z unit nat Toy.counter_game)
  ∧ ∃ fuel0 self' w',
      ∀ fuel', fuel0 ≤ fuel' →
        @Breakout.train Z Z_NumOps unit unit (Z * Z) (Z * Z) Toy.pair_qnet
          nat Toy.counter_game fuel' self 2 0 = Done (self', w').
Proof.
  intros self.
  assert (Hok : @dqn_ok Z unit (Z * Z) 2 9%Z 8%Z 1000 self).
  { split; simpl; try done; try lia.
    - repeat constructor.
    - unfold Breakout.replay_maxlen. lia. }
  split; [exact toy_outputs_per_action|]. split; [exact Hok|].
  split; [simpl; lia|]. split; [exact counter_game_redraws_end|].
  destruct (@train_succeeds Z Z_NumOps unit unit (Z * Z) (Z * Z) nat
              Toy.pair_qnet Toy.counter_game 2 9%Z 8%Z 1000 self 0 2 0
              toy_outputs_per_action Hok ltac:(simpl; lia))
    as (_ & _ & _ & _ & Hfair).
  destruct (Hfair counter_game_redraws_end) as (fuel0 & self' & w' & _ & Hrun).
  by exists fuel0, self', w'.
Defined.

(** With a generator that keeps returning [0], and a store too large for
    the pool branch, the redraw loop for the second position never ends:
    [train] returns within no budget. *)
Lemma train_redraw_never_ends (fuel : nat) :
  @Breakout.train Z Z_NumOps unit unit (Z * Z) (Z * Z) Toy.pair_qnet
    (list nat) Toy.toy_game fuel
    (Breakout.mkDQN 2 (replicate 30 (tt, 1, 5%Z, tt, false))
       9%Z 8%Z 1000 (10%Z, 20%Z) (30%Z, 40%Z)) 2 []
  = Unfinished.
Proof.
  set (rb := @Breakout.randbelow Z unit (list nat) Toy.toy_game).
  assert (Hdraw : rb 30 [] = Some (0, [])) by done.
  assert (Hloop : ∀ f, draw_unselected rb f 30 [0] [] = Unfinished).
  { induction f as [|f IH]; [done|]. cbn [draw_unselected]. rewrite Hdraw.
    cbn [of_option mbind run_bind].
    rewrite decide_True by apply list_elem_of_here. done. }
  assert (Hfirst : ∀ f, draw_unselected rb (S f) 30 [] [] = Done (0, [])).
  { intros f. cbn [draw_unselected]. rewrite Hdraw.
    cbn [of_option mbind run_bind].
    rewrite decide_False by apply not_elem_of_nil. done. }
  unfold Breakout.train, Breakout.random_sample, sample. fold rb.
  cbn [Breakout.replay_buffer]. rewrite length_replicate.
  rewrite decide_False by lia.
  rewrite decide_False by (vm_compute; lia).
  destruct fuel as [|fuel]; [done|].
  rewrite (sample_set_step (T := @Breakout.Transition Z unit)
             rb (S fuel) 1 30 0 []
             (replicate 30 (tt, 1, 5%Z, tt, false)) [] []
             (tt, 1, 5%Z, tt, false) (Hfirst fuel) eq_refl).
  cbn [sample_set]. by rewrite Hloop.
Qed.

Lemma train_changes_only_main_network_witness :
  let self := Breakout.mkDQN 2 [(tt, 1, 5%Z, tt, false); (tt, 0, 7%Z, tt, true)]
                9%Z 8%Z 1000 (10%Z, 20%Z) (30%Z, 40%Z) in
  ∃ self' w',
    @Breakout.train Z Z_NumOps unit unit (Z * Z) (Z * Z) Toy.pair_qnet
      (list nat) Toy.toy_game 0 self 2 [] = Done (self', w')
    ∧ Breakout.main_network self' ≠ Breakout.main_network self
    ∧ Breakout.target_network self' = Breakout.target_network self
    ∧ Breakout.replay_buffer self' = Breakout.replay_buffer self.
Proof.
  intros self.
  destruct (@Breakout.train Z Z_NumOps unit unit (Z * Z) (Z * Z) Toy.pair_qnet
              (list nat) Toy.toy_game 0 self 2 []) as [[self' w']| |] eqn:Htrain;
    [|vm_compute in Htrain; discriminate Htrain..].
  exists self', w'. split; [reflexivity|].
  destruct (@train_changes_only_main_network Z Z_NumOps unit unit (Z * Z) (Z * Z)
              (list nat) Toy.pair_qnet Toy.toy_game self self' 0 2 [] w' Htrain)
    as (Hrb & Htn & _).
  split; [|by split].
  vm_compute in Htrain. injection Htrain as <- <-. discriminate.
Defined.

(** ** The discrete training loop as a whole *)

Section DiscreteSafety.
Context {num : Type} `{NumOps num}.
Context {Frame State Model Weights W : Type}.
Context `{!@Breakout.QNetwork num Frame State Model Weights}.
Context `{!@Breakout.World num Frame W}.
Variable A : nat.
Variables g e : num.
Variable u : nat.
Hypothesis Hout : outputs_per_action A.
Hypothesis Hscreens : screens_accepted.

Abbreviation RunS := (@Breakout.Run num Frame State Model W).
Abbreviation OK := (run_ok (W := W) (Frame := Frame) A g e u).

Lemma dqn_ok_target (d : @Breakout.DQN num State Model) (m : Model) :
  dqn_ok A g e u d → dqn_ok A g e u (Breakout.set_target_network d m).
Proof. intros []. by split. Qed.

Lemma dqn_ok_store (d : @Breakout.DQN num State Model) (s : State) (a : nat)
    (r : num) (s' : State) (dn : bool) :
  dqn_ok A g e u d → a < A →
  dqn_ok A g e u (Breakout.store_transistion d s a r s' dn).
Proof.
  intros [] Ha. split; simpl; try done.
  - by apply deque_append_Forall.
  - by apply deque_append_bound.
Qed.

Lemma timestep_safe (fuel bs i t : nat) :
  safe OK (Breakout.timestep fuel bs i t).
Proof using Hout Hscreens.
  unfold Breakout.timestep.
  apply safe_block_cons; [apply safe_exec; by intros []|].
  apply safe_block_cons; [apply safe_exec; by intros []|].
  apply safe_block_cons.
  { apply safe_try. intros s [Hd Ha].
    rewrite py_mod_Ok
      by (rewrite (dk_rate _ _ _ _ _ Hd); apply (dk_rate_pos _ _ _ _ _ Hd)).
    cbn [mbind res_bind]. eexists. split; [reflexivity|].
    case_decide; [|done].
    destruct s; simpl in *. split; [|done]. by apply dqn_ok_target. }
  apply safe_block_cons.
  { apply safe_try. intros s [Hd Ha].
    destruct (epsilon_greedy_bound A (Breakout.dqn s) (Breakout.state s)
                (Breakout.world s) Hout (dk_actions _ _ _ _ _ Hd)
                (dk_positive _ _ _ _ _ Hd)) as (a & w' & -> & Hlt).
    cbn [mbind res_bind]. eexists. split; [reflexivity|].
    destruct s; simpl in *. by split. }
  apply (safe_block_seq _
           (fun s => OK s ∧ is_Ok (Breakout.preprocess_state (Breakout.next_frame s)))).
  { intros s Hs. eexists. split; [reflexivity|].
    pose proof (proj2 Hscreens (Breakout.world s) (Breakout.action s)) as Hacc.
    destruct (Breakout.env_step _ _) as [[[frame r] d] w']. simpl in Hacc.
    by destruct s. }
  intros s [Hs [x Hx]].
  change (block (Breakout.preprocess_next :: ?rest) s)
    with (match Breakout.preprocess_next s with
          | Next s' => block rest s'
          | other => other
          end).
  assert (Hp : Breakout.preprocess_next s = Next (Breakout.set_next_state s x)).
  { unfold Breakout.preprocess_next, try. by rewrite Hx. }
  rewrite Hp.
  apply safe_block; [|by destruct s].
  repeat apply Forall_cons_2; try apply Forall_nil_2.
  - apply safe_exec. intros s0 [Hd Ha]. destruct s0; simpl in *.
    split; [|done]. by apply dqn_ok_store.
  - apply safe_exec. by intros [].
  - apply safe_exec. by intros [].
  - apply safe_if_then. intros s0 Hs0 _. rewrite if_done_body. simpl.
    split; [done|]. by destruct s0.
  - apply safe_if_then. intros s0 [Hd Ha] Hcond.
    apply bool_decide_eq_true in Hcond.
    destruct (train_ok A g e u (Breakout.dqn s0) fuel bs (Breakout.world s0)
                Hout Hd ltac:(lia)) as (Hnf & Hdone & _).
    unfold Breakout.do_train, attempt.
    destruct (Breakout.train fuel (Breakout.dqn s0) bs (Breakout.world s0))
      as [[d' w']|x0|] eqn:Htrain; cbn [mbind run_bind].
    + split; [done|]. simpl. specialize (Hdone d' w' eq_refl).
      destruct s0; simpl in *. by split.
    + by destruct (Hnf x0).
    + by split.
Qed.

Lemma dqn_training_safe (fuel ne nt bs : nat) :
  safe OK (Breakout.training_loop fuel ne nt bs).
Proof using Hout Hscreens.
  unfold Breakout.training_loop. apply safe_for_range. intros i.
  unfold Breakout.episode. apply safe_block.
  repeat apply Forall_cons_2; try apply Forall_nil_2.
  - apply safe_exec. by intros [].
  - apply safe_try. intros s Hs.
    pose proof (proj1 Hscreens (Breakout.world s)) as [x Hx].
    destruct (Breakout.env_reset _) as [frame w']. simpl in Hx. rewrite Hx.
    cbn [mbind res_bind]. eexists. split; [reflexivity|]. by destruct s.
  - apply safe_for_range. intros t. apply timestep_safe.
Qed.

Lemma run_ok_init (w : W) (net1 net2 : Model) (state0 : State) (frame0 : Frame) :
  0 < A →
  run_ok (W := W) (Frame := Frame) A (ndiv (nofnat 9) (nofnat 10))
    (ndiv (nofnat 8) (nofnat 10)) 1000
    (Breakout.Run_init w (Breakout.DQN_init A net1 net2) state0 frame0).
Proof.
  intros HA. split; [|done]. split; simpl; try done; lia.
Qed.
End DiscreteSafety.

(** When the networks output one Q-value per action and every screen the
    game returns has the size [preprocess_state] accepts, the training
    cell of the discrete variant raises nothing from a well-formed state,
    whatever rewards and end-of-game flags the game reports and whatever
    the generator returns: every action selected is a valid index, every
    sample fits the store, every fitted vector has an entry for its
    action.  (A redraw loop of [random.sample] may still be running when
    its budget is used up.)  The state the cell ends in is well-formed,
    and the state the notebook starts from is. *)
Theorem dqn_training_never_raises {num : Type} `{NumOps num}
    {Frame State Model Weights W : Type}
    `{!@Breakout.QNetwork num Frame State Model Weights}
    `{!@Breakout.World num Frame W}
    (A : nat) (g e : num) (u : nat) (fuel ne nt bs : nat)
    (st : @Breakout.Run num Frame State Model W)
    (w : W) (net1 net2 : Model) (state0 : State) (frame0 : Frame) :
  outputs_per_action A →
  screens_accepted →
  (run_ok A g e u st →
   no_throw (Breakout.training_loop fuel ne nt bs st)
   ∧ run_ok A g e u (ctl_state (Breakout.training_loop fuel ne nt bs st)))
  ∧ (0 < A →
     no_throw (Breakout.training_loop fuel ne nt bs
                 (Breakout.Run_init w (Breakout.DQN_init A net1 net2)
                    state0 frame0))).
Proof.
  intros Hout Hscreens. split.
  - intros Hok. by apply (dqn_training_safe A g e u Hout Hscreens fuel ne nt bs).
  - intros HA.
    by apply (dqn_training_safe A _ _ _ Hout Hscreens fuel ne nt bs _
                (run_ok_init A w net1 net2 state0 frame0 HA)).
Qed.

Lemma toy_screens_accepted :
  @screens_accepted Z unit unit (Z * Z) (Z * Z) (list nat) Toy.pair_qnet
    Toy.toy_game.
Proof. split; intros; by eexists. Qed.

Lemma dqn_training_never_raises_witness :
  @outputs_per_action Z unit unit (Z * Z) (Z * Z) Toy.pair_qnet 2
  ∧ @screens_accepted Z unit unit (Z * Z) (Z * Z) (list nat) Toy.pair_qnet
      Toy.toy_game
  ∧ 0 < 2
  ∧ no_throw
      (@Breakout.training_loop Z Z_NumOps unit unit (Z * Z) (Z * Z)
         Toy.pair_qnet (list nat) Toy.toy_game 10 2 3 8
         (Breakout.Run_init [] Toy.pair_agent tt tt)).
Proof.
  split; [exact toy_outputs_per_action|]. split; [exact toy_screens_accepted|].
  split; [lia|].
  exact (proj2 (@dqn_training_never_raises Z Z_NumOps unit unit (Z * Z) (Z * Z)
                  (list nat) Toy.pair_qnet Toy.toy_game 2 0%Z 0%Z 1 10 2 3 8
                  (Breakout.Run_init [] Toy.pair_agent tt tt)
                  [] (10%Z, 20%Z) (30%Z, 40%Z) tt tt toy_outputs_per_action
                  toy_screens_accepted)
           ltac:(lia)).
Defined.

Section DiscreteInvariants.
Context {num : Type} `{NumOps num}.
Context {Frame State Model Weights W : Type}.
Context `{!@Breakout.QNetwork num Frame State Model Weights}.
Context `{!@Breakout.World num Frame W}.

Lemma timestep_preserves_dqn (P : @Breakout.DQN num State Model → Prop)
    (fuel bs i t : nat) :
  (∀ d m, P d → P (Breakout.set_target_network d m)) →
  (∀ d m, P d → P (Breakout.set_main_network d m)) →
  (∀ d s a r s' dn, P d → P (Breakout.store_transistion d s a r s' dn)) →
  preserves (fun st : @Breakout.Run num Frame State Model W => P (Breakout.dqn st))
    (Breakout.timestep fuel bs i t).
Proof.
  intros Htarget Hmain Hstore.
  assert (Hloop : ∀ mb d d', P d → Breakout.train_loop d mb = Ok d' → P d').
  { induction mb as [|tr rest IH]; intros d d' Hd; simpl.
    - by intros [= <-].
    - unfold Breakout.train_one.
      destruct (Breakout.fit_target d tr) as [v|]; [|done].
      cbn [mbind res_bind]. apply IH. by apply Hmain. }
  unfold Breakout.timestep. apply preserves_block.
  repeat apply Forall_cons_2; try apply Forall_nil_2.
  - apply preserves_exec. by intros [].
  - apply preserves_exec. by intros [].
  - apply preserves_try. intros s s' Hs.
    destruct (py_mod _ _) as [m|]; [|done]. cbn [mbind res_bind].
    case_decide; intros [= <-]; [|done]. destruct s; simpl in *.
    by apply Htarget.
  - apply preserves_try. intros s s' Hs.
    destruct (Breakout.epsilon_greedy _ _ _) as [[a w']|]; [|done].
    cbn [mbind res_bind]. intros [= <-]. by destruct s.
  - apply preserves_exec. intros s Hs.
    destruct (Breakout.env_step _ _) as [[[frame r] d] w']. by destruct s.
  - apply preserves_try. intros s s' Hs.
    destruct (Breakout.preprocess_state _) as [x|]; [|done].
    cbn [mbind res_bind]. intros [= <-]. by destruct s.
  - apply preserves_exec. intros s Hs. destruct s; simpl in *. by apply Hstore.
  - apply preserves_exec. by intros [].
  - apply preserves_exec. by intros [].
  - apply preserves_if_then. intros s Hs. rewrite if_done_body. simpl.
    by destruct s.
  - apply preserves_if_then, preserves_attempt. intros s s' Hs.
    unfold Breakout.train.
    destruct (Breakout.random_sample _ _ _ _) as [[mb w1]| |]; [|done..].
    cbn [mbind run_bind].
    destruct (Breakout.train_loop (Breakout.dqn s) mb) as [d'|] eqn:E; [|done].
    cbn [of_res mbind run_bind]. intros [= <-]. destruct s; simpl in *.
    by eapply Hloop.
Qed.

Lemma training_loop_preserves_dqn (P : @Breakout.DQN num State Model → Prop)
    (fuel ne nt bs : nat) :
  (∀ d m, P d → P (Breakout.set_target_network d m)) →
  (∀ d m, P d → P (Breakout.set_main_network d m)) →
  (∀ d s a r s' dn, P d → P (Breakout.store_transistion d s a r s' dn)) →
  preserves (fun st : @Breakout.Run num Frame State Model W => P (Breakout.dqn st))
    (Breakout.training_loop fuel ne nt bs).
Proof.
  intros Htarget Hmain Hstore.
  unfold Breakout.training_loop. apply preserves_for_range. intros i.
  unfold Breakout.episode. apply preserves_block.
  repeat apply Forall_cons_2; try apply Forall_nil_2.
  - apply preserves_exec. by intros [].
  - apply preserves_try. intros s s' Hs.
    destruct (Breakout.env_reset _) as [frame w'].
    destruct (Breakout.preprocess_state _) as [x|]; [|done].
    cbn [mbind res_bind]. intros [= <-]. by destruct s.
  - apply preserves_for_range. intros t. by apply timestep_preserves_dqn.
Qed.
End DiscreteInvariants.

(** The hyperparameters of the agent are constants of a run: whatever
    happens in the training cell, and however it ends, the exploration
    rate is still [0.8] (it never decays), the discount [0.9], the
    update rate [1000] and the number of actions what it was. *)
Theorem hyperparameters_never_change {num : Type} `{NumOps num}
    {Frame State Model Weights W : Type}
    `{!@Breakout.QNetwork num Frame State Model Weights}
    `{!@Breakout.World num Frame W}
    (A fuel ne nt bs : nat) (w : W) (net1 net2 : Model)
    (state0 : State) (frame0 : Frame) :
  let final :=
    ctl_state (Breakout.training_loop fuel ne nt bs
                 (Breakout.Run_init w (Breakout.DQN_init A net1 net2)
                    state0 frame0)) in
  Breakout.epsilon (Breakout.dqn final) = ndiv (nofnat 8) (nofnat 10)
  ∧ Breakout.gamma (Breakout.dqn final) = ndiv (nofnat 9) (nofnat 10)
  ∧ Breakout.update_rate (Breakout.dqn final) = 1000
  ∧ Breakout.action_size (Breakout.dqn final) = A.
Proof.
  apply (training_loop_preserves_dqn
           (fun d => Breakout.epsilon d = ndiv (nofnat 8) (nofnat 10)
                     ∧ Breakout.gamma d = ndiv (nofnat 9) (nofnat 10)
                     ∧ Breakout.update_rate d = 1000
                     ∧ Breakout.action_size d = A) fuel ne nt bs); try done.
Qed.

(** The replay buffer never holds more than 5000 transitions, at any end
    of any run of the training cell. *)
Theorem replay_buffer_stays_bounded {num : Type} `{NumOps num}
    {Frame State Model Weights W : Type}
    `{!@Breakout.QNetwork num Frame State Model Weights}
    `{!@Breakout.World num Frame W}
    (fuel ne nt bs : nat) (st : @Breakout.Run num Frame State Model W) :
  length (Breakout.replay_buffer (Breakout.dqn st)) ≤ 5000 →
  length (Breakout.replay_buffer
            (Breakout.dqn (ctl_state (Breakout.training_loop fuel ne nt bs st))))
  ≤ 5000.
Proof.
  apply (training_loop_preserves_dqn
           (fun d => length (Breakout.replay_buffer d) ≤ 5000) fuel ne nt bs);
    try done.
  intros d s a r s' dn Hd. simpl. by apply deque_append_bound.
Qed.

Lemma replay_buffer_stays_bounded_witness :
  length (Breakout.replay_buffer
            (Breakout.dqn (Breakout.Run_init ([] : list nat) Toy.pair_agent tt tt)))
  ≤ 5000
  ∧ length (Breakout.replay_buffer
              (Breakout.dqn
                 (ctl_state
                    (@Breakout.training_loop Z Z_NumOps unit unit (Z * Z) (Z * Z)
                       Toy.pair_qnet (list nat) Toy.toy_game 10 2 3 8
                       (Breakout.Run_init [] Toy.pair_agent tt tt)))))
    ≤ 5000.
Proof.
  assert (Hinit : length (Breakout.replay_buffer
                    (Breakout.dqn
                       (Breakout.Run_init ([] : list nat) Toy.pair_agent tt tt)))
                  ≤ 5000) by (simpl; lia).
  split; [exact Hinit|].
  exact (@replay_buffer_stays_bounded Z Z_NumOps unit unit (Z * Z) (Z * Z)
           (list nat) Toy.pair_qnet Toy.toy_game 10 2 3 8
           (Breakout.Run_init [] Toy.pair_agent tt tt) Hinit).
Defined.

(** ** One time step of the discrete loop *)

Lemma block_app {St : Type} (l1 l2 : list (stmt St)) (s : St) :
  block (l1 ++ l2) s
  = match block l1 s with
    | Next s' => block l2 s'
    | other => other
    end.
Proof.
  revert s. induction l1 as [|c l1 IH]; intros s.
  - reflexivity.
  - simpl. destruct (c s); try reflexivity. apply IH.
Qed.

Section TimestepFacts.
Context {num : Type} `{NumOps num}.
Context {Frame State Model Weights W : Type}.
Context `{!@Breakout.QNetwork num Frame State Model Weights}.
Context `{!@Breakout.World num Frame W}.

Abbreviation RunF := (@Breakout.Run num Frame State Model W).

Lemma timestep_split (fuel bs i t : nat) (s : RunF) :
  Breakout.timestep fuel bs i t s
  = match timestep_prefix s with
    | Next s9 =>
        block [ if_then Breakout.done
                  (block [ Breakout.print_return i; break_stmt;
                           Breakout.append_return ]);
                if_then (fun st => bool_decide
                           (bs < length (Breakout.replay_buffer (Breakout.dqn st))))
                  (Breakout.do_train fuel bs) ] s9
    | other => other
    end.
Proof.
  unfold Breakout.timestep, timestep_prefix.
  exact (block_app
           [ Breakout.do_render; Breakout.incr_time_step; Breakout.sync_target;
             Breakout.select_action; Breakout.perform_action;
             Breakout.preprocess_next; Breakout.do_store;
             Breakout.advance_state; Breakout.add_reward ] _ s).
Qed.

Lemma timestep_prefix_not_Break (s s' : RunF) : timestep_prefix s ≠ Break s'.
Proof.
  unfold timestep_prefix.
  assert (Hnb : ∀ (l : list (stmt RunF)),
            Forall (fun c => ∀ x x', c x ≠ Break x') l →
            ∀ x x', block l x ≠ Break x').
  { induction 1 as [|c l Hc _ IH]; intros x x'; simpl; [done|].
    specialize (Hc x). destruct (c x); done. }
  apply Hnb.
  repeat apply Forall_cons_2; try apply Forall_nil_2;
    intros x x'; unfold Breakout.do_render, Breakout.incr_time_step,
      Breakout.sync_target, Breakout.select_action, Breakout.perform_action,
      Breakout.preprocess_next, Breakout.do_store, Breakout.advance_state,
      Breakout.add_reward, exec, try; try done.
  - by destruct (_ ≫= _).
  - by destruct (_ ≫= _).
  - by destruct (_ ≫= _).
Qed.

(** What the first nine statements of a time step do. *)
Lemma timestep_prefix_facts (s s9 : RunF) :
  timestep_prefix s = Next s9 →
  Breakout.time_step s9 = Breakout.time_step s + 1
  ∧ Breakout.main_network (Breakout.dqn s9)
    = Breakout.main_network (Breakout.dqn s)
  ∧ Breakout.replay_buffer (Breakout.dqn s9)
    = deque_append Breakout.replay_maxlen
        (Breakout.replay_buffer (Breakout.dqn s))
        (Breakout.state s, Breakout.action s9, Breakout.reward s9,
         Breakout.next_state s9, Breakout.done s9)
  ∧ Breakout.state s9 = Breakout.next_state s9
  ∧ Breakout.Return s9 = Breakout.Return s ⊕ Breakout.reward s9
  ∧ Breakout.episode_rewards s9 = Breakout.episode_rewards s
  ∧ Breakout.stdout s9 = Breakout.stdout s
  ∧ Breakout.target_network (Breakout.dqn s9)
    = (if decide ((Breakout.time_step s + 1) mod Breakout.update_rate (Breakout.dqn s) = 0)
       then Breakout.set_weights (Breakout.target_network (Breakout.dqn s))
              (Breakout.get_weights (Breakout.main_network (Breakout.dqn s)))
       else Breakout.target_network (Breakout.dqn s)).
Proof.
  destruct s as [w d dn ts er so R st a nf ns r].
  unfold timestep_prefix, block, Breakout.do_render, Breakout.incr_time_step,
    Breakout.sync_target, Breakout.select_action, Breakout.perform_action,
    Breakout.preprocess_next, Breakout.do_store, Breakout.advance_state,
    Breakout.add_reward, exec, try.
  cbn [Breakout.set_world Breakout.set_time_step Breakout.world
       Breakout.time_step Breakout.dqn].
  unfold py_mod. destruct (decide (Breakout.update_rate d = 0)) as [|Hrate];
    [done|].
  cbn [mbind res_bind].
  destruct (decide ((ts + 1) mod Breakout.update_rate d = 0)) as [Hz|Hz];
    cbn [Breakout.set_dqn Breakout.dqn Breakout.state Breakout.world
         Breakout.update_target_network Breakout.set_target_network].
  all: match goal with |- context [Breakout.epsilon_greedy ?d0 ?st0 ?w0] =>
         destruct (Breakout.epsilon_greedy d0 st0 w0) as [[a' w']|]; [|done]
       end.
  all: cbn [mbind res_bind Breakout.set_world Breakout.set_action
            Breakout.world Breakout.action].
  all: destruct (Breakout.env_step w' a') as [[[frame r'] d'] w''].
  all: cbn [Breakout.next_frame Breakout.set_world Breakout.set_next_frame Breakout.set_reward Breakout.set_done].
  all: destruct (Breakout.preprocess_state frame) as [x|]; [|done].
  all: cbn. all: intros [= <-]. all: cbn. all: done.
Qed.
End TimestepFacts.

Section TimestepOutcomes.
Context {num : Type} `{NumOps num}.
Context {Frame State Model Weights W : Type}.
Context `{!@Breakout.QNetwork num Frame State Model Weights}.
Context `{!@Breakout.World num Frame W}.

(** A time step that does not raise is its first nine statements, then
    either the terminal branch or the optional training. *)
Lemma timestep_outcome (fuel bs i t : nat)
    (s s' : @Breakout.Run num Frame State Model W) :
  Breakout.timestep fuel bs i t s = Next s' ∨ Breakout.timestep fuel bs i t s = Break s' →
  ∃ s9,
    timestep_prefix s = Next s9
    ∧ ((Breakout.timestep fuel bs i t s = Break s'
        ∧ Breakout.done s9 = true
        ∧ s' = Breakout.set_stdout s9
                 (Breakout.stdout s9 ++ [(i, Breakout.Return s9)]))
       ∨ (Breakout.timestep fuel bs i t s = Next s'
          ∧ Breakout.done s9 = false
          ∧ length (Breakout.replay_buffer (Breakout.dqn s9)) ≤ bs
          ∧ s' = s9)
       ∨ (Breakout.timestep fuel bs i t s = Next s'
          ∧ Breakout.done s9 = false
          ∧ bs < length (Breakout.replay_buffer (Breakout.dqn s9))
          ∧ ∃ d' w', Breakout.train fuel (Breakout.dqn s9) bs (Breakout.world s9)
                     = Done (d', w')
                     ∧ s' = Breakout.set_dqn (Breakout.set_world s9 w') d')).
Proof.
  rewrite timestep_split.
  destruct (timestep_prefix s) as [s9|x|e x|x] eqn:Hpre.
  - intros Hout. exists s9. split; [done|].
    unfold block, if_then, Breakout.print_return, break_stmt,
      Breakout.append_return, exec in *.
    destruct (Breakout.done s9) eqn:Hdone.
    + left. destruct Hout as [Hout|Hout]; [done|]. injection Hout as <-. done.
    + right.
      destruct (bool_decide (bs < length (Breakout.replay_buffer (Breakout.dqn s9))))
        eqn:Hcond.
      * apply bool_decide_eq_true in Hcond. right.
        unfold Breakout.do_train, attempt in *.
        destruct (Breakout.train fuel (Breakout.dqn s9) bs (Breakout.world s9))
          as [[d' w']|x|] eqn:Htrain; cbn [mbind run_bind] in *.
        -- destruct Hout as [Hout|Hout]; [|done]. injection Hout as <-.
           do 3 (split; [done|]). by exists d', w'.
        -- by destruct Hout.
        -- by destruct Hout.
      * apply bool_decide_eq_false in Hcond. left.
        destruct Hout as [Hout|Hout]; [|done]. injection Hout as <-.
        split; [done|]. split; [done|]. split; [lia|done].
  - by apply timestep_prefix_not_Break in Hpre.
  - by intros [|].
  - by intros [|].
Qed.
End TimestepOutcomes.

(** On the step at which the game ends, the transition is stored and the
    return printed, but no training takes place: the step leaves the loop
    with the live network it started with and nothing is appended to
    [episode_rewards]. *)
Theorem terminal_step_stores_without_training {num : Type} `{NumOps num}
    {Frame State Model Weights W : Type}
    `{!@Breakout.QNetwork num Frame State Model Weights}
    `{!@Breakout.World num Frame W}
    (fuel bs i t : nat) (s s' : @Breakout.Run num Frame State Model W) :
  Breakout.timestep fuel bs i t s = Break s' →
  Breakout.done s' = true
  ∧ Breakout.main_network (Breakout.dqn s') = Breakout.main_network (Breakout.dqn s)
  ∧ Breakout.replay_buffer (Breakout.dqn s')
    = deque_append Breakout.replay_maxlen
        (Breakout.replay_buffer (Breakout.dqn s))
        (Breakout.state s, Breakout.action s', Breakout.reward s',
         Breakout.next_state s', true)
  ∧ Breakout.stdout s' = Breakout.stdout s ++ [(i, Breakout.Return s')]
  ∧ Breakout.Return s' = Breakout.Return s ⊕ Breakout.reward s'
  ∧ Breakout.episode_rewards s' = Breakout.episode_rewards s.
Proof.
  intros Hstep.
  destruct (timestep_outcome fuel bs i t s s' (or_intror Hstep))
    as (s9 & Hpre & [(_ & Hdone & ->)|[(Hn & _)|(Hn & _)]]);
    [|rewrite Hstep in Hn; discriminate Hn..].
  apply timestep_prefix_facts in Hpre
    as (_ & Hmain & Hrb & _ & Hret & Her & Hso & _).
  rewrite Hdone in Hrb. destruct s9; simpl in *. by rewrite Hso.
Qed.

(** A step that does not end the episode trains only when the store
    holds more than [batch_size] transitions: with at most that many
    after the step, the live network is the one the step started with. *)
Theorem training_waits_for_fill_level {num : Type} `{NumOps num}
    {Frame State Model Weights W : Type}
    `{!@Breakout.QNetwork num Frame State Model Weights}
    `{!@Breakout.World num Frame W}
    (fuel bs i t : nat) (s s' : @Breakout.Run num Frame State Model W) :
  Breakout.timestep fuel bs i t s = Next s' →
  length (Breakout.replay_buffer (Breakout.dqn s')) ≤ bs →
  Breakout.main_network (Breakout.dqn s') = Breakout.main_network (Breakout.dqn s)
  ∧ Breakout.done s' = false
  ∧ Breakout.replay_buffer (Breakout.dqn s')
    = deque_append Breakout.replay_maxlen
        (Breakout.replay_buffer (Breakout.dqn s))
        (Breakout.state s, Breakout.action s', Breakout.reward s',
         Breakout.next_state s', false).
Proof.
  intros Hstep Hlen.
  destruct (timestep_outcome fuel bs i t s s' (or_introl Hstep))
    as (s9 & Hpre & [(Hb & _)|[(_ & Hdone & _ & ->)|(_ & _ & Hgt & d' & w' & Htrain & ->)]]).
  - rewrite Hstep in Hb. discriminate Hb.
  - apply timestep_prefix_facts in Hpre as (_ & Hmain & Hrb & _).
    rewrite Hdone in Hrb. done.
  - apply train_fields in Htrain as (Hrb & _).
    destruct s9; simpl in *. rewrite Hrb in Hlen. lia.
Qed.

(** The hard update of the target network happens on exactly the steps
    whose number is a multiple of [update_rate]: on such a step the
    target receives the weights the live network had when the step
    began; on every other step it is left as it was.  Training never
    touches it. *)
Theorem target_sync_schedule {num : Type} `{NumOps num}
    {Frame State Model Weights W : Type}
    `{!@Breakout.QNetwork num Frame State Model Weights}
    `{!@Breakout.World num Frame W}
    (fuel bs i t : nat) (s s' : @Breakout.Run num Frame State Model W) :
  Breakout.timestep fuel bs i t s = Next s' ∨ Breakout.timestep fuel bs i t s = Break s' →
  Breakout.time_step s' = Breakout.time_step s + 1
  ∧ Breakout.target_network (Breakout.dqn s')
    = (if decide (Breakout.time_step s' mod Breakout.update_rate (Breakout.dqn s) = 0)
       then Breakout.set_weights (Breakout.target_network (Breakout.dqn s))
              (Breakout.get_weights (Breakout.main_network (Breakout.dqn s)))
       else Breakout.target_network (Breakout.dqn s)).
Proof.
  intros Hstep.
  destruct (timestep_outcome fuel bs i t s s' Hstep)
    as (s9 & Hpre & [(_ & _ & ->)|[(_ & _ & _ & ->)|(_ & _ & _ & d' & w' & Htrain & ->)]]);
    apply timestep_prefix_facts in Hpre as (Hts & _ & _ & _ & _ & _ & _ & Htarget).
  - destruct s9; simpl in *. by rewrite Hts.
  - by rewrite Hts.
  - apply train_fields in Htrain as (_ & Htn & _).
    destruct s9; simpl in *. by rewrite Hts, Htn.
Qed.

Lemma terminal_step_stores_without_training_witness :
  ∃ s',
    @Breakout.timestep Z Z_NumOps unit unit (Z * Z) (Z * Z) Toy.pair_qnet
      (list nat) Toy.toy_game 10 8 0 0 (Breakout.Run_init [] Toy.pair_agent tt tt)
    = Break s'
    ∧ Breakout.main_network (Breakout.dqn s') = (10%Z, 20%Z)
    ∧ length (Breakout.replay_buffer (Breakout.dqn s')) = 1.
Proof.
  eexists. split; [vm_compute; reflexivity|].
  match goal with |- Breakout.main_network (Breakout.dqn ?s) = _ ∧ _ =>
    assert (Hstep : @Breakout.timestep Z Z_NumOps unit unit (Z * Z) (Z * Z)
                      Toy.pair_qnet (list nat) Toy.toy_game 10 8 0 0
                      (Breakout.Run_init [] Toy.pair_agent tt tt) = Break s)
      by (vm_compute; reflexivity);
    destruct (@terminal_step_stores_without_training Z Z_NumOps unit unit
                (Z * Z) (Z * Z) (list nat) Toy.pair_qnet Toy.toy_game 10 8 0 0
                _ s Hstep)
      as (_ & Hmain & Hrb & _)
  end.
  split; [exact Hmain|]. rewrite Hrb. reflexivity.
Defined.

Lemma training_waits_for_fill_level_witness :
  ∃ s',
    @Breakout.timestep Z Z_NumOps unit unit (Z * Z) (Z * Z) Toy.pair_qnet
      (list nat) Toy.endless_game 10 8 0 0 (Breakout.Run_init [] Toy.pair_agent tt tt)
    = Next s'
    ∧ length (Breakout.replay_buffer (Breakout.dqn s')) ≤ 8
    ∧ Breakout.main_network (Breakout.dqn s') = (10%Z, 20%Z).
Proof.
  eexists. split; [vm_compute; reflexivity|].
  match goal with |- length (Breakout.replay_buffer (Breakout.dqn ?s)) ≤ _ ∧ _ =>
    assert (Hstep : @Breakout.timestep Z Z_NumOps unit unit (Z * Z) (Z * Z)
                      Toy.pair_qnet (list nat) Toy.endless_game 10 8 0 0
                      (Breakout.Run_init [] Toy.pair_agent tt tt) = Next s)
      by (vm_compute; reflexivity);
    assert (Hlen : length (Breakout.replay_buffer (Breakout.dqn s)) ≤ 8)
      by (simpl; lia);
    split; [exact Hlen|];
    exact (proj1 (@training_waits_for_fill_level Z Z_NumOps unit unit
                    (Z * Z) (Z * Z) (list nat) Toy.pair_qnet Toy.endless_game
                    10 8 0 0 _ s Hstep Hlen))
  end.
Defined.

Lemma target_sync_schedule_witness :
  ∃ s',
    @Breakout.timestep Z Z_NumOps unit unit (Z * Z) (Z * Z) Toy.pair_qnet
      (list nat) Toy.endless_game 10 8 0 0 (Breakout.Run_init [] Toy.pair_agent tt tt)
    = Next s'
    ∧ Breakout.time_step s' = 1
    ∧ Breakout.target_network (Breakout.dqn s') = (10%Z, 20%Z).
Proof.
  eexists. split; [vm_compute; reflexivity|].
  match goal with |- Breakout.time_step ?s = _ ∧ _ =>
    assert (Hstep : @Breakout.timestep Z Z_NumOps unit unit (Z * Z) (Z * Z)
                      Toy.pair_qnet (list nat) Toy.endless_game 10 8 0 0
                      (Breakout.Run_init [] Toy.pair_agent tt tt) = Next s)
      by (vm_compute; reflexivity);
    destruct (@target_sync_schedule Z Z_NumOps unit unit (Z * Z) (Z * Z)
                (list nat) Toy.pair_qnet Toy.endless_game 10 8 0 0
                _ s (or_introl Hstep)) as (Hts & Htarget)
  end.
  split; [exact Hts|]. rewrite Htarget. reflexivity.
Defined.

(** * The screen preprocessing and the actor network *)

(** ** Slices and reshaping *)

Lemma omap_lookup_total {A : Type} (l : list A) (idxs : list nat) :
  Forall (fun i => i < length l) idxs →
  length (omap (fun i => l !! i) idxs) = length idxs
  ∧ ∀ k i, idxs !! k = Some i → omap (fun i => l !! i) idxs !! k = l !! i.
Proof.
  induction 1 as [|i idxs Hi _ [IHlen IH]]; [done|].
  apply lookup_lt_is_Some in Hi as [x Hx].
  cbn [omap list_omap]. rewrite Hx. split; [simpl; by rewrite IHlen|].
  intros [|k] j Hk; simpl in *; [by injection Hk as <-|by apply IH].
Qed.

Lemma slice_count_bound (start stop step n k : nat) :
  0 < step →
  k < (Nat.min stop n - start + step - 1) / step →
  start + k * step < Nat.min stop n.
Proof.
  intros Hstep Hk.
  pose proof (Nat.div_mod (Nat.min stop n - start + step - 1) step) as Hdm.
  pose proof (Nat.mod_upper_bound (Nat.min stop n - start + step - 1) step).
  nia.
Qed.

Lemma slice_indices_in_range (start stop step n : nat) :
  0 < step → Forall (fun i => i < n) (slice_indices start stop step n).
Proof.
  intros Hstep. unfold slice_indices. apply Forall_fmap, Forall_forall.
  intros k Hk%elem_of_seq. simpl.
  pose proof (slice_count_bound start stop step n k Hstep). lia.
Qed.

Lemma py_slice_length {A : Type} (start stop step : nat) (l : list A) :
  0 < step →
  length (py_slice start stop step l)
  = (Nat.min stop (length l) - start + step - 1) / step.
Proof.
  intros Hstep. unfold py_slice.
  rewrite (proj1 (omap_lookup_total l _ (slice_indices_in_range _ _ _ _ Hstep))).
  unfold slice_indices. by rewrite length_fmap, length_seq.
Qed.

Lemma py_slice_lookup {A : Type} (start stop step k : nat) (l : list A) :
  0 < step →
  k < (Nat.min stop (length l) - start + step - 1) / step →
  py_slice start stop step l !! k = l !! (start + k * step).
Proof.
  intros Hstep Hk. unfold py_slice.
  apply (proj2 (omap_lookup_total l _ (slice_indices_in_range _ _ _ _ Hstep))).
  unfold slice_indices. rewrite list_lookup_fmap, lookup_seq_lt by done. done.
Qed.

Lemma py_slice_Forall {A : Type} (P : A → Prop) (start stop step : nat) (l : list A) :
  Forall P l → Forall P (py_slice start stop step l).
Proof.
  intros Hl. unfold py_slice. apply Forall_forall. intros x Hx.
  apply list_elem_of_omap in Hx as (i & _ & Hi).
  by eapply Forall_lookup_1 in Hi.
Qed.

Lemma chunks_length {A : Type} (k n : nat) (l : list A) :
  length (chunks k n l) = k.
Proof. revert l. induction k as [|k IH]; intros l; simpl; [done|by rewrite IH]. Qed.

Lemma chunks_sizes {A : Type} (k n : nat) (l : list A) :
  k * n ≤ length l → Forall (fun ch => length ch = n) (chunks k n l).
Proof.
  revert l. induction k as [|k IH]; intros l Hl; simpl; [done|].
  constructor.
  - rewrite length_take. lia.
  - apply IH. rewrite length_drop. lia.
Qed.

Lemma chunks_Forall {A : Type} (P : A → Prop) (k n : nat) (l : list A) :
  Forall P l → Forall (Forall P) (chunks k n l).
Proof.
  revert l. induction k as [|k IH]; intros l Hl; simpl; [done|].
  constructor; [by apply Forall_take|by apply IH, Forall_drop].
Qed.

Lemma chunks_singletons {A : Type} (l : list A) :
  chunks (length l) 1 l = map (fun x => [x]) l.
Proof.
  induction l as [|x l IH]; [done|].
  simpl. rewrite drop_0. by rewrite IH.
Qed.

Lemma chunks_concat {A : Type} (n : nat) (rows : list (list A)) :
  Forall (fun row => length row = n) rows →
  chunks (length rows) n (concat rows) = rows.
Proof.
  induction 1 as [|row rows Hrow _ IH]; [done|].
  simpl. rewrite take_app_length' by done.
  rewrite drop_app_length' by done. by rewrite IH.
Qed.

Lemma concat_uniform_length {A : Type} (n : nat) (rows : list (list A)) :
  Forall (fun row => length row = n) rows →
  length (concat rows) = length rows * n.
Proof.
  induction 1 as [|row rows Hrow _ IH]; [done|].
  simpl. rewrite length_app, IH, Hrow. done.
Qed.

(** A two-dimensional array of [a] rows and [b] columns is reshaped to
    [(a, b, 1)] by wrapping each element. *)
Lemma reshape3_rows {A : Type} (a b : nat) (arr : list (list A)) :
  length arr = a →
  Forall (fun row => length row = b) arr →
  reshape3 a b 1 arr = Ok (map (map (fun x => [x])) arr).
Proof.
  intros Ha Hb. unfold reshape3.
  pose proof (concat_uniform_length b arr Hb) as Hlen. rewrite Ha in Hlen.
  rewrite decide_True by lia. f_equal.
  replace (a * b) with (length (concat arr)) by lia.
  rewrite chunks_singletons.
  assert (map (fun x : A => [x]) (concat arr)
          = concat (map (map (fun x => [x])) arr)) as ->.
  { clear. induction arr as [|r arr IH]; [done|]. simpl.
    by rewrite map_app, IH. }
  rewrite <- Ha, <- (length_map (map (fun x : A => [x])) arr).
  apply chunks_concat.
  apply Forall_fmap. eapply Forall_impl; [exact Hb|].
  intros row Hrow. simpl. by rewrite length_map.
Qed.

Lemma reshape3_Forall {A : Type} (P : A → Prop) (a b c : nat)
    (arr : list (list A)) (r : list (list (list A))) :
  Forall (Forall P) arr →
  reshape3 a b c arr = Ok r →
  Forall (Forall (Forall P)) r.
Proof.
  intros Harr. unfold reshape3. case_decide; [|done].
  intros [= <-]. apply chunks_Forall, chunks_Forall.
  by apply Forall_concat.
Qed.

Lemma reshape3_shape {A : Type} (a b c : nat)
    (arr : list (list A)) (r : list (list (list A))) :
  reshape3 a b c arr = Ok r →
  length r = a
  ∧ Forall (fun plane => length plane = b
                         ∧ Forall (fun line => length line = c) plane) r.
Proof.
  unfold reshape3. case_decide as Hlen; [|done].
  intros [= <-]. split; [apply chunks_length|].
  pose proof (chunks_sizes (a * b) c (concat arr) ltac:(lia)) as Hin.
  pose proof (chunks_sizes a b (chunks (a * b) c (concat arr))
                ltac:(rewrite chunks_length; lia)) as Hout.
  pose proof (chunks_Forall (fun line => length line = c) a b _ Hin) as Hin'.
  apply Forall_forall. intros plane Hplane. split.
  - by eapply Forall_forall in Hout.
  - by eapply Forall_forall in Hin'.
Qed.

Section ScreenFacts.
Context {num : Type} `{NumOps num}.

Lemma crop_shape (h w c : nat) (state : Screen.Frame) :
  Screen.frame_shape h w c state →
  length (Screen.crop state) = Nat.min 176 h / 2
  ∧ Forall (fun row => length row = (w + 1) / 2) (Screen.crop state).
Proof.
  intros [Hh Hrows]. unfold Screen.crop. split.
  - rewrite length_map, py_slice_length, Hh by lia.
    destruct (Nat.min 176 h) as [|m] eqn:Hm; [done|].
    f_equal. lia.
  - apply Forall_fmap. eapply Forall_impl.
    + apply py_slice_Forall. exact Hrows.
    + intros row [Hw _]. unfold compose. rewrite py_slice_length, Hw by lia.
      f_equal. lia.
Qed.

Lemma image_shape (h w c : nat) (state : Screen.Frame) (f : list nat → num) :
  Screen.frame_shape h w c state →
  length (map (map f) (Screen.crop state)) = Nat.min 176 h / 2
  ∧ Forall (fun row => length row = (w + 1) / 2) (map (map f) (Screen.crop state)).
Proof.
  intros Hshape. destruct (crop_shape h w c state Hshape) as [Hlen Hrows].
  split; [by rewrite length_map|].
  apply Forall_fmap. eapply Forall_impl; [exact Hrows|].
  intros row Hrow. simpl. by rewrite length_map.
Qed.

Lemma preprocess_state_unfold (state : Screen.Frame) :
  Screen.preprocess_state state
  = (image ← reshape3 88 80 1
               (map (map (fun px => Screen.normalize (Screen.contrast (Screen.grey px))))
                  (Screen.crop state));
     Ok [image]).
Proof.
  unfold Screen.preprocess_state. cbv zeta.
  rewrite !map_map.
  rewrite (map_ext _ (map (fun px => Screen.normalize (Screen.contrast (Screen.grey px)))));
    [done|].
  intros row. by rewrite !map_map.
Qed.

Lemma crop_lookup (h w c i j : nat) (state : Screen.Frame) :
  Screen.frame_shape h w c state →
  i < Nat.min 176 h / 2 → j < (w + 1) / 2 →
  ∃ px, state !! (2 * i + 1) ≫= (fun row => row !! (2 * j)) = Some px
        ∧ Screen.crop state !! i ≫= (fun row => row !! j) = Some px.
Proof.
  intros [Hh Hrows] Hi Hj. unfold Screen.crop.
  assert (Hi' : i < (Nat.min 176 (length state) - 1 + 2 - 1) / 2).
  { rewrite Hh. destruct (Nat.min 176 h) as [|m] eqn:Hm; [simpl in Hi; lia|].
    replace (S m - 1 + 2 - 1) with (S m) by lia. done. }
  pose proof (py_slice_lookup 1 176 2 i state ltac:(lia) Hi') as Hrow.
  assert (Hlt : 1 + i * 2 < length state).
  { pose proof (slice_count_bound 1 176 2 (length state) i ltac:(lia) Hi'). lia. }
  apply lookup_lt_is_Some in Hlt as [row Hrowi].
  rewrite Hrowi in Hrow.
  assert (Hw : length row = w).
  { eapply Forall_lookup_1 in Hrows as [Hw _]; [exact Hw|exact Hrowi]. }
  assert (Hj' : j < (Nat.min (length row) (length row) - 0 + 2 - 1) / 2).
  { rewrite Hw, Nat.min_id. replace (w - 0 + 2 - 1) with (w + 1) by lia. done. }
  pose proof (py_slice_lookup 0 (length row) 2 j row ltac:(lia) Hj') as Hpx.
  assert (Hlt : 0 + j * 2 < length row).
  { pose proof (slice_count_bound 0 (length row) 2 (length row) j ltac:(lia) Hj'). lia. }
  apply lookup_lt_is_Some in Hlt as [px Hpxj].
  exists px. split.
  - replace (2 * i + 1) with (1 + i * 2) by lia.
    replace (2 * j) with (0 + j * 2) by lia.
    rewrite Hrowi. exact Hpxj.
  - rewrite list_lookup_fmap, Hrow. cbn [fmap option_fmap option_map mbind option_bind].
    by rewrite Hpx.
Qed.

Lemma preprocess_state_ok (h w c : nat) (state : Screen.Frame) :
  Screen.frame_shape h w c state →
  Nat.min 176 h / 2 * ((w + 1) / 2) = 88 * 80 →
  ∃ img, Screen.preprocess_state state = Ok [img]
         ∧ length img = 88
         ∧ Forall (fun row => length row = 80
                              ∧ Forall (fun px => length px = 1) row) img.
Proof.
  intros Hshape Hn. rewrite preprocess_state_unfold.
  destruct (image_shape h w c state
              (fun px => Screen.normalize (Screen.contrast (Screen.grey px))) Hshape)
    as [Hlen Hrows].
  pose proof (concat_uniform_length _ _ Hrows) as Hflat. rewrite Hlen in Hflat.
  destruct (reshape3 88 80 1 _) as [img|e] eqn:Hre.
  - exists img. split; [done|]. by apply reshape3_shape in Hre.
  - unfold reshape3 in Hre. rewrite decide_True in Hre by lia. done.
Qed.

Lemma screen_shape (h w : nat) (px : list nat) :
  Screen.frame_shape h w (length px) (replicate h (replicate w px)).
Proof.
  split; [by rewrite length_replicate|].
  apply Forall_replicate. split; [by rewrite length_replicate|].
  by apply Forall_replicate.
Qed.
End ScreenFacts.

(** The preprocessing accepts a screen exactly when the cropped image
    holds [88 * 80] pixels: it then returns an array of shape
    [(1, 88, 80, 1)], and otherwise the [reshape] raises [ValueError]. *)
Theorem preprocess_state_accepts {num : Type} `{NumOps num}
    (h w c : nat) (state : Screen.Frame) :
  Screen.frame_shape h w c state →
  (Nat.min 176 h / 2 * ((w + 1) / 2) = 88 * 80 →
   ∃ img, Screen.preprocess_state state = Ok [img]
          ∧ length img = 88
          ∧ Forall (fun row => length row = 80
                               ∧ Forall (fun px => length px = 1) row) img)
  ∧ (Nat.min 176 h / 2 * ((w + 1) / 2) ≠ 88 * 80 →
     Screen.preprocess_state state = Raise ValueError).
Proof.
  intros Hshape. split; [by apply (preprocess_state_ok h w c)|].
  intros Hn. rewrite preprocess_state_unfold.
  destruct (image_shape h w c state
              (fun px => Screen.normalize (Screen.contrast (Screen.grey px))) Hshape)
    as [Hlen Hrows].
  pose proof (concat_uniform_length _ _ Hrows) as Hflat. rewrite Hlen in Hflat.
  unfold reshape3. rewrite decide_False by lia. done.
Qed.

Lemma preprocess_state_accepts_witness :
  Screen.frame_shape 2 2 3 (replicate 2 (replicate 2 [1; 2; 3]))
  ∧ @Screen.preprocess_state Z Z_NumOps (replicate 2 (replicate 2 [1; 2; 3]))
    = Raise ValueError.
Proof.
  assert (Hshape : Screen.frame_shape 2 2 3 (replicate 2 (replicate 2 [1; 2; 3])))
    by apply (screen_shape 2 2 [1; 2; 3]).
  split; [exact Hshape|].
  apply (proj2 (@preprocess_state_accepts Z Z_NumOps 2 2 3 _ Hshape)).
  vm_compute. discriminate.
Defined.

(** On a screen of at least 176 rows and 159 or 160 columns the result
    holds, at row [i] and column [j], the normalised grey value of the
    pixel at row [2 i + 1] and column [2 j] of the screen. *)
Theorem preprocess_state_layout {num : Type} `{NumOps num}
    (h w c : nat) (state : Screen.Frame) :
  Screen.frame_shape h w c state →
  176 ≤ h → (w + 1) / 2 = 80 →
  ∃ img, Screen.preprocess_state state = Ok [img]
    ∧ ∀ i j, i < 88 → j < 80 →
        ∃ px, state !! (2 * i + 1) ≫= (fun row => row !! (2 * j)) = Some px
              ∧ img !! i ≫= (fun row => row !! j)
                = Some [Screen.normalize (Screen.contrast (Screen.grey px))].
Proof.
  intros Hshape Hh Hw. rewrite preprocess_state_unfold.
  set (f := fun px => Screen.normalize (Screen.contrast (Screen.grey px))).
  destruct (image_shape h w c state f Hshape) as [Hlen Hrows].
  assert (Hmin : Nat.min 176 h / 2 = 88) by (rewrite Nat.min_l by done; done).
  rewrite Hmin in Hlen. rewrite Hw in Hrows.
  rewrite (reshape3_rows 88 80 _ Hlen Hrows). cbn [mbind res_bind].
  eexists. split; [done|]. intros i j Hi Hj.
  destruct (crop_lookup h w c i j state Hshape) as (px & Hpx & Hcrop); [lia..|].
  exists px. split; [done|].
  rewrite !list_lookup_fmap.
  destruct (Screen.crop state !! i) as [row|]; [|done]. simpl in *.
  rewrite !list_lookup_fmap, Hcrop. done.
Qed.

Lemma preprocess_state_layout_witness :
  ∃ img,
    @Screen.preprocess_state Z Z_NumOps (replicate 176 (replicate 160 [7; 8; 9]))
    = Ok [img]
    ∧ img !! 3 ≫= (fun row => row !! 5)
      = Some [@Screen.normalize Z Z_NumOps
                (Screen.contrast (Screen.grey [7; 8; 9]))].
Proof.
  destruct (@preprocess_state_layout Z Z_NumOps 176 160 3
              (replicate 176 (replicate 160 [7; 8; 9]))
              (screen_shape 176 160 [7; 8; 9]) ltac:(lia) eq_refl)
    as (img & Himg & Hat).
  exists img. split; [exact Himg|].
  destruct (Hat 3 5 ltac:(lia) ltac:(lia)) as (px & Hpx & Hv).
  rewrite lookup_replicate_2 in Hpx by lia.
  cbn [mbind option_bind] in Hpx.
  rewrite lookup_replicate_2 in Hpx by lia.
  injection Hpx as <-. exact Hv.
Defined.

(** ** Value range of the preprocessed screen *)

Lemma INR_const (n : nat) (z : Z) : Z.of_nat n = z → INR n = IZR z.
Proof. intros <-. apply INR_IZR_INZ. Qed.

Lemma sum_uint8_bounds (px : list nat) (a : R) :
  Forall (fun v => v ≤ 255) px →
  (a <= foldl Rplus a (INR <$> px) <= a + 255 * INR (length px))%R.
Proof.
  intros Hpx. revert a. induction Hpx as [|v px Hv _ IH]; intros a.
  - simpl. lra.
  - cbn [fmap list_fmap foldl]. specialize (IH (a + INR v)%R).
    change (length (v :: px)) with (S (length px)). rewrite S_INR.
    pose proof (pos_INR v). apply le_INR in Hv.
    rewrite (INR_const 255 255 eq_refl) in Hv. lra.
Qed.

Lemma grey_range (px : list nat) :
  0 < length px → Forall (fun v => v ≤ 255) px →
  (0 <= @Screen.grey R R_NumOps px <= 255)%R.
Proof.
  intros Hc Hpx. unfold Screen.grey, mean_of. cbn [ndiv nadd n0 nofnat R_NumOps].
  rewrite length_fmap.
  pose proof (sum_uint8_bounds px 0 Hpx) as [Hlo Hhi].
  apply lt_INR in Hc. change (INR 0) with 0%R in Hc.
  split.
  - apply Rmult_le_pos; [lra|]. left. by apply Rinv_0_lt_compat.
  - apply (Rmult_le_reg_r (INR (length px))); [done|].
    unfold Rdiv. rewrite Rmult_assoc, Rinv_l by lra. lra.
Qed.

Lemma contrast_range (v : R) :
  (0 <= v <= 255)%R → (0 <= @Screen.contrast R R_NumOps v <= 255)%R.
Proof.
  intros Hv. unfold Screen.contrast.
  destruct (Screen.neqb v Screen.color); [|done].
  cbn [n0 R_NumOps]. lra.
Qed.

Lemma normalize_range (v : R) :
  (0 <= v <= 255)%R → (-2 <= @Screen.normalize R R_NumOps v <= -1 / 128)%R.
Proof.
  intros Hv. unfold Screen.normalize. cbn [ndiv nsub n1 nofnat R_NumOps].
  rewrite (INR_const 128 128 eq_refl). lra.
Qed.

Lemma crop_Forall (P : list nat → Prop) (state : Screen.Frame) :
  Forall (Forall P) state → Forall (Forall P) (Screen.crop state).
Proof.
  intros Hst. unfold Screen.crop. apply Forall_fmap.
  eapply Forall_impl; [apply py_slice_Forall; exact Hst|].
  intros row Hrow. by apply py_slice_Forall.
Qed.

(** Every value of a preprocessed screen lies between [-2] and [-1/128]:
    the normalisation maps the grey levels [0 .. 255] to negative numbers
    only. *)
Theorem preprocess_state_range (h w c : nat) (state : Screen.Frame)
    (img : list (list (list (list R)))) :
  Screen.frame_shape h w c state → 0 < c → Screen.frame_uint8 state →
  @Screen.preprocess_state R R_NumOps state = Ok img →
  Forall (Forall (Forall (Forall (fun v => (-2 <= v <= -1 / 128)%R)))) img.
Proof.
  intros [_ Hshape] Hc Hbytes. rewrite preprocess_state_unfold.
  destruct (reshape3 88 80 1 _) as [image|e] eqn:Hre; [|done].
  intros [= <-]. constructor; [|done].
  eapply reshape3_Forall; [|exact Hre].
  apply Forall_fmap.
  eapply Forall_impl;
    [apply (crop_Forall (fun px => 0 < length px ∧ Forall (fun v => v ≤ 255) px))|].
  - apply Forall_forall. intros row Hrow.
    apply Forall_forall. intros px Hpx.
    eapply Forall_forall in Hshape as [_ Hchan]; [|exact Hrow].
    eapply Forall_forall in Hchan; [|exact Hpx].
    eapply Forall_forall in Hbytes; [|exact Hrow].
    eapply Forall_forall in Hbytes; [|exact Hpx].
    split; [lia|done].
  - intros row Hrow. unfold compose. apply Forall_fmap.
    eapply Forall_impl; [exact Hrow|].
    intros px [Hlen Hpx]. unfold compose.
    by apply normalize_range, contrast_range, grey_range.
Qed.

Lemma preprocess_state_range_witness :
  ∃ img,
    @Screen.preprocess_state R R_NumOps (replicate 176 (replicate 160 [210; 164; 74]))
    = Ok img
    ∧ Forall (Forall (Forall (Forall (fun v => (-2 <= v <= -1 / 128)%R)))) img.
Proof.
  destruct (@preprocess_state_ok R R_NumOps 176 160 3
              (replicate 176 (replicate 160 [210; 164; 74]))
              (screen_shape 176 160 [210; 164; 74]) eq_refl)
    as (img & Himg & _).
  exists [img]. split; [exact Himg|].
  apply (preprocess_state_range 176 160 3
           (replicate 176 (replicate 160 [210; 164; 74])) [img]
           (screen_shape 176 160 [210; 164; 74]) ltac:(lia)); [|exact Himg].
  apply Forall_replicate, Forall_replicate.
  repeat constructor; lia.
Defined.

(** ** The contrast step *)

Lemma neqb_R (a b : R) : @Screen.neqb R R_NumOps a b = true ↔ a = b.
Proof.
  unfold Screen.neqb. cbn [nleb R_NumOps].
  destruct (Rle_dec a b), (Rle_dec b a); simpl; split; intros; try done; lra.
Qed.

(** The contrast step blanks every pixel whose three channels sum to
    [448], whatever its colour; any other pixel keeps its grey level,
    a third of the sum. *)
Theorem contrast_blanks_by_channel_sum (r g b : nat) :
  @Screen.contrast R R_NumOps (Screen.grey [r; g; b])
  = if decide (r + g + b = 448) then 0%R else (INR (r + g + b) / 3)%R.
Proof.
  assert (Hgrey : @Screen.grey R R_NumOps [r; g; b] = (INR (r + g + b) / 3)%R).
  { unfold Screen.grey, mean_of. cbn.
    rewrite !plus_INR. lra. }
  assert (Hcolor : @Screen.color R R_NumOps = (INR 448 / 3)%R).
  { unfold Screen.color, mean_of. cbn -[INR].
    rewrite (INR_const 210 210 eq_refl), (INR_const 164 164 eq_refl),
      (INR_const 74 74 eq_refl), (INR_const 448 448 eq_refl), (INR_const 3 3 eq_refl).
    lra. }
  unfold Screen.contrast. rewrite Hgrey, Hcolor.
  destruct (Screen.neqb _ _) eqn:Heq.
  - apply neqb_R in Heq.
    assert (INR (r + g + b) = INR 448) as Hs%INR_eq by lra.
    by rewrite decide_True.
  - rewrite decide_False; [done|].
    intros Hs. rewrite Hs in Heq.
    assert (@Screen.neqb R R_NumOps (INR 448 / 3)%R (INR 448 / 3)%R = true)
      by by apply neqb_R.
    congruence.
Qed.

(** ** The actor network *)

Lemma tanh_bound (x : R) : (Rabs (tanh x) <= 1)%R.
Proof.
  unfold tanh, sinh, cosh.
  pose proof (exp_pos x). pose proof (exp_pos (- x)).
  apply Rabs_le. split.
  - apply (Rmult_le_reg_r ((exp x + exp (- x)) / 2)); [lra|].
    unfold Rdiv at 2. rewrite Rmult_assoc, Rinv_l by lra. lra.
  - apply (Rmult_le_reg_r ((exp x + exp (- x)) / 2)); [lra|].
    unfold Rdiv at 1. rewrite Rmult_assoc, Rinv_l by lra. lra.
Qed.

(** Whatever the weights and the state, every output of the actor
    network is at most [upper_bound] in absolute value. *)
Theorem actor_output_within_bound (upper_bound : R) (w : Actor.Weights)
    (inputs : list R) :
  Forall (fun o => (Rabs o <= Rabs upper_bound)%R)
    (Actor.get_actor upper_bound w inputs).
Proof.
  unfold Actor.get_actor. cbv zeta. apply Forall_fmap.
  unfold Actor.dense at 1. apply Forall_fmap.
  apply Forall_forall. intros z _. unfold compose.
  rewrite Rabs_mult. pose proof (tanh_bound z). pose proof (Rabs_pos upper_bound).
  nra.
Qed.
